(** * utils::lru_cache: an asynchronous LRU cache with request coalescing

    A shallow embedding of [src/include/lru_cache.h] and the proofs of the
    properties its specification states.

    Modelling decisions, all visible in the definitions below:

    - [entry_ptr] is a pointer to a [std::pair<const Key, node>].  Such a
      pair is either the [sentinel_] member or a node of the
      [std::unordered_map] [map_]; the map keeps at most one node per key
      and never moves it, so the address of the node of key [k] is
      written [entry_of k].  Dereferencing [nullptr], or [entry_of k]
      when [k] has no node, is undefined behaviour: the operations return
      [None].
    - [get_reply_f] closures are named by a [reply_id]; what a closure
      does when it is called is given by [on_reply], and what the fetch
      function does by [miss_handler].  Both are arbitrary programs that
      may call back into the cache ([prog]).
    - the completion lambda handed to the fetch function is one-shot.  The
      field [completions_] is ghost state (absent from the C++ object): the
      keys whose lambda has been handed out and not been called yet.
      Calling a lambda that is not there is [undefined].
    - the range-based [for] of the completion lambda takes the bounds of
      the [std::vector] of replies once and then walks the vector itself.
      A [push_back] on that vector while the loop is running invalidates
      the iterators the loop holds, and going on with the loop is
      [undefined] ([drain_loop]).
    - re-entrant calls nest; [exec] takes the nesting depth it may use. *)

From stdpp Require Import base option list gmap.

#[local] Set Warnings "-clear-no-such-hyp".

Module utils.

(** ** std::error_code *)

Inductive error_category := system_category | generic_category.

Record error_code := { ec_value : Z; ec_category : error_category }.

(** [static const std::error_code no_error{0, std::system_category()}] *)
Definition no_error : error_code :=
  {| ec_value := 0; ec_category := system_category |}.

(** The name of a [get_reply_f] closure. *)
Definition reply_id := nat.

Section cache_model.

Context {Key : Type} `{Countable Key} `{!Inhabited Key}.
Context {T : Type}.

(** ** Data *)

Inductive entry_ptr :=
| nullptr
| sentinel_ptr
| entry_of (k : Key).

#[global] Instance entry_ptr_eq_dec : EqDecision entry_ptr.
Proof. solve_decision. Defined.

Record node := {
  value_ : option T;
  older_ : entry_ptr;
  newer_ : entry_ptr
}.

(** [node(std::unique_ptr<T> val_ptr)] and [node()] *)
Definition new_node (val_ptr : option T) : node :=
  {| value_ := val_ptr; older_ := nullptr; newer_ := nullptr |}.

Record lru_cache := {
  sentinel_ : node;
  map_ : gmap Key node;
  limit_ : nat;
  pending_replies_ : gmap Key (list reply_id);
  completions_ : gset Key
}.

Definition with_sentinel (c : lru_cache) (n : node) : lru_cache :=
  {| sentinel_ := n; map_ := map_ c; limit_ := limit_ c;
     pending_replies_ := pending_replies_ c; completions_ := completions_ c |}.

Definition with_map (c : lru_cache) (m : gmap Key node) : lru_cache :=
  {| sentinel_ := sentinel_ c; map_ := m; limit_ := limit_ c;
     pending_replies_ := pending_replies_ c; completions_ := completions_ c |}.

Definition with_pending (c : lru_cache) (p : gmap Key (list reply_id)) : lru_cache :=
  {| sentinel_ := sentinel_ c; map_ := map_ c; limit_ := limit_ c;
     pending_replies_ := p; completions_ := completions_ c |}.

Definition with_completions (c : lru_cache) (s : gset Key) : lru_cache :=
  {| sentinel_ := sentinel_ c; map_ := map_ c; limit_ := limit_ c;
     pending_replies_ := pending_replies_ c; completions_ := s |}.

(** ** Pointers into the cache *)

(** [*p] *)
Definition deref (c : lru_cache) (p : entry_ptr) : option node :=
  match p with
  | nullptr => None
  | sentinel_ptr => Some (sentinel_ c)
  | entry_of k => map_ c !! k
  end.

(** [p->first]; the sentinel pair holds a default-constructed key. *)
Definition first (c : lru_cache) (p : entry_ptr) : option Key :=
  match p with
  | nullptr => None
  | sentinel_ptr => Some inhabitant
  | entry_of k => match map_ c !! k with Some _ => Some k | None => None end
  end.

(** [p->second = n] *)
Definition assign (c : lru_cache) (p : entry_ptr) (n : node) : option lru_cache :=
  match p with
  | nullptr => None
  | sentinel_ptr => Some (with_sentinel c n)
  | entry_of k =>
      match map_ c !! k with
      | Some _ => Some (with_map c (<[k := n]> (map_ c)))
      | None => None
      end
  end.

Inductive dir := Older | Newer.

Definition link (d : dir) (n : node) : entry_ptr :=
  match d with Older => older_ n | Newer => newer_ n end.

Definition with_link (d : dir) (n : node) (q : entry_ptr) : node :=
  match d with
  | Older => {| value_ := value_ n; older_ := q; newer_ := newer_ n |}
  | Newer => {| value_ := value_ n; older_ := older_ n; newer_ := q |}
  end.

Definition set_link (d : dir) (c : lru_cache) (p q : entry_ptr) : option lru_cache :=
  n ← deref c p; assign c p (with_link d n q).

(** [p->second.older_ = q] *)
Definition set_older := set_link Older.
(** [p->second.newer_ = q] *)
Definition set_newer := set_link Newer.

(** ** The recency list (protected members) *)

Definition extract (c : lru_cache) (node : entry_ptr) : option lru_cache :=
  nd ← deref c node;
  let older := older_ nd in
  let newer := newer_ nd in
  c1 ← set_older c newer older;
  set_newer c1 older newer.

Definition insert_at_head (c : lru_cache) (node : entry_ptr) : option lru_cache :=
  let front := older_ (sentinel_ c) in
  c1 ← set_older c node front;
  c2 ← set_newer c1 node sentinel_ptr;
  c3 ← set_newer c2 front node;
  set_older c3 sentinel_ptr node.

(** [map_.find(key)]: [None] is [map_.end()]. *)
Definition map_find (c : lru_cache) (key : Key) : option Key :=
  match map_ c !! key with Some _ => Some key | None => None end.

Definition remove (c : lru_cache) (it : option Key) : option lru_cache :=
  match it with
  | None => None
  | Some k =>
      c1 ← extract c (entry_of k);
      Some (with_map c1 (delete k (map_ c1)))
  end.

Definition evict_lru (c : lru_cache) : option lru_cache :=
  let lru := newer_ (sentinel_ c) in
  key ← first c lru;
  remove c (map_find c key).

Definition touch (c : lru_cache) (node : entry_ptr) : option lru_cache :=
  c1 ← extract c node;
  insert_at_head c1 node.

Definition size (c : lru_cache) : nat := base.size (map_ c).

Definition limit (c : lru_cache) : nat := limit_ c.

(** [while (map_.size() > limit_) evict_lru();] Every round erases one
    node, so [n] rounds are enough when [n] is the size of the map. *)
Fixpoint enforce_limit_loop (n : nat) (c : lru_cache) : option lru_cache :=
  if decide (limit_ c < size c) then
    match n with
    | 0 => None
    | S n' => c1 ← evict_lru c; enforce_limit_loop n' c1
    end
  else Some c.

Definition enforce_limit (c : lru_cache) : option lru_cache :=
  enforce_limit_loop (size c) c.

(** [map_.emplace(key, node(val))] inserts only when the key is absent. *)
Definition map_emplace (c : lru_cache) (key : Key) (val_uptr : option T) : lru_cache :=
  match map_ c !! key with
  | Some _ => c
  | None => with_map c (<[key := new_node val_uptr]> (map_ c))
  end.

Definition add_entry (c : lru_cache) (key : Key) (val_uptr : option T)
  : option (lru_cache * entry_ptr) :=
  let c1 := map_emplace c key val_uptr in
  c2 ← insert_at_head c1 (entry_of key);
  c3 ← enforce_limit c2;
  Some (c3, entry_of key).

(** ** The public members that do not call back *)

(** The constructor; [load] only sizes the buckets. *)
Definition new_cache (limit : nat) : lru_cache :=
  {| sentinel_ := {| value_ := None; older_ := sentinel_ptr; newer_ := sentinel_ptr |};
     map_ := ∅; limit_ := limit; pending_replies_ := ∅; completions_ := ∅ |}.

Definition cbegin (c : lru_cache) : entry_ptr := older_ (sentinel_ c).

Definition cend (c : lru_cache) : entry_ptr := sentinel_ptr.

(** [const_iterator result_iter{cend()};
     if (val_uptr) result_iter = add_entry(key, std::move(val_uptr));]
    at the head of the completion lambda. *)
Definition store_result (c : lru_cache) (key : Key) (val_uptr : option T)
  : option (lru_cache * entry_ptr) :=
  match val_uptr with
  | Some _ => add_entry c key val_uptr
  | None => Some (c, cend c)
  end.

(** [const_iterator::operator++] *)
Definition next (c : lru_cache) (it : entry_ptr) : option entry_ptr :=
  nd ← deref c it; Some (older_ nd).

(** [const_iterator::check_linkage]; [&&] reads its right operand only
    when the left one holds. *)
Definition check_linkage (c : lru_cache) (ptr : entry_ptr) : option bool :=
  nd ← deref c ptr;
  o ← deref c (older_ nd);
  if bool_decide (newer_ o = ptr) then
    n ← deref c (newer_ nd);
    Some (bool_decide (older_ n = ptr))
  else Some false.

Definition flush (c : lru_cache) : lru_cache :=
  let c1 := with_map c ∅ in
  let s1 := with_link Newer (sentinel_ c1) sentinel_ptr in
  with_sentinel c1 (with_link Older s1 sentinel_ptr).

Definition find (c : lru_cache) (key : Key) : entry_ptr :=
  match map_find c key with
  | Some hit => entry_of hit
  | None => cend c
  end.

Definition invalidate (c : lru_cache) (key : Key) : option lru_cache :=
  match map_find c key with
  | Some fit => remove c (Some fit)
  | None => Some c
  end.

(** [for (it = cbegin(); it != cend(); it++)], as the tests walk the
    list: the entries visited, or [None] when the walk dereferences a
    dangling pointer or does not reach [cend()] within [n] steps. *)
Fixpoint walk (n : nat) (c : lru_cache) (it : entry_ptr) : option (list entry_ptr) :=
  if decide (it = cend c) then Some []
  else match n with
       | 0 => None
       | S n' => it' ← next c it; rest ← walk n' c it'; Some (it :: rest)
       end.

Definition traversal (c : lru_cache) : option (list entry_ptr) :=
  walk (size c) c (cbegin c).

(** ** Calls into the cache and the code of its clients *)

(** What a client sees happen: the fetch function being called, and a
    [get_reply_f] being called with its arguments.  [seen] is the cache as
    it is at that moment. *)
Inductive event :=
| fetch_called (key : Key) (seen : lru_cache)
| reply_called (reply : reply_id) (it : entry_ptr) (err : error_code) (seen : lru_cache).

Record world := { cache : lru_cache; log : list event }.

Definition with_cache (w : world) (c : lru_cache) : world :=
  {| cache := c; log := log w |}.

Definition record (w : world) (ev : event) : world :=
  {| cache := cache w; log := log w ++ [ev] |}.

(** The public operations, and the completion lambda
    [(value_uptr_t, std::error_code)] that [get] hands to the fetch function
    for [key]. *)
Inductive call :=
| call_get (key : Key) (reply : reply_id)
| call_find (key : Key)
| call_invalidate (key : Key)
| call_flush
| call_complete (key : Key) (val_uptr : option T) (err : error_code).

(** Client code: a sequence of calls, each chosen from what has been
    observed so far. *)
Inductive prog :=
| ret
| bind_call (c : call) (rest : world → prog).

Inductive outcome :=
| done (w : world)
| out_of_fuel
| undefined.

(** [miss_handler_], and the bodies of the [get_reply_f] closures. *)
Variable miss_handler : Key → world → prog.
Variable on_reply : reply_id → entry_ptr → error_code → world → prog.

Section calls.

(** How a nested call into the cache is executed. *)
Variable exec : call → world → outcome.

Fixpoint run (p : prog) (w : world) : outcome :=
  match p with
  | ret => done w
  | bind_call c rest =>
      match exec c w with
      | done w1 => run (rest w1) w1
      | o => o
      end
  end.

(** [reply(it, err)] *)
Definition invoke_reply (reply : reply_id) (it : entry_ptr) (err : error_code)
    (w : world) : outcome :=
  let w1 := record w (reply_called reply it err (cache w)) in
  run (on_reply reply it err w1) w1.

(** [miss_handler_(key, lambda)] *)
Definition invoke_miss_handler (key : Key) (w : world) : outcome :=
  let w1 := record w (fetch_called key (cache w)) in
  run (miss_handler key w1) w1.

(** The iterators a range-for holds into the vector of [key], taken when
    the vector was [replies], can still be used: the vector is there and
    nothing has been pushed onto it.  ([push_back] is all this class does
    to a wait list that exists; it invalidates the past-the-end iterator,
    and every iterator and element when the vector reallocates.) *)
Definition iterators_valid (key : Key) (replies : list reply_id) (c : lru_cache) : bool :=
  bool_decide (pending_replies_ c !! key = Some replies).

(** [for (auto& pending_reply : pending_reply_iter->second)
      pending_reply(result_iter, err);]
    The loop takes [begin()] and [end()] of the vector of [key] once, when
    it is [replies], and walks the vector itself, not a copy; [rest] is
    what lies ahead of it.  When a reply returns and the iterators are no
    longer valid, the [++] and [!=] that follow are undefined. *)
Fixpoint drain_loop (key : Key) (replies rest : list reply_id) (result_iter : entry_ptr)
    (err : error_code) (w : world) : outcome :=
  match rest with
  | [] => done w
  | pending_reply :: rest' =>
      match invoke_reply pending_reply result_iter err w with
      | done w1 =>
          if iterators_valid key replies (cache w1)
          then drain_loop key replies rest' result_iter err w1
          else undefined
      | o => o
      end
  end.

Definition drain (key : Key) (replies : list reply_id) (result_iter : entry_ptr)
    (err : error_code) (w : world) : outcome :=
  drain_loop key replies replies result_iter err w.

(** [pending_iter->second.push_back(reply)] *)
Definition push_back (key : Key) (reply : reply_id) (c : lru_cache) : lru_cache :=
  with_pending c (alter (λ replies, replies ++ [reply]) key (pending_replies_ c)).

(** [pending_replies_.emplace(key, pending_reply_list_t())] *)
Definition pending_emplace (key : Key) (c : lru_cache) : lru_cache :=
  match pending_replies_ c !! key with
  | Some _ => c
  | None => with_pending c (<[key := []]> (pending_replies_ c))
  end.

(** [pending_replies_.erase(key)] *)
Definition pending_erase (key : Key) (c : lru_cache) : lru_cache :=
  with_pending c (delete key (pending_replies_ c)).

(** Ghost: the lambda for [key] is created, respectively called. *)
Definition issue (key : Key) (c : lru_cache) : lru_cache :=
  with_completions c ({[key]} ∪ completions_ c).

Definition consume (key : Key) (c : lru_cache) : lru_cache :=
  with_completions c (completions_ c ∖ {[key]}).

(** The body of the lambda [[this,key] (val_uptr, err)]. *)
Definition complete (key : Key) (val_uptr : option T) (err : error_code)
    (w : world) : outcome :=
  if decide (key ∈ completions_ (cache w)) then
    match store_result (consume key (cache w)) key val_uptr with
    | None => undefined
    | Some (c1, result_iter) =>
        match pending_replies_ c1 !! key with
        | None => undefined
        | Some replies =>
            match drain key replies result_iter err (with_cache w c1) with
            | done w2 => done (with_cache w2 (pending_erase key (cache w2)))
            | o => o
            end
        end
    end
  else undefined.

Definition get (key : Key) (reply : reply_id) (w : world) : outcome :=
  let c := cache w in
  match map_find c key with
  | Some hit =>
      match touch c (entry_of hit) with
      | Some c1 => invoke_reply reply (entry_of hit) no_error (with_cache w c1)
      | None => undefined
      end
  | None =>
      match pending_replies_ c !! key with
      | Some _ => done (with_cache w (push_back key reply c))
      | None =>
          let c1 := push_back key reply (pending_emplace key c) in
          invoke_miss_handler key (with_cache w (issue key c1))
      end
  end.

End calls.

(** One call, with [fuel] levels of nested calls below it. *)
Fixpoint exec (fuel : nat) (c : call) (w : world) : outcome :=
  match fuel with
  | 0 => out_of_fuel
  | S n =>
      match c with
      | call_get key reply => get (exec n) key reply w
      | call_find key => done w
      | call_invalidate key =>
          match invalidate (cache w) key with
          | Some c1 => done (with_cache w c1)
          | None => undefined
          end
      | call_flush => done (with_cache w (flush (cache w)))
      | call_complete key val_uptr err => complete (exec n) key val_uptr err w
      end
  end.

(** A client program run at top level. *)
Definition run_main (fuel : nat) (p : prog) (w : world) : outcome :=
  run (exec fuel) p w.

Definition new_world (limit : nat) : world :=
  {| cache := new_cache limit; log := [] |}.

(** ** The recency list as a list of keys *)

(** The Index contents: the value stored under each key. *)
Definition contents (c : lru_cache) : gmap Key (option T) := value_ <$> map_ c.

(** [links d c p] is [p->second.older_] or [p->second.newer_]. *)
Definition links (d : dir) (c : lru_cache) (p : entry_ptr) : option entry_ptr :=
  link d <$> deref c p.

Definition ptrs (l : list Key) : list entry_ptr := entry_of <$> l.

Definition head_ptr (l : list Key) (q : entry_ptr) : entry_ptr :=
  match l with
  | [] => q
  | k :: _ => entry_of k
  end.

Definition last_ptr (l : list Key) (p : entry_ptr) : entry_ptr :=
  head_ptr (reverse l) p.

(** Following [f] from [p] visits the nodes of the keys [l], in this
    order, and then arrives at [q]. *)
Fixpoint apath (f : entry_ptr → option entry_ptr) (p : entry_ptr) (l : list Key)
    (q : entry_ptr) : Prop :=
  match l with
  | [] => f p = Some q
  | k :: l' => f p = Some (entry_of k) ∧ apath f (entry_of k) l' q
  end.

(** The sentinel and the nodes of [l] form a ring: [l] read from the
    sentinel along [older_], and backwards along [newer_]. *)
Definition linked (c : lru_cache) (l : list Key) : Prop :=
  NoDup l ∧
  (∀ k, k ∈ l → is_Some (map_ c !! k)) ∧
  apath (links Older c) sentinel_ptr l sentinel_ptr ∧
  apath (links Newer c) sentinel_ptr (reverse l) sentinel_ptr.

(** [l] is the recency list, most recently used first, and holds exactly
    the keys of the Index. *)
Definition repr (c : lru_cache) (l : list Key) : Prop :=
  linked c l ∧ ∀ k, is_Some (map_ c !! k) → k ∈ l.

#[global] Instance dir_eq_dec : EqDecision dir.
Proof. solve_decision. Defined.

(** The members that the list operations leave alone. *)
Definition same_frame (c c' : lru_cache) : Prop :=
  limit_ c' = limit_ c ∧
  pending_replies_ c' = pending_replies_ c ∧
  completions_ c' = completions_ c.

(** [c'] is [c] with the one field [p->second.older_], or
    [p->second.newer_], set to [q]. *)
Definition relinked (d : dir) (p q : entry_ptr) (c c' : lru_cache) : Prop :=
  (∀ d' x, links d' c' x = if decide (d' = d ∧ x = p) then Some q else links d' c x) ∧
  contents c' = contents c ∧
  same_frame c c'.

(** A fetch is outstanding for every key with an unused lambda, and such
    a key has no entry. *)
Definition coordinated (c : lru_cache) : Prop :=
  (∀ k, k ∈ completions_ c → is_Some (pending_replies_ c !! k)) ∧
  (∀ k, k ∈ completions_ c → map_ c !! k = None).

Definition inv (c : lru_cache) : Prop :=
  (∃ l, repr c l ∧ length l ≤ limit_ c) ∧ coordinated c.

(** The waiters of [k] are being called: the lambda has been used and the
    wait list is still registered. *)
Definition draining (k : Key) (c : lru_cache) : Prop :=
  (k ∉ completions_ c) ∧ is_Some (pending_replies_ c !! k).

Definition is_fetch_of (k : Key) (ev : event) : bool :=
  match ev with
  | fetch_called k' _ => bool_decide (k' = k)
  | reply_called _ _ _ _ => false
  end.

(** The number of times the fetch function was called for [k]. *)
Definition fetch_count (k : Key) (evs : list event) : nat :=
  length (base.filter (λ ev, is_fetch_of k ev = true) evs).

(** [evs] holds the calls of the replies [rs] with [(it, err)], in this
    order; after each comes what that reply did itself.  [P] holds of the
    cache each of these replies sees when it is called. *)
Fixpoint fifo_replies (P : lru_cache → Prop) (it : entry_ptr) (err : error_code)
    (rs : list reply_id) (evs : list event) : Prop :=
  match rs with
  | [] => evs = []
  | r :: rs' =>
      ∃ seen nested evs',
        evs = reply_called r it err seen :: nested ++ evs' ∧
        P seen ∧ fifo_replies P it err rs' evs'
  end.

(** What one call, with everything it calls back, does to a cache that
    satisfies [inv]: the invariant holds again, the limit is what it was,
    the log has grown, and a key whose waiters are being called is still
    in that state and has not been fetched. *)
Definition preserved (w w' : world) : Prop :=
  inv (cache w) →
  inv (cache w') ∧
  limit_ (cache w') = limit_ (cache w) ∧
  ∃ evs, log w' = log w ++ evs ∧
         ∀ k, draining k (cache w) →
              draining k (cache w') ∧ fetch_count k evs = 0.

(** A reply that does not call back into the cache, and a fetch function
    that returns without calling the lambda it was given. *)
Definition silent (r : reply_id) : Prop :=
  ∀ it err w, on_reply r it err w = ret.

Definition deferred (k : Key) : Prop :=
  ∀ w, miss_handler k w = ret.

(** Client code: [get(k, r)] for each [r] in turn. *)
Fixpoint gets (k : Key) (rs : list reply_id) : prog :=
  match rs with
  | [] => ret
  | r :: rs' => bind_call (call_get k r) (λ _, gets k rs')
  end.

(** Client code: for each [(k, r, v)] in turn, [get(k, r)] and then the
    completion of the fetch of [k] with the value [v]. *)
Fixpoint inserts (kvs : list (Key * reply_id * T)) : prog :=
  match kvs with
  | [] => ret
  | (k, r, v) :: kvs' =>
      bind_call (call_get k r) (λ _,
        bind_call (call_complete k (Some v) no_error) (λ _, inserts kvs'))
  end.

Definition inserted_keys (kvs : list (Key * reply_id * T)) : list Key :=
  (λ x, x.1.1) <$> kvs.

Definition inserted_replies (kvs : list (Key * reply_id * T)) : list reply_id :=
  (λ x, x.1.2) <$> kvs.

(** [c'] is [c] after [flush()] or after some [invalidate(k')]. *)
Definition flushed_or_invalidated (c c' : lru_cache) : Prop :=
  c' = flush c ∨ ∃ k', invalidate c k' = Some c'.

(** The cursor the completion of [k] passes to the waiters: the new entry
    when a value came, [cend()] when none did. *)
Definition result_cursor (k : Key) (val_uptr : option T) : entry_ptr :=
  match val_uptr with
  | Some _ => entry_of k
  | None => sentinel_ptr
  end.

(** The replies [rs] called one after the other with [(it, err)] on the
    cache [c], none of them calling back. *)
Definition replies_to (rs : list reply_id) (it : entry_ptr) (err : error_code)
    (c : lru_cache) : list event :=
  (λ r, reply_called r it err c) <$> rs.

(** ** Cursors' values, and the loop of the example *)

(** [const_iterator::operator*] and [operator->]: the value of the entry.
    The sentinel holds the null [unique_ptr], which cannot be
    dereferenced. *)
Definition iterator_value (c : lru_cache) (it : entry_ptr) : option T :=
  nd ← deref c it; value_ nd.

(** [dump_cache(it, past_end)] of [src/example/main.cpp]: the values it
    prints, in order; [n] bounds the number of rounds of its loop. *)
Fixpoint dump_cache (n : nat) (c : lru_cache) (it past_end : entry_ptr)
  : option (list T) :=
  if decide (it = past_end) then Some []
  else match n with
       | 0 => None
       | S n' =>
           v ← iterator_value c it;
           it' ← next c it;
           rest ← dump_cache n' c it' past_end;
           Some (v :: rest)
       end.

(** [test_fixture::list_integrity_check] of [src/ctest/test.h].  The loop
    leaves at the latest when [count] has reached [size()], so [size() + 1]
    rounds are all it can make. *)
Fixpoint list_integrity_loop (n : nat) (c : lru_cache) (count : nat)
    (iter : entry_ptr) : option (bool * nat) :=
  if decide (iter = cend c) then Some (true, count)
  else match n with
       | 0 => None
       | S n' =>
           linkage ← check_linkage c iter;
           if negb linkage then Some (false, count)
           else if negb (bool_decide (count < size c)) then Some (false, count)
           else iter' ← next c iter; list_integrity_loop n' c (S count) iter'
       end.

Definition list_integrity_check (c : lru_cache) : option bool :=
  match list_integrity_loop (S (size c)) c 0 (cbegin c) with
  | Some (retval, count) => Some (if retval then bool_decide (count = size c) else false)
  | None => None
  end.

(** [test_fixture::expect_error]; [!err] is [err.value() == 0]. *)
Definition expect_error (c : lru_cache) (iter : entry_ptr) (err : error_code) : bool :=
  let result := true in
  let result := if decide (iter = cend c) then result else false in
  if decide (ec_value err = 0%Z) then false else result.

(** ** More invariants *)

(** Every entry holds a value: no node of the Index has the null
    [unique_ptr]. *)
Definition valued (c : lru_cache) : Prop :=
  ∀ k v, contents c !! k = Some v → is_Some v.

Definition wait_lists_nonempty (c : lru_cache) : Prop :=
  ∀ k rs, pending_replies_ c !! k = Some rs → rs ≠ [].

(** The fetch function is called for a key that has no entry, and whose
    wait list has just been made: it holds one reply. *)
Definition fresh_fetch (ev : event) : Prop :=
  match ev with
  | fetch_called k seen =>
      map_ seen !! k = None ∧
      (∃ r, pending_replies_ seen !! k = Some [r]) ∧
      k ∈ completions_ seen
  | reply_called _ _ _ _ => True
  end.

(** What a call, with all it calls back, keeps: the entries have values,
    the wait lists are not empty, a wait list without a completion to come
    was one before, and the fetches logged are fresh. *)
Definition kept (w w' : world) : Prop :=
  (valued (cache w) → valued (cache w')) ∧
  (wait_lists_nonempty (cache w) → wait_lists_nonempty (cache w')) ∧
  (∀ k, is_Some (pending_replies_ (cache w') !! k) →
        k ∉ completions_ (cache w') →
        is_Some (pending_replies_ (cache w) !! k) ∧ k ∉ completions_ (cache w)) ∧
  ∃ evs, log w' = log w ++ evs ∧ Forall fresh_fetch evs.

(** Client code: one call after the other. *)
Fixpoint calls (cs : list call) : prog :=
  match cs with
  | [] => ret
  | c :: cs' => bind_call c (λ _, calls cs')
  end.

(** ** Two sentences of the specification, as they are worded *)

(** "Look up and remove the Pending Wait-List entry for [key]", and then
    "invoke every queued [on_reply] callback": every waiter is called on a
    cache from which the wait list of [k] is gone. *)
Definition spec_erases_before_replies : Prop :=
  ∀ w k v err rs n w',
    inv (cache w) →
    pending_replies_ (cache w) !! k = Some rs →
    exec n (call_complete k v err) w = done w' →
    ∃ evs, log w' = log w ++ evs ∧
           fifo_replies (λ seen, pending_replies_ seen !! k = None)
             (result_cursor k v) err rs evs.

(** "If a waiter callback invoked during the completion drain for key k
    re-entrantly calls get(k), that call [...] appends its reply to that
    entry": whenever the waiters of [k] are being called, [get(k, r)] does
    nothing but append [r] to the wait list. *)
Definition spec_reentrant_get_appends : Prop :=
  ∀ w k r n w',
    inv (cache w) →
    draining k (cache w) →
    exec n (call_get k r) w = done w' →
    w' = with_cache w (push_back k r (cache w)).

End cache_model.

Arguments entry_ptr : clear implicits.
Arguments node : clear implicits.
Arguments lru_cache Key {_ _} T.
Arguments event Key {_ _} T.
Arguments world Key {_ _} T.
Arguments call : clear implicits.
Arguments prog Key {_ _} T.
Arguments outcome Key {_ _} T.
Arguments ptrs : simpl never.
Arguments last_ptr : simpl never.
Arguments set_link : simpl never.
Arguments extract : simpl never.
Arguments insert_at_head : simpl never.
Arguments remove : simpl never.
Arguments evict_lru : simpl never.
Arguments touch : simpl never.
Arguments enforce_limit : simpl never.
Arguments add_entry : simpl never.
Arguments invalidate : simpl never.

(** * The checks of the tests on values *)

Section value_checks.

Context {Key : Type} `{Countable Key} {T : Type} `{EqDecision T}.

(** [test_fixture::expect_value]; [iter->get()] is the value itself. *)
Definition expect_value (c : lru_cache Key T) (iter : entry_ptr Key) (expected : T)
  : option bool :=
  if decide (iter = cend c) then Some false
  else v ← iterator_value c iter; Some (bool_decide (v = expected)).

(** [test_fixture::list_check].  [expected[count]] is read before [count]
    is compared with [expected.size()]; reading past the end of the vector
    is undefined.  The loop reads [expected[count]] in every round, so
    [expected.size() + 1] rounds are all it can make. *)
Fixpoint list_check_loop (n : nat) (c : lru_cache Key T) (expected : list T)
    (result : bool) (count : nat) (it : entry_ptr Key) : option (bool * nat) :=
  if decide (it = cend c) then Some (result, count)
  else match n with
       | 0 => None
       | S n' =>
           v ← iterator_value c it;
           e ← expected !! count;
           let result := if decide (v = e) then result else false in
           let count := S count in
           if decide (length expected < count) then Some (false, count)
           else it' ← next c it; list_check_loop n' c expected result count it'
       end.

Definition list_check (c : lru_cache Key T) (expected : list T) : option bool :=
  match list_check_loop (S (length expected)) c expected true 0 (cbegin c) with
  | Some (result, count) =>
      Some (if result then bool_decide (count = length expected) else false)
  | None => None
  end.

End value_checks.

(** * The cache of the tests

    Keys and values are numbers, as in [src/ctest/test.h], where the value
    fetched for the key ["n"] is [n]. *)

(** [std::make_error_code(std::errc::invalid_argument)] *)
Definition invalid_argument : error_code :=
  {| ec_value := 22; ec_category := generic_category |}.

(** The fetch function of [test_fixture]: it completes at once, from
    inside its invocation, with the number the key stands for. *)
Definition test_miss_handler (key : nat) (w : world nat nat) : prog nat nat :=
  bind_call (call_complete key (Some key) no_error) (λ _, ret).

(** A fetch function that returns and leaves the completion for later. *)
Definition deferred_miss_handler (key : nat) (w : world nat nat) : prog nat nat :=
  ret.

(** Replies that only look at their arguments, as [expect_value]. *)
Definition silent_reply (r : reply_id) (it : entry_ptr nat) (err : error_code)
    (w : world nat nat) : prog nat nat :=
  ret.

(** [fill(0, 3)] with a deferred fetch function, each fetch completed
    before the next [get]. *)
Definition fill_0_3 : list (nat * reply_id * nat) :=
  [(0, 0, 0); (1, 1, 1); (2, 2, 2)].

(** [fill(0, 5)] and then [get("2")], the body of [lru_order_test]. *)
Definition lru_order_test : prog nat nat :=
  bind_call (call_get 0 0) (λ _,
  bind_call (call_get 1 1) (λ _,
  bind_call (call_get 2 2) (λ _,
  bind_call (call_get 3 3) (λ _,
  bind_call (call_get 4 4) (λ _,
  bind_call (call_get 2 5) (λ _, ret)))))).

Definition world_of (o : outcome nat nat) : world nat nat :=
  match o with
  | done w => w
  | _ => new_world 0
  end.

(** A cache of limit 5 that holds the keys 2, 1, 0. *)
Definition filled_world : world nat nat :=
  world_of (run_main deferred_miss_handler silent_reply 1 (inserts fill_0_3) (new_world 5)).

(** The same cache with the fetch of key 7 in flight and two replies
    waiting for it. *)
Definition busy_world : world nat nat :=
  world_of (run_main deferred_miss_handler silent_reply 1 (gets 7 [1; 2]) filled_world).

(** The cache the waiters of key 7 are called on when the fetch fails, and
    when it brings the value 42. *)
Definition failed_world : world nat nat :=
  with_cache busy_world (consume 7 (cache busy_world)).

Definition stored_world : world nat nat :=
  with_cache busy_world
    (match store_result (consume 7 (cache busy_world)) 7 (Some 42) with
     | Some (c, _) => c
     | None => cache busy_world
     end).

(** The cache after [lru_order_test]. *)
Definition lru_order_world : world nat nat :=
  world_of (run_main test_miss_handler silent_reply 3 lru_order_test (new_world 5)).

(** [busy_world] after the fetch of key 7 has brought the value 42. *)
Definition completed_world : world nat nat :=
  world_of (exec deferred_miss_handler silent_reply 1
              (call_complete 7 (Some 42) no_error) busy_world).

(** [stored_world] after [get(7, 8)]. *)
Definition hit_world : world nat nat :=
  world_of (exec deferred_miss_handler silent_reply 1 (call_get 7 8) stored_world).

(** A cache of limit 3 that holds the keys 2, 1, 0: it is full. *)
Definition full_world : world nat nat :=
  world_of (run_main deferred_miss_handler silent_reply 1 (inserts fill_0_3) (new_world 3)).

(** Replies of which the one named 1 calls [get("7", ...)] with the
    reply 8 and the others only look at their arguments. *)
Definition reentrant_reply (r : reply_id) (it : entry_ptr nat) (err : error_code)
    (w : world nat nat) : prog nat nat :=
  if decide (r = 1) then bind_call (call_get 7 8) (λ _, ret) else ret.

(** [busy_world] after the fetch of key 7 has brought the value 42, the
    first waiter being the one that calls [get("7", ...)]. *)
Definition reentered_world : world nat nat :=
  world_of (exec deferred_miss_handler reentrant_reply 2
              (call_complete 7 (Some 42) no_error) busy_world).

Arguments reentered_world : simpl never.

(** A cache of limit 0 with the fetch of key 7 in flight and one reply
    waiting for it. *)
Definition zero_world : world nat nat :=
  world_of (run_main deferred_miss_handler silent_reply 1 (gets 7 [1]) (new_world 0)).

Arguments zero_world : simpl never.
Arguments full_world : simpl never.
Arguments filled_world : simpl never.
Arguments busy_world : simpl never.
Arguments failed_world : simpl never.
Arguments stored_world : simpl never.
Arguments lru_order_world : simpl never.
Arguments completed_world : simpl never.
Arguments hit_world : simpl never.

(** * Proofs *)

Section proofs.

Context {Key : Type} `{Countable Key} `{!Inhabited Key}.
Context {T : Type}.

Implicit Types (c : lru_cache Key T) (p q x : entry_ptr Key) (k : Key)
  (l : list Key) (d : dir) (f g : entry_ptr Key → option (entry_ptr Key)).

(** ** Paths *)

Lemma ptrs_cons k l : ptrs (k :: l) = entry_of k :: ptrs l.
Proof. reflexivity. Qed.

Lemma ptrs_app l1 l2 : ptrs (l1 ++ l2) = ptrs l1 ++ ptrs l2.
Proof. apply fmap_app. Qed.

Lemma elem_of_ptrs k l : entry_of k ∈ ptrs l ↔ k ∈ l.
Proof.
  unfold ptrs. rewrite list_elem_of_fmap. split.
  - intros (k' & Heq & Hin). by simplify_eq.
  - intros Hin. by exists k.
Qed.

Lemma sentinel_not_in_ptrs l : @sentinel_ptr Key ∉ ptrs l.
Proof. unfold ptrs. rewrite list_elem_of_fmap. by intros (k & ? & _). Qed.

Lemma last_ptr_nil p : last_ptr [] p = p.
Proof. reflexivity. Qed.

Lemma last_ptr_cons k l p : last_ptr (k :: l) p = last_ptr l (entry_of k).
Proof.
  unfold last_ptr. rewrite reverse_cons.
  destruct (reverse l); reflexivity.
Qed.

Lemma last_ptr_snoc l k p : last_ptr (l ++ [k]) p = entry_of k.
Proof. unfold last_ptr. rewrite reverse_snoc. reflexivity. Qed.

Lemma last_ptr_reverse l p : last_ptr (reverse l) p = head_ptr l p.
Proof. unfold last_ptr. by rewrite reverse_involutive. Qed.

Lemma last_ptr_elem l p : last_ptr l p = p ∨ last_ptr l p ∈ ptrs l.
Proof.
  revert p. induction l as [|k l IH]; intros p; [by left|].
  right. rewrite last_ptr_cons, ptrs_cons.
  destruct (IH (entry_of k)) as [-> | Hin]; [left | by right].
Qed.

Lemma last_ptr_cons_elem k l p : last_ptr (k :: l) p ∈ ptrs (k :: l).
Proof.
  destruct (last_ptr_elem (k :: l) p) as [Heq | Hin]; [|done].
  rewrite last_ptr_cons in *. rewrite ptrs_cons.
  destruct (last_ptr_elem l (entry_of k)) as [-> | Hin]; [left | by right].
Qed.

Lemma apath_ext f g p l q :
  (∀ x, x = p ∨ x ∈ ptrs l → g x = f x) → apath f p l q → apath g p l q.
Proof.
  revert p. induction l as [|k l IH]; cbn [apath]; intros p Hfg.
  - intros <-. apply Hfg. by left.
  - intros [Hp Hl]. split.
    + rewrite <- Hp. apply Hfg. by left.
    + apply IH; [|done]. intros x Hx. apply Hfg. right.
      rewrite ptrs_cons. destruct Hx as [-> | Hx]; [left | by right].
Qed.

Lemma apath_head f p l q : apath f p l q → f p = Some (head_ptr l q).
Proof. destruct l; cbn; [done | by intros [? _]]. Qed.

Lemma apath_last f p l q : apath f p l q → f (last_ptr l p) = Some q.
Proof.
  revert p. induction l as [|k l IH]; intros p; [done|].
  intros [_ Hl]. rewrite last_ptr_cons. by apply IH.
Qed.

Lemma apath_split f p l1 k l2 q :
  apath f p (l1 ++ k :: l2) q ↔
  apath f p l1 (entry_of k) ∧ apath f (entry_of k) l2 q.
Proof.
  revert p. induction l1 as [|k1 l1 IH]; intros p; cbn; [done|].
  rewrite IH. tauto.
Qed.

(** Unlinking the node of [k] from a path. *)
Lemma apath_remove f g p l1 k l2 q :
  NoDup (l1 ++ k :: l2) → p ∉ ptrs (l1 ++ k :: l2) →
  apath f p (l1 ++ k :: l2) q →
  (∀ x, g x = if decide (x = last_ptr l1 p) then Some (head_ptr l2 q) else f x) →
  apath g p (l1 ++ l2) q.
Proof.
  revert p. induction l1 as [|k1 l1 IH]; intros p Hnd Hp Hf Hg.
  - rewrite app_nil_l in *. destruct Hf as [_ Hl2].
    rewrite ptrs_cons in Hp. apply not_elem_of_cons in Hp as [_ Hp].
    assert (Hgp : g p = Some (head_ptr l2 q)).
    { rewrite Hg, last_ptr_nil. by rewrite decide_True. }
    assert (Hrest : ∀ x, x ∈ ptrs l2 → g x = f x).
    { intros x Hx. rewrite Hg, last_ptr_nil. rewrite decide_False; [done|].
      by intros ->. }
    destruct l2 as [|k2 l2]; cbn in *; [done|].
    destruct Hl2 as [_ Hl2]. split; [done|].
    apply (apath_ext f); [|done]. intros x Hx. apply Hrest.
    rewrite ptrs_cons. destruct Hx as [-> | Hx]; [left | by right].
  - rewrite <- app_comm_cons in *. destruct Hf as [Hfp Hl].
    apply NoDup_cons in Hnd as [Hk1 Hnd].
    rewrite ptrs_cons in Hp. apply not_elem_of_cons in Hp as [Hpk1 Hp].
    pose proof (last_ptr_cons_elem k1 l1 p) as Hlp.
    split.
    + rewrite Hg. rewrite decide_False; [done|].
      intros Heq. rewrite <- Heq, ptrs_cons in Hlp.
      apply elem_of_cons in Hlp as [? | Hin]; [done|].
      apply Hp. rewrite ptrs_app. apply elem_of_app. by left.
    + apply IH; [done| |done|].
      * by rewrite elem_of_ptrs.
      * intros x. rewrite Hg. by rewrite last_ptr_cons.
Qed.

(** Linking the node of [k] in, right after [p]. *)
Lemma apath_cons f g p l k q :
  p ∉ ptrs l → entry_of k ≠ p → k ∉ l →
  apath f p l q →
  (∀ x, g x = if decide (x = entry_of k) then Some (head_ptr l q)
              else if decide (x = p) then Some (entry_of k) else f x) →
  apath g p (k :: l) q.
Proof.
  intros Hp Hkp Hk Hf Hg. cbn [apath]. split.
  - rewrite Hg. rewrite decide_False by done. by rewrite decide_True.
  - assert (Hgk : g (entry_of k) = Some (head_ptr l q)).
    { rewrite Hg. by rewrite decide_True. }
    assert (Hrest : ∀ x, x ∈ ptrs l → g x = f x).
    { intros x Hx. rewrite Hg. rewrite !decide_False; [done| |].
      - by intros ->.
      - intros ->. by apply Hk, elem_of_ptrs. }
    destruct l as [|k2 l]; cbn in *; [done|].
    destruct Hf as [_ Hl]. split; [done|].
    apply (apath_ext f); [|done]. intros x Hx. apply Hrest.
    rewrite ptrs_cons. destruct Hx as [-> | Hx]; [left | by right].
Qed.

(** Linking the node of [k] in, right before [q]. *)
Lemma apath_snoc f g p l k q :
  NoDup l → p ∉ ptrs l → entry_of k ≠ p → k ∉ l →
  apath f p l q →
  (∀ x, g x = if decide (x = entry_of k) then Some q
              else if decide (x = last_ptr l p) then Some (entry_of k) else f x) →
  apath g p (l ++ [k]) q.
Proof.
  revert p. induction l as [|k1 l IH]; intros p Hnd Hp Hkp Hk Hf Hg.
  - cbn in *. split.
    + rewrite Hg. rewrite decide_False by done. by rewrite decide_True.
    + rewrite Hg. by rewrite decide_True.
  - rewrite <- app_comm_cons. cbn [apath] in *. destruct Hf as [Hfp Hl].
    apply not_elem_of_cons in Hk as [Hkk1 Hk].
    apply NoDup_cons in Hnd as [Hk1 Hnd].
    rewrite ptrs_cons in Hp.
    apply not_elem_of_cons in Hp as [Hpk1 Hp].
    split.
    + rewrite Hg. rewrite !decide_False; [done| |done].
      rewrite last_ptr_cons. intros ->.
      destruct (last_ptr_elem l (entry_of k1)) as [Heq | Hin]; [done|].
      by apply Hp.
    + apply IH; [done | | | done | done |].
      * by rewrite elem_of_ptrs.
      * by intros [= ->].
      * intros x. rewrite Hg. by rewrite last_ptr_cons.
Qed.

(** ** Field assignments *)

Lemma same_frame_refl c : same_frame c c.
Proof. by repeat split. Qed.

Lemma same_frame_trans c1 c2 c3 :
  same_frame c1 c2 → same_frame c2 c3 → same_frame c1 c3.
Proof.
  intros (? & ? & ?) (? & ? & ?). repeat split; congruence.
Qed.

Lemma contents_lookup c k : contents c !! k = value_ <$> map_ c !! k.
Proof. unfold contents. apply lookup_fmap. Qed.

Lemma contents_is_Some c k : is_Some (contents c !! k) ↔ is_Some (map_ c !! k).
Proof. rewrite contents_lookup. apply fmap_is_Some. Qed.

Lemma contents_None c k : contents c !! k = None ↔ map_ c !! k = None.
Proof. rewrite contents_lookup. apply fmap_None. Qed.

Lemma same_contents_map c c' k :
  contents c' = contents c → is_Some (map_ c !! k) → is_Some (map_ c' !! k).
Proof.
  intros Hc Hk. apply contents_is_Some. rewrite Hc. by apply contents_is_Some.
Qed.

Lemma same_contents_deref c c' x :
  contents c' = contents c → is_Some (deref c x) → is_Some (deref c' x).
Proof.
  intros Hc. destruct x as [| |k]; cbn; [done | by eauto |].
  by apply same_contents_map.
Qed.

Lemma set_link_Some d c p q :
  is_Some (deref c p) →
  ∃ c', set_link d c p q = Some c' ∧ relinked d p q c c'.
Proof.
  intros [n Hn]. unfold set_link. rewrite Hn. cbn.
  destruct p as [| |k]; cbn in Hn; [done| |].
  - injection Hn as <-. eexists. split; [reflexivity|].
    split; [|split; [done | by repeat split]].
    intros d' x. case_decide as Hd.
    + destruct Hd as [-> ->]. by destruct d.
    + destruct x as [| |k]; [done | | done].
      destruct d, d'; cbn; try done; exfalso; by apply Hd.
  - cbn. rewrite Hn. eexists. split; [reflexivity|].
    split; [|split; [| by repeat split]].
    + intros d' x. case_decide as Hd.
      * destruct Hd as [-> ->]. unfold links. cbn.
        rewrite lookup_insert_eq. by destruct d.
      * destruct x as [| |k']; [done | done |].
        unfold links. cbn. destruct (decide (k' = k)) as [-> | Hne].
        -- rewrite lookup_insert_eq, Hn. cbn.
           destruct d, d'; cbn; try done; exfalso; by apply Hd.
        -- by rewrite lookup_insert_ne.
    + unfold contents. cbn. rewrite fmap_insert.
      apply insert_id. rewrite lookup_fmap, Hn. by destruct d.
Qed.

Lemma head_ptr_deref c l :
  (∀ k, k ∈ l → is_Some (map_ c !! k)) →
  is_Some (deref c (head_ptr l sentinel_ptr)).
Proof.
  intros Hin. destruct l as [|k l]; cbn; [by eauto|].
  apply Hin. by left.
Qed.

Lemma last_ptr_deref c l :
  (∀ k, k ∈ l → is_Some (map_ c !! k)) →
  is_Some (deref c (last_ptr l sentinel_ptr)).
Proof.
  intros Hin. unfold last_ptr. apply head_ptr_deref.
  intros k Hk. by apply Hin, elem_of_reverse.
Qed.

Lemma head_ptr_ne l k q : k ∉ l → q ≠ entry_of k → head_ptr l q ≠ entry_of k.
Proof.
  intros Hk Hq. destruct l as [|k1 l]; cbn; [done|].
  intros [= ->]. apply Hk. by left.
Qed.

Lemma links_deref d c p n : deref c p = Some n → links d c p = Some (link d n).
Proof. unfold links. by intros ->. Qed.

(** ** The list operations on a well-formed ring *)

(** Which of the assignments made so far wrote the link that is read. *)
Ltac link_cases :=
  repeat case_decide; destruct_and?; simplify_eq; try done;
  exfalso; naive_solver.

Lemma NoDup_reverse (l : list Key) : NoDup l → NoDup (reverse l).
Proof. by rewrite reverse_Permutation. Qed.

Lemma reverse_middle (l1 l2 : list Key) k :
  reverse (l1 ++ k :: l2) = reverse l2 ++ k :: reverse l1.
Proof. by rewrite reverse_app, reverse_cons, <- app_assoc. Qed.

Lemma NoDup_middle (l1 l2 : list Key) k :
  NoDup (l1 ++ k :: l2) → NoDup (l1 ++ l2) ∧ k ∉ l1 ++ l2.
Proof.
  rewrite !NoDup_app, NoDup_cons. intros (H1 & H12 & Hk & H2).
  split.
  - split; [done|]. split; [|done].
    intros x Hx Hx2. apply (H12 x Hx). by right.
  - intros [Hk1 | Hk2]%elem_of_app; [|done].
    apply (H12 k Hk1). by left.
Qed.

Lemma insert_at_head_linked c l k :
  linked c l → k ∉ l → is_Some (map_ c !! k) →
  ∃ c', insert_at_head c (entry_of k) = Some c' ∧
        linked c' (k :: l) ∧ contents c' = contents c ∧ same_frame c c'.
Proof.
  intros (Hnd & Hin & HO & HN) Hk Hmk.
  assert (Hfront : older_ (sentinel_ c) = head_ptr l sentinel_ptr).
  { apply apath_head in HO. by injection HO. }
  unfold insert_at_head. rewrite Hfront.
  destruct (set_link_Some Older c (entry_of k) (head_ptr l sentinel_ptr))
    as (c1 & E1 & R1 & C1 & F1); [done|].
  destruct (set_link_Some Newer c1 (entry_of k) sentinel_ptr)
    as (c2 & E2 & R2 & C2 & F2); [by apply (same_contents_deref c)|].
  destruct (set_link_Some Newer c2 (head_ptr l sentinel_ptr) (entry_of k))
    as (c3 & E3 & R3 & C3 & F3).
  { apply (same_contents_deref c); [congruence|]. by apply head_ptr_deref. }
  destruct (set_link_Some Older c3 sentinel_ptr (entry_of k))
    as (c4 & E4 & R4 & C4 & F4); [by cbn; eauto|].
  unfold set_older, set_newer. rewrite E1. cbn. rewrite E2. cbn. rewrite E3. cbn.
  exists c4. split; [done|].
  assert (HC : contents c4 = contents c) by congruence.
  assert (Hne : head_ptr l sentinel_ptr ≠ entry_of k) by by apply head_ptr_ne.
  split; [|split; [done | eauto using same_frame_trans]].
  split; [|split; [|split]].
  - by apply NoDup_cons.
  - intros k' Hk'. apply (same_contents_map c); [done|].
    apply elem_of_cons in Hk' as [-> | Hk']; [done | by apply Hin].
  - apply (apath_cons (links Older c)); [apply sentinel_not_in_ptrs|done|done|done|].
    intros x. rewrite R4, R3, R2, R1.
    link_cases.
  - rewrite reverse_cons.
    apply (apath_snoc (links Newer c)).
    + by apply NoDup_reverse.
    + apply sentinel_not_in_ptrs.
    + done.
    + by rewrite elem_of_reverse.
    + done.
    + intros x. rewrite last_ptr_reverse. rewrite R4, R3, R2, R1.
      link_cases.
Qed.

Lemma extract_linked c l1 k l2 :
  linked c (l1 ++ k :: l2) →
  ∃ c', extract c (entry_of k) = Some c' ∧
        linked c' (l1 ++ l2) ∧ contents c' = contents c ∧ same_frame c c'.
Proof.
  intros (Hnd & Hin & HO & HN).
  destruct (Hin k) as [nd Hnd_k]; [apply elem_of_app; right; by left|].
  assert (Hold : older_ nd = head_ptr l2 sentinel_ptr).
  { apply apath_split in HO as [_ HO]. apply apath_head in HO.
    rewrite (links_deref _ _ _ nd) in HO by done. by injection HO. }
  assert (Hnew : newer_ nd = last_ptr l1 sentinel_ptr).
  { rewrite reverse_middle in HN. apply apath_split in HN as [_ HN].
    apply apath_head in HN.
    rewrite (links_deref _ _ _ nd) in HN by done. by injection HN. }
  assert (Hin1 : ∀ k', k' ∈ l1 → is_Some (map_ c !! k')).
  { intros k' Hk'. apply Hin, elem_of_app. by left. }
  assert (Hin2 : ∀ k', k' ∈ l2 → is_Some (map_ c !! k')).
  { intros k' Hk'. apply Hin, elem_of_app. right. by right. }
  unfold extract. cbn. rewrite Hnd_k. cbn. rewrite Hold, Hnew.
  destruct (set_link_Some Older c (last_ptr l1 sentinel_ptr) (head_ptr l2 sentinel_ptr))
    as (c1 & E1 & R1 & C1 & F1); [by apply last_ptr_deref|].
  destruct (set_link_Some Newer c1 (head_ptr l2 sentinel_ptr) (last_ptr l1 sentinel_ptr))
    as (c2 & E2 & R2 & C2 & F2).
  { apply (same_contents_deref c); [done|]. by apply head_ptr_deref. }
  unfold set_older, set_newer. rewrite E1. cbn. rewrite E2.
  exists c2. split; [done|].
  assert (HC : contents c2 = contents c) by congruence.
  destruct (NoDup_middle _ _ _ Hnd) as [Hnd' Hk].
  split; [|split; [done | eauto using same_frame_trans]].
  split; [|split; [|split]].
  - done.
  - intros k' Hk'. apply (same_contents_map c); [done|].
    apply elem_of_app in Hk' as [Hk' | Hk']; [by apply Hin1 | by apply Hin2].
  - apply (apath_remove (links Older c) _ _ _ k); [done|apply sentinel_not_in_ptrs|done|].
    intros x. rewrite R2, R1.
    link_cases.
  - rewrite reverse_app. rewrite reverse_middle in HN.
    apply (apath_remove (links Newer c) _ _ _ k); [|apply sentinel_not_in_ptrs|done|].
    + rewrite <- reverse_middle. by apply NoDup_reverse.
    + intros x. rewrite last_ptr_reverse. rewrite R2, R1.
      link_cases.
Qed.

Lemma linked_frame c c' l :
  linked c l →
  sentinel_ c' = sentinel_ c →
  (∀ k, k ∈ l → map_ c' !! k = map_ c !! k) →
  linked c' l.
Proof.
  intros (Hnd & Hin & HO & HN) Hs Hm.
  assert (Hlinks : ∀ d x, x = sentinel_ptr ∨ x ∈ ptrs l → links d c' x = links d c x).
  { intros d x [-> | Hx]; unfold links; cbn; [by rewrite Hs|].
    destruct x as [| |k]; cbn; [done | by rewrite Hs |].
    rewrite Hm; [done|]. by apply elem_of_ptrs. }
  split; [done|]. split; [|split].
  - intros k Hk. rewrite Hm by done. by apply Hin.
  - apply (apath_ext (links Older c)); [|done]. intros x Hx. by apply Hlinks.
  - apply (apath_ext (links Newer c)); [|done]. intros x [-> | Hx].
    + apply Hlinks. by left.
    + apply Hlinks. right. destruct x as [| |k].
      * unfold ptrs in Hx. apply list_elem_of_fmap in Hx as (? & ? & ?). done.
      * by apply sentinel_not_in_ptrs in Hx.
      * apply elem_of_ptrs. apply elem_of_ptrs in Hx. by apply elem_of_reverse.
Qed.

Lemma repr_elem c l k : repr c l → (k ∈ l ↔ is_Some (map_ c !! k)).
Proof. intros [(_ & Hin & _) Hsub]. split; [apply Hin | apply Hsub]. Qed.

Lemma repr_NoDup c l : repr c l → NoDup l.
Proof. by intros [(? & _) _]. Qed.

Lemma repr_size c l : repr c l → size c = length l.
Proof.
  intros Hr. unfold size. rewrite <- (size_dom (D := gset Key)).
  assert (Hdom : dom (map_ c) = list_to_set l).
  { apply set_eq. intros k. rewrite elem_of_dom, elem_of_list_to_set.
    symmetry. by apply repr_elem. }
  rewrite Hdom. apply size_list_to_set. by eapply repr_NoDup.
Qed.

Lemma repr_cbegin c l : repr c l → cbegin c = head_ptr l sentinel_ptr.
Proof.
  intros [(_ & _ & HO & _) _]. apply apath_head in HO.
  unfold cbegin. by injection HO.
Qed.

Lemma remove_repr c l1 k l2 :
  repr c (l1 ++ k :: l2) →
  ∃ c', remove c (Some k) = Some c' ∧
        repr c' (l1 ++ l2) ∧ contents c' = delete k (contents c) ∧ same_frame c c'.
Proof.
  intros [Hl Hsub].
  destruct (extract_linked _ _ _ _ Hl) as (c1 & E1 & Hl1 & C1 & F1).
  destruct Hl as (Hnd & _).
  destruct (NoDup_middle _ _ _ Hnd) as [_ Hk].
  unfold remove. rewrite E1. cbn. eexists. split; [reflexivity|].
  split; [split|split].
  - apply (linked_frame c1); [done | done |].
    intros k' Hk'. cbn. apply lookup_delete_ne. by intros ->.
  - cbn. intros k' [n Hn]. apply lookup_delete_Some in Hn as [Hne Hn].
    assert (Hin : k' ∈ l1 ++ k :: l2).
    { apply Hsub. apply contents_is_Some. rewrite <- C1.
      apply contents_is_Some. by eauto. }
    apply elem_of_app in Hin as [Hin | Hin]; apply elem_of_app; [by left|].
    apply elem_of_cons in Hin as [-> | Hin]; [done | by right].
  - unfold contents in *. cbn. by rewrite fmap_delete, C1.
  - destruct F1 as (? & ? & ?). by repeat split.
Qed.

Lemma touch_repr c l1 k l2 :
  repr c (l1 ++ k :: l2) →
  ∃ c', touch c (entry_of k) = Some c' ∧
        repr c' (k :: l1 ++ l2) ∧ contents c' = contents c ∧ same_frame c c'.
Proof.
  intros [Hl Hsub].
  destruct (extract_linked _ _ _ _ Hl) as (c1 & E1 & Hl1 & C1 & F1).
  destruct Hl as (Hnd & Hin & _).
  destruct (NoDup_middle _ _ _ Hnd) as [_ Hk].
  destruct (insert_at_head_linked c1 (l1 ++ l2) k) as (c2 & E2 & Hl2 & C2 & F2);
    [done | done | |].
  { apply (same_contents_map c); [done|]. apply Hin, elem_of_app. right. by left. }
  unfold touch. rewrite E1. cbn. exists c2. split; [done|].
  assert (HC : contents c2 = contents c) by congruence.
  split; [split|split]; [done | | done | eauto using same_frame_trans].
  intros k' Hk'.
  assert (Hin' : k' ∈ l1 ++ k :: l2).
  { apply Hsub. apply contents_is_Some. rewrite <- HC. by apply contents_is_Some. }
  apply elem_of_app in Hin' as [Hin' | Hin'].
  - right. apply elem_of_app. by left.
  - apply elem_of_cons in Hin' as [-> | Hin']; [by left|].
    right. apply elem_of_app. by right.
Qed.

Lemma evict_lru_repr c l k :
  repr c (l ++ [k]) →
  ∃ c', evict_lru c = Some c' ∧
        repr c' l ∧ contents c' = delete k (contents c) ∧ same_frame c c'.
Proof.
  intros Hr.
  assert (Hlru : newer_ (sentinel_ c) = entry_of k).
  { destruct Hr as [(_ & _ & _ & HN) _]. rewrite reverse_snoc in HN.
    apply apath_head in HN. by injection HN. }
  assert (Hk : is_Some (map_ c !! k)).
  { eapply repr_elem; [done|]. apply elem_of_app. right. by left. }
  destruct Hk as [n Hn].
  unfold evict_lru. rewrite Hlru. cbn. rewrite Hn. cbn.
  unfold map_find. rewrite Hn.
  destruct (remove_repr c l k []) as (c' & E & Hr' & C & F); [done|].
  rewrite app_nil_r in Hr'. by exists c'.
Qed.

Lemma enforce_limit_loop_repr n c l :
  repr c l → length l ≤ n →
  ∃ c', enforce_limit_loop n c = Some c' ∧
        repr c' (take (limit_ c) l) ∧
        (∀ k, k ∈ take (limit_ c) l → contents c' !! k = contents c !! k) ∧
        same_frame c c'.
Proof.
  revert c l. induction n as [|n IH]; intros c l Hr Hlen.
  - destruct l; [|cbn in Hlen; lia].
    cbn. rewrite (repr_size c []) by done. cbn.
    rewrite decide_False by lia. exists c.
    rewrite take_nil. split; [done|]. split; [done|].
    split; [done | apply same_frame_refl].
  - cbn. rewrite (repr_size c l) by done. case_decide as Hlim.
    + destruct l as [|k l _] using rev_ind; [cbn in Hlim; lia|].
      rewrite length_app in Hlim, Hlen. cbn in Hlim, Hlen.
      destruct (evict_lru_repr c l k Hr) as (c1 & E1 & Hr1 & C1 & F1).
      rewrite E1. cbn.
      destruct (IH c1 l Hr1) as (c' & E & Hr' & C & F); [lia|].
      assert (Hlimit : limit_ c1 = limit_ c) by apply F1.
      rewrite Hlimit in Hr', C.
      exists c'. split; [done|].
      rewrite take_app_le by lia.
      split; [done|]. split; [|eauto using same_frame_trans].
      intros k' Hk'. rewrite C by done. rewrite C1.
      apply lookup_delete_ne. intros ->.
      apply repr_NoDup in Hr. apply NoDup_app in Hr as (_ & Hd & _).
      apply (Hd k'); [|by left].
      apply elem_of_take in Hk' as (i & Hi & _).
      by eapply list_elem_of_lookup_2.
    + exists c. rewrite take_ge by lia. split; [done|]. split; [done|].
      split; [done | apply same_frame_refl].
Qed.

Lemma enforce_limit_repr c l :
  repr c l →
  ∃ c', enforce_limit c = Some c' ∧
        repr c' (take (limit_ c) l) ∧
        (∀ k, k ∈ take (limit_ c) l → contents c' !! k = contents c !! k) ∧
        same_frame c c'.
Proof.
  intros Hr. unfold enforce_limit.
  apply enforce_limit_loop_repr; [done|]. by rewrite (repr_size c l).
Qed.

Lemma add_entry_repr c l k v :
  repr c l → map_ c !! k = None →
  ∃ c', add_entry c k v = Some (c', entry_of k) ∧
        repr c' (take (limit_ c) (k :: l)) ∧
        (∀ k', k' ∈ take (limit_ c) (k :: l) →
               contents c' !! k' = <[k := v]> (contents c) !! k') ∧
        same_frame c c'.
Proof.
  intros Hr Hk.
  assert (Hkl : k ∉ l).
  { intros Hin. eapply repr_elem in Hin; [|done]. rewrite Hk in Hin.
    by destruct Hin. }
  destruct Hr as [Hl Hsub].
  set (c1 := with_map c (<[k := new_node v]> (map_ c))).
  assert (Hl1 : linked c1 l).
  { apply (linked_frame c); [done | done |].
    intros k' Hk'. cbn. apply lookup_insert_ne. by intros ->. }
  destruct (insert_at_head_linked c1 l k) as (c2 & E2 & Hl2 & C2 & F2); [done | done | |].
  { cbn. rewrite lookup_insert_eq. by eauto. }
  assert (HC1 : contents c1 = <[k := v]> (contents c)).
  { unfold contents, c1. cbn. by rewrite fmap_insert. }
  assert (Hr2 : repr c2 (k :: l)).
  { split; [done|]. intros k' Hk'.
    apply contents_is_Some in Hk'. rewrite C2, HC1 in Hk'.
    destruct (decide (k' = k)) as [-> | Hne]; [by left|].
    rewrite lookup_insert_ne in Hk' by done.
    right. by apply Hsub, contents_is_Some. }
  destruct (enforce_limit_repr c2 _ Hr2) as (c3 & E3 & Hr3 & C3 & F3).
  assert (Hlimit : limit_ c2 = limit_ c) by apply F2.
  rewrite Hlimit in Hr3, C3.
  unfold add_entry, map_emplace. rewrite Hk. fold c1. rewrite E2. cbn.
  rewrite E3. cbn. exists c3. split; [done|]. split; [done|]. split.
  - intros k' Hk'. rewrite C3 by done. by rewrite C2, HC1.
  - apply (same_frame_trans _ c2); [|done].
    destruct F2 as (? & ? & ?). by repeat split.
Qed.

Lemma new_cache_repr (limit : nat) : repr (new_cache (Key := Key) (T := T) limit) [].
Proof.
  split; [|by intros k [n Hn]].
  split; [constructor|]. split; [|by split].
  intros k Hk. by apply elem_of_nil in Hk.
Qed.

Lemma flush_repr c : repr (flush c) [] ∧ same_frame c (flush c).
Proof.
  split; [|by repeat split].
  split; [|by intros k [n Hn]].
  split; [constructor|]. split; [|by split].
  intros k Hk. by apply elem_of_nil in Hk.
Qed.

Lemma invalidate_repr c l k :
  repr c l →
  ∃ c' l', invalidate c k = Some c' ∧ repr c' l' ∧ length l' ≤ length l ∧
           contents c' = delete k (contents c) ∧ same_frame c c'.
Proof.
  intros Hr. unfold invalidate, map_find.
  destruct (map_ c !! k) as [n|] eqn:Hn.
  - assert (Hin : k ∈ l) by (eapply repr_elem; eauto).
    apply list_elem_of_split in Hin as (l1 & l2 & ->).
    destruct (remove_repr c l1 k l2 Hr) as (c' & E & Hr' & C & F).
    exists c', (l1 ++ l2). split; [done|]. split; [done|].
    split; [|done]. rewrite !length_app. cbn. lia.
  - exists c, l. split; [done|]. split; [done|]. split; [done|].
    split; [|apply same_frame_refl].
    symmetry. apply delete_id. by apply contents_None.
Qed.

(** ** Walking the list *)

Lemma walk_apath c n p l :
  apath (links Older c) p l sentinel_ptr → length l ≤ n →
  walk n c (head_ptr l sentinel_ptr) = Some (ptrs l).
Proof.
  revert n p. induction l as [|k l IH]; intros n p Hp Hlen.
  - destruct n; cbn; by rewrite decide_True.
  - destruct n as [|n]; [cbn in Hlen; lia|].
    destruct Hp as [_ Hl]. cbn [walk head_ptr].
    rewrite decide_False by done.
    pose proof (apath_head _ _ _ _ Hl) as Hk. unfold links in Hk.
    unfold next. destruct (deref c (entry_of k)) as [nd|]; [|done].
    cbn in Hk. injection Hk as Hk. cbn. rewrite Hk.
    rewrite (IH n (entry_of k)); [done | done | cbn in Hlen; lia].
Qed.

Lemma traversal_repr c l : repr c l → traversal c = Some (ptrs l).
Proof.
  intros Hr. unfold traversal.
  rewrite (repr_cbegin c l), (repr_size c l) by done.
  destruct Hr as [(_ & _ & HO & _) _]. by eapply walk_apath.
Qed.

Lemma check_linkage_linked c l k :
  linked c l → k ∈ l → check_linkage c (entry_of k) = Some true.
Proof.
  intros (Hnd & Hin & HO & HN) Hk.
  destruct (Hin k Hk) as [nd Hnd_k].
  apply list_elem_of_split in Hk as (l1 & l2 & ->).
  rewrite reverse_middle in HN.
  apply apath_split in HO as [HO1 HO2]. apply apath_split in HN as [HN1 HN2].
  pose proof (apath_head _ _ _ _ HO2) as Hold.
  pose proof (apath_head _ _ _ _ HN2) as Hnew.
  rewrite (links_deref _ _ _ nd) in Hold by done.
  rewrite (links_deref _ _ _ nd) in Hnew by done.
  injection Hold as Hold. injection Hnew as Hnew. cbn in Hold, Hnew.
  apply apath_last in HO1, HN1. rewrite last_ptr_reverse in HN1.
  unfold links in HO1, HN1.
  unfold check_linkage. cbn. rewrite Hnd_k. cbn. rewrite Hold, Hnew.
  fold (last_ptr l1 (@sentinel_ptr Key)).
  destruct (deref c (head_ptr l2 sentinel_ptr)) as [o|]; [|done].
  destruct (deref c (last_ptr l1 sentinel_ptr)) as [n|]; [|done].
  cbn in *. injection HO1 as HO1. injection HN1 as HN1.
  rewrite HN1, bool_decide_eq_true_2 by done. cbn.
  by rewrite HO1, bool_decide_eq_true_2.
Qed.

(** ** The invariant, piece by piece *)

Section invariant.

Implicit Types (w : world Key T) (r : reply_id) (v : option T) (e : error_code)
  (it : entry_ptr Key) (rs : list reply_id) (evs : list (event Key T)).

Lemma fetch_count_app k evs1 evs2 :
  fetch_count k (evs1 ++ evs2) = fetch_count k evs1 + fetch_count k evs2.
Proof. unfold fetch_count. by rewrite filter_app, length_app. Qed.

Lemma fetch_count_reply k r it e c : fetch_count k [reply_called r it e c] = 0.
Proof. reflexivity. Qed.

Lemma fetch_count_fetch k c : fetch_count k [fetch_called k c] = 1.
Proof.
  unfold fetch_count. rewrite filter_cons_True; [done|].
  cbn. by apply bool_decide_eq_true_2.
Qed.

Lemma fetch_count_fetch_ne k k' c : k' ≠ k → fetch_count k [fetch_called k' c] = 0.
Proof.
  intros Hne. unfold fetch_count. rewrite filter_cons_False; [done|].
  cbn. by rewrite bool_decide_eq_false_2.
Qed.

Lemma repr_ext c c' l :
  sentinel_ c' = sentinel_ c → map_ c' = map_ c → repr c l → repr c' l.
Proof.
  intros Hs Hm [Hl Hsub]. split.
  - apply (linked_frame c); [done | done |]. intros k _. by rewrite Hm.
  - intros k. rewrite Hm. apply Hsub.
Qed.

Lemma draining_frame c c' k : same_frame c c' → draining k c → draining k c'.
Proof. intros (_ & Hp & Hc) [Hk Hs]. split; by rewrite ?Hp, ?Hc. Qed.

Lemma coordinated_frame c c' :
  coordinated c → same_frame c c' →
  (∀ k, map_ c !! k = None → map_ c' !! k = None) →
  coordinated c'.
Proof.
  intros [Hp Hm] (_ & Ep & Ec) Hnone. split; intros k; rewrite Ec.
  - rewrite Ep. apply Hp.
  - intros Hk. by apply Hnone, Hm.
Qed.

Lemma same_contents_None c c' k :
  contents c' = contents c → map_ c !! k = None → map_ c' !! k = None.
Proof. intros Hc Hk. apply contents_None. rewrite Hc. by apply contents_None. Qed.

Lemma preserved_refl w : preserved w w.
Proof.
  intros Hi. split; [done|]. split; [done|].
  exists []. by rewrite app_nil_r.
Qed.

Lemma preserved_trans w1 w2 w3 : preserved w1 w2 → preserved w2 w3 → preserved w1 w3.
Proof.
  intros H12 H23 Hi.
  destruct (H12 Hi) as (Hi2 & Hl2 & evs2 & Hlog2 & Hd2).
  destruct (H23 Hi2) as (Hi3 & Hl3 & evs3 & Hlog3 & Hd3).
  split; [done|]. split; [congruence|].
  exists (evs2 ++ evs3). split; [by rewrite Hlog3, Hlog2, app_assoc|].
  intros k Hk. destruct (Hd2 k Hk) as [Hk2 Hc2]. destruct (Hd3 k Hk2) as [Hk3 Hc3].
  split; [done|]. by rewrite fetch_count_app, Hc2, Hc3.
Qed.

(** A step that logs nothing. *)
Lemma preserved_quiet w c1 :
  (inv (cache w) →
   inv c1 ∧ limit_ c1 = limit_ (cache w) ∧ ∀ k, draining k (cache w) → draining k c1) →
  preserved w (with_cache w c1).
Proof.
  intros Hstep Hi. destruct (Hstep Hi) as (Hi1 & Hl & Hd).
  split; [done|]. split; [done|]. exists []. cbn. split; [by rewrite app_nil_r|].
  intros k Hk. split; [by apply Hd | done].
Qed.

Lemma preserved_reply w r it e : preserved w (record w (reply_called r it e (cache w))).
Proof.
  intros Hi. split; [done|]. split; [done|]. eexists. split; [reflexivity|].
  intros k Hk. split; [done | apply fetch_count_reply].
Qed.

Lemma preserved_hit w k c1 :
  is_Some (map_ (cache w) !! k) →
  touch (cache w) (entry_of k) = Some c1 →
  preserved w (with_cache w c1).
Proof.
  intros Hk Ht. apply preserved_quiet. intros [(l & Hr & Hlen) Hco].
  assert (Hin : k ∈ l) by (by eapply repr_elem).
  apply list_elem_of_split in Hin as (l1 & l2 & ->).
  destruct (touch_repr _ _ _ _ Hr) as (c' & E & Hr' & C & F).
  assert (c' = c1) as -> by congruence.
  assert (Hlimit : limit_ c1 = limit_ (cache w)) by apply F.
  split; [split|split]; [| |done|].
  - exists (k :: l1 ++ l2). split; [done|]. rewrite Hlimit.
    rewrite length_app in Hlen. cbn in *. rewrite length_app. lia.
  - apply (coordinated_frame (cache w)); [done | done |].
    intros k'. by apply same_contents_None.
  - intros k'. by apply draining_frame.
Qed.

Lemma preserved_queue w k r :
  map_ (cache w) !! k = None →
  is_Some (pending_replies_ (cache w) !! k) →
  preserved w (with_cache w (push_back k r (cache w))).
Proof.
  intros Hk Hp. apply preserved_quiet. intros [(l & Hr & Hlen) [Hcp Hcm]].
  split; [split|split]; [| |done|].
  - exists l. split; [|done]. by apply (repr_ext (cache w)).
  - split; [|done]. intros k' Hk'. cbn. apply lookup_alter_is_Some. by apply Hcp.
  - intros k' [Hk1 Hk2]. split; [done|]. cbn. by apply lookup_alter_is_Some.
Qed.

Lemma miss_pending c k r :
  pending_replies_ c !! k = None →
  pending_replies_ (issue k (push_back k r (pending_emplace k c))) =
  <[k := [r]]> (pending_replies_ c).
Proof.
  intros Hp. unfold pending_emplace. rewrite Hp. cbn. by rewrite alter_insert_eq.
Qed.

Lemma preserved_miss w k r :
  map_ (cache w) !! k = None →
  pending_replies_ (cache w) !! k = None →
  let w1 := with_cache w (issue k (push_back k r (pending_emplace k (cache w)))) in
  preserved w (record w1 (fetch_called k (cache w1))).
Proof.
  intros Hk Hp w1 [(l & Hr & Hlen) [Hcp Hcm]].
  assert (Hpend : pending_replies_ (cache w1) = <[k := [r]]> (pending_replies_ (cache w)))
    by by apply miss_pending.
  assert (Hmap : map_ (cache w1) = map_ (cache w)).
  { unfold w1, pending_emplace. by rewrite Hp. }
  assert (Hsen : sentinel_ (cache w1) = sentinel_ (cache w)).
  { unfold w1, pending_emplace. by rewrite Hp. }
  assert (Hlim : limit_ (cache w1) = limit_ (cache w)).
  { unfold w1, pending_emplace. by rewrite Hp. }
  assert (Hcom : completions_ (cache w1) = {[k]} ∪ completions_ (cache w)).
  { unfold w1, pending_emplace. by rewrite Hp. }
  assert (Hlog : log w1 = log w) by done.
  clearbody w1. cbn [record cache log]. rewrite Hlog.
  split; [split|split]; [| |done|].
  - exists l. split; [by apply (repr_ext (cache w)) | by rewrite Hlim].
  - split; intros k'; rewrite Hcom, ?Hpend, ?Hmap;
      intros [->%elem_of_singleton | Hk']%elem_of_union.
    + rewrite lookup_insert_eq. by eauto.
    + destruct (decide (k' = k)) as [-> | Hne].
      * rewrite lookup_insert_eq. by eauto.
      * rewrite lookup_insert_ne by done. by apply Hcp.
    + done.
    + by apply Hcm.
  - eexists. split; [reflexivity|]. intros k' [Hk1 Hk2].
    assert (Hne : k ≠ k').
    { intros ->. rewrite Hp in Hk2. by destruct Hk2. }
    split; [split|].
    + rewrite Hcom. set_solver.
    + rewrite Hpend. by rewrite lookup_insert_ne.
    + by apply fetch_count_fetch_ne.
Qed.

Lemma preserved_invalidate w k c1 :
  invalidate (cache w) k = Some c1 → preserved w (with_cache w c1).
Proof.
  intros Hi. apply preserved_quiet. intros [(l & Hr & Hlen) Hco].
  destruct (invalidate_repr _ _ k Hr) as (c' & l' & E & Hr' & Hlen' & C & F).
  assert (c' = c1) as -> by congruence.
  assert (Hlimit : limit_ c1 = limit_ (cache w)) by apply F.
  split; [split|split]; [| |done|].
  - exists l'. split; [done|]. lia.
  - apply (coordinated_frame (cache w)); [done | done |].
    intros k' Hk'. apply contents_None. rewrite C.
    apply lookup_delete_None. right. by apply contents_None.
  - intros k'. by apply draining_frame.
Qed.

Lemma preserved_flush w : preserved w (with_cache w (flush (cache w))).
Proof.
  apply preserved_quiet. intros [(l & Hr & Hlen) Hco].
  destruct (flush_repr (cache w)) as [Hr' F].
  split; [split|split]; [| |done|].
  - exists []. split; [done|]. cbn. lia.
  - by apply (coordinated_frame (cache w)).
  - intros k'. by apply draining_frame.
Qed.

(** What [store_result] returns on a cache that satisfies the invariant,
    once the lambda of [k] is used up. *)
Lemma store_result_inv c l k v :
  repr c l → coordinated c → k ∈ completions_ c →
  ∃ c1, store_result (consume k c) k v =
          Some (c1, result_cursor k v) ∧
        repr c1 (if v is Some _ then take (limit_ c) (k :: l) else l) ∧
        (∀ k', k' ∈ (if v is Some _ then take (limit_ c) (k :: l) else l) →
               contents c1 !! k' =
               (if v is Some _ then <[k := v]> (contents c) else contents c) !! k') ∧
        same_frame (consume k c) c1 ∧
        coordinated c1.
Proof.
  intros Hr [Hcp Hcm] Hk.
  assert (Hr0 : repr (consume k c) l) by by apply (repr_ext c).
  assert (Hco0 : coordinated (consume k c)).
  { split; intros k' Hk'; cbn in *; [apply Hcp | apply Hcm]; set_solver. }
  destruct v as [x|]; cbn [store_result].
  - destruct (add_entry_repr (consume k c) l k (Some x) Hr0) as (c1 & E & Hr1 & C & F).
    { cbn. by apply Hcm. }
    exists c1. split; [done|]. split; [done|]. split; [done|]. split; [done|].
    destruct Hco0 as [Hcp0 Hcm0]. destruct F as (Fl & Fp & Fc).
    split; intros k' Hk'; rewrite Fc in Hk'.
    + rewrite Fp. by apply Hcp0.
    + destruct (map_ c1 !! k') as [n|] eqn:Hn; [|done]. exfalso.
      assert (Hin : k' ∈ take (limit_ (consume k c)) (k :: l)).
      { eapply repr_elem; [done|]. by eauto. }
      pose proof (C k' Hin) as Hc. rewrite contents_lookup, Hn in Hc.
      assert (Hne : k ≠ k') by (cbn in Hk'; set_solver).
      rewrite lookup_insert_ne in Hc by done.
      rewrite contents_lookup, (Hcm0 k' Hk') in Hc. done.
  - exists (consume k c). split; [done|]. split; [done|]. split; [done|].
    split; [apply same_frame_refl | done].
Qed.

Lemma preserved_complete w k v c1 it w2 :
  k ∈ completions_ (cache w) →
  store_result (consume k (cache w)) k v = Some (c1, it) →
  is_Some (pending_replies_ c1 !! k) →
  preserved (with_cache w c1) w2 →
  preserved w (with_cache w2 (pending_erase k (cache w2))).
Proof.
  intros Hk Hs Hp Hdrain [(l & Hr & Hlen) Hco].
  destruct (store_result_inv _ _ k v Hr Hco Hk) as (c' & E & Hr1 & _ & F & Hco1).
  assert (c' = c1) as -> by congruence.
  destruct F as (Fl & Fp & Fc). cbn in Fl, Fp, Fc.
  assert (Hi1 : inv (cache (with_cache w c1))).
  { split; [|done]. eexists. split; [done|]. cbn. rewrite Fl.
    destruct v; [|done]. rewrite length_take. lia. }
  assert (Hd1 : draining k c1).
  { split; [|done]. rewrite Fc. set_solver. }
  destruct (Hdrain Hi1) as ([(l2 & Hr2 & Hlen2) [Hcp2 Hcm2]] & Hl2 & evs & Hlog & Hd).
  cbn in Hl2, Hlog.
  destruct (Hd k Hd1) as [[Hk2 _] _].
  split; [split|split].
  - exists l2. split; [by apply (repr_ext (cache w2)) | done].
  - split; intros k' Hk'; cbn in *; [|by apply Hcm2].
    rewrite lookup_delete_ne; [by apply Hcp2 | by intros ->].
  - cbn. congruence.
  - exists evs. split; [done|]. intros k' [Hk1' Hk2'].
    assert (Hne : k ≠ k') by by intros ->.
    destruct (Hd k') as [[Hk3 Hk4] Hc].
    { split; cbn; [rewrite Fc; set_solver | by rewrite Fp]. }
    split; [split|done]; cbn; [done|]. by rewrite lookup_delete_ne.
Qed.

Lemma inv_new_cache (limit : nat) : inv (new_cache (Key := Key) (T := T) limit).
Proof.
  split.
  - exists []. split; [apply new_cache_repr | cbn; lia].
  - split; intros k Hk; cbn in Hk; set_solver.
Qed.

Lemma store_result_draining c k v c1 it :
  inv c → k ∈ completions_ c →
  store_result (consume k c) k v = Some (c1, it) →
  inv c1 ∧ draining k c1 ∧ limit_ c1 = limit_ c ∧
  pending_replies_ c1 = pending_replies_ c.
Proof.
  intros [(l & Hr & Hlen) Hco] Hk Hs.
  destruct (store_result_inv _ _ k v Hr Hco Hk) as (c' & E & Hr1 & _ & F & Hco1).
  assert (c' = c1) as -> by congruence.
  destruct F as (Fl & Fp & Fc). cbn in Fl, Fp, Fc.
  split; [|split; [|done]].
  - split; [|done]. eexists. split; [done|]. rewrite Fl.
    destruct v; [|done]. rewrite length_take. lia.
  - destruct Hco as [Hcp _].
    split; [rewrite Fc; set_solver | rewrite Fp; by apply Hcp].
Qed.

Lemma done_inj w w' : done w = done w' → w = w'.
Proof. by intros [= ->]. Qed.

Lemma with_cache_id w : with_cache w (cache w) = w.
Proof. by destruct w. Qed.

Lemma with_pending_id c : with_pending c (pending_replies_ c) = c.
Proof. by destruct c. Qed.

Lemma push_back_insert c k r rs :
  pending_replies_ c !! k = Some rs →
  push_back k r c = with_pending c (<[k := rs ++ [r]]> (pending_replies_ c)).
Proof.
  intros Hp. unfold push_back. f_equal. apply map_eq. intros k'.
  destruct (decide (k' = k)) as [-> | Hne].
  - by rewrite lookup_alter_eq, lookup_insert_eq, Hp.
  - by rewrite lookup_alter_ne, lookup_insert_ne.
Qed.

Lemma inv_intro c l :
  repr c l → length l ≤ limit_ c → coordinated c → inv c.
Proof. intros Hr Hlen Hco. split; [by exists l | done]. Qed.

Lemma flushed_or_invalidated_inv c c' :
  inv c → flushed_or_invalidated c c' → inv c' ∧ same_frame c c'.
Proof.
  intros Hi [-> | [k' Hinv]].
  - split; [|apply flush_repr].
    apply (preserved_flush {| cache := c; log := [] |} Hi).
  - split.
    + apply (preserved_invalidate {| cache := c; log := [] |} k' c' Hinv Hi).
    + destruct Hi as [(l & Hr & _) _].
      destruct (invalidate_repr _ _ k' Hr) as (c'' & l' & E & _ & _ & _ & F).
      congruence.
Qed.

End invariant.

(** * Calls and callbacks *)

Section callbacks.

Context (miss_handler : Key → world Key T → prog Key T).
Context (on_reply : reply_id → entry_ptr Key → error_code → world Key T → prog Key T).

Implicit Types (w : world Key T) (r : reply_id) (v : option T) (e : error_code)
  (it : entry_ptr Key) (rs : list reply_id) (ex : call Key T → world Key T → outcome Key T).

(** ** A rule for every property of a call and all it calls back

    [Q] relates the world before with the world after.  It holds of
    [exec] when it holds of each piece of straight-line code between two
    callbacks; for the completion lambda, [Q] of the loop over the waiters
    is given. *)

Section rule.

Variable Q : world Key T → world Key T → Prop.

Hypothesis Q_refl : ∀ w, Q w w.
Hypothesis Q_trans : ∀ w1 w2 w3, Q w1 w2 → Q w2 w3 → Q w1 w3.
Hypothesis Q_reply : ∀ w r it e, Q w (record w (reply_called r it e (cache w))).
Hypothesis Q_hit : ∀ w k c1,
  is_Some (map_ (cache w) !! k) →
  touch (cache w) (entry_of k) = Some c1 →
  Q w (with_cache w c1).
Hypothesis Q_queue : ∀ w k r,
  map_ (cache w) !! k = None →
  is_Some (pending_replies_ (cache w) !! k) →
  Q w (with_cache w (push_back k r (cache w))).
Hypothesis Q_miss : ∀ w k r,
  map_ (cache w) !! k = None →
  pending_replies_ (cache w) !! k = None →
  let w1 := with_cache w (issue k (push_back k r (pending_emplace k (cache w)))) in
  Q w (record w1 (fetch_called k (cache w1))).
Hypothesis Q_invalidate : ∀ w k c1,
  invalidate (cache w) k = Some c1 → Q w (with_cache w c1).
Hypothesis Q_flush : ∀ w, Q w (with_cache w (flush (cache w))).
Hypothesis Q_complete : ∀ w k v c1 it w2,
  k ∈ completions_ (cache w) →
  store_result (consume k (cache w)) k v = Some (c1, it) →
  is_Some (pending_replies_ c1 !! k) →
  Q (with_cache w c1) w2 →
  Q w (with_cache w2 (pending_erase k (cache w2))).

Section nested.

Variable ex : call Key T → world Key T → outcome Key T.
Hypothesis Q_ex : ∀ (cl : call Key T) w w', ex cl w = done w' → Q w w'.

Lemma run_rule (p : prog Key T) w w' : run ex p w = done w' → Q w w'.
Proof.
  revert w. induction p as [|c rest IH]; intros w; cbn.
  - intros [= ->]. apply Q_refl.
  - destruct (ex c w) as [w1| |] eqn:E; try done.
    intros Hrun. eapply Q_trans; [by eapply Q_ex | by eapply IH].
Qed.

Lemma invoke_reply_rule r it e w w' :
  invoke_reply on_reply ex r it e w = done w' → Q w w'.
Proof.
  unfold invoke_reply. intros Hrun.
  eapply Q_trans; [apply Q_reply | by eapply run_rule].
Qed.

Lemma drain_loop_rule k rs0 rs it e w w' :
  drain_loop on_reply ex k rs0 rs it e w = done w' → Q w w'.
Proof.
  revert w. induction rs as [|r rs IH]; intros w; cbn [drain_loop].
  - intros [= ->]. apply Q_refl.
  - destruct (invoke_reply on_reply ex r it e w) as [w1| |] eqn:E; try done.
    destruct (iterators_valid k rs0 (cache w1)); [|done].
    intros Hrun. eapply Q_trans; [by eapply invoke_reply_rule | by eapply IH].
Qed.

Lemma drain_rule k rs it e w w' :
  drain on_reply ex k rs it e w = done w' → Q w w'.
Proof. apply drain_loop_rule. Qed.

Lemma get_rule k r w w' :
  get miss_handler on_reply ex k r w = done w' → Q w w'.
Proof.
  unfold get, map_find.
  destruct (map_ (cache w) !! k) as [n|] eqn:Hk.
  - destruct (touch (cache w) (entry_of k)) as [c1|] eqn:Ht; [|done].
    intros Hrun. eapply Q_trans; [eapply Q_hit; by eauto|].
    by eapply invoke_reply_rule.
  - destruct (pending_replies_ (cache w) !! k) as [rs|] eqn:Hp.
    + intros [= <-]. apply Q_queue; by eauto.
    + unfold invoke_miss_handler. intros Hrun.
      eapply Q_trans; [by apply (Q_miss w k r)|]. by eapply run_rule.
Qed.

Lemma complete_rule k v e w w' :
  complete on_reply ex k v e w = done w' → Q w w'.
Proof.
  unfold complete. case_decide as Hk; [|done].
  destruct (store_result (consume k (cache w)) k v) as [[c1 it]|] eqn:Hs; [|done].
  destruct (pending_replies_ c1 !! k) as [rs|] eqn:Hp; [|done].
  destruct (drain on_reply ex k rs it e (with_cache w c1)) as [w2| |] eqn:Hd; try done.
  intros [= <-]. eapply Q_complete; [done | done | by eauto |].
  by eapply drain_rule.
Qed.

End nested.

Lemma exec_rule n (c : call Key T) w w' :
  exec miss_handler on_reply n c w = done w' → Q w w'.
Proof.
  revert c w w'. induction n as [|n IH]; intros c w w'; [done|].
  destruct c as [k r|k|k| |k v e]; cbn.
  - by apply get_rule.
  - intros [= <-]. apply Q_refl.
  - destruct (invalidate (cache w) k) as [c1|] eqn:Hi; [|done].
    intros [= <-]. by eapply Q_invalidate.
  - intros [= <-]. apply Q_flush.
  - by apply complete_rule.
Qed.

Lemma run_main_rule n (p : prog Key T) w w' :
  run_main miss_handler on_reply n p w = done w' → Q w w'.
Proof. apply run_rule. intros c. apply exec_rule. Qed.

End rule.

(** ** The invariant across calls *)

Lemma exec_preserved n (cl : call Key T) w w' :
  exec miss_handler on_reply n cl w = done w' → preserved w w'.
Proof.
  apply exec_rule.
  - apply preserved_refl.
  - apply preserved_trans.
  - apply preserved_reply.
  - apply preserved_hit.
  - apply preserved_queue.
  - apply preserved_miss.
  - apply preserved_invalidate.
  - apply preserved_flush.
  - apply preserved_complete.
Qed.

Lemma run_main_preserved n (p : prog Key T) w w' :
  run_main miss_handler on_reply n p w = done w' → preserved w w'.
Proof.
  apply run_rule; [apply preserved_refl | apply preserved_trans |].
  intros cl. apply exec_preserved.
Qed.

Lemma drain_preserved n k rs it e w w' :
  drain on_reply (exec miss_handler on_reply n) k rs it e w = done w' → preserved w w'.
Proof.
  apply drain_rule;
    [apply preserved_refl | apply preserved_trans | apply preserved_reply |].
  intros cl. apply exec_preserved.
Qed.

(** ** The loop over the waiters *)

Lemma fifo_replies_mono (P P' : lru_cache Key T → Prop) it e rs evs :
  (∀ c, P c → P' c) → fifo_replies P it e rs evs → fifo_replies P' it e rs evs.
Proof.
  intros HP. revert evs. induction rs as [|r rs IH]; intros evs; cbn; [done|].
  intros (seen & nested & evs' & -> & Hseen & Hrest).
  exists seen, nested, evs'. split; [done|]. split; [by apply HP | by apply IH].
Qed.

Lemma drain_loop_fifo ex (P : lru_cache Key T → Prop) k rs0 rs it e w w' :
  (∀ (cl : call Key T) w w', ex cl w = done w' →
        P (cache w) → P (cache w') ∧ ∃ evs, log w' = log w ++ evs) →
  P (cache w) →
  drain_loop on_reply ex k rs0 rs it e w = done w' →
  P (cache w') ∧ ∃ evs, log w' = log w ++ evs ∧ fifo_replies P it e rs evs.
Proof.
  intros Hex.
  assert (Hrun : ∀ (p : prog Key T) w w', run ex p w = done w' →
            P (cache w) → P (cache w') ∧ ∃ evs, log w' = log w ++ evs).
  { intros p w0 w0'.
    apply (run_rule (λ w w', P (cache w) → P (cache w') ∧ ∃ evs, log w' = log w ++ evs)).
    - intros w1 HP1. split; [done|]. exists []. by rewrite app_nil_r.
    - intros w1 w2 w3 H12 H23 HP1.
      destruct (H12 HP1) as (HP2 & evs2 & Hlog2).
      destruct (H23 HP2) as (HP3 & evs3 & Hlog3).
      split; [done|]. exists (evs2 ++ evs3). by rewrite Hlog3, Hlog2, app_assoc.
    - done. }
  revert w. induction rs as [|r rs IH]; intros w HP; cbn.
  - intros [= <-]. split; [done|]. exists []. by rewrite app_nil_r.
  - destruct (invoke_reply on_reply ex r it e w) as [w1| |] eqn:E; try done.
    destruct (iterators_valid k rs0 (cache w1)); [|done].
    intros Hrest. unfold invoke_reply in E.
    destruct (Hrun _ _ _ E HP) as (HP1 & nested & Hlog1). cbn in Hlog1.
    destruct (IH w1 HP1 Hrest) as (HP' & evs' & Hlog' & Hfifo).
    split; [done|]. exists (reply_called r it e (cache w) :: nested ++ evs').
    split.
    + rewrite Hlog', Hlog1. by rewrite <- !app_assoc.
    + exists (cache w), nested, evs'. done.
Qed.

Lemma drain_fifo ex (P : lru_cache Key T → Prop) k rs it e w w' :
  (∀ (cl : call Key T) w w', ex cl w = done w' →
        P (cache w) → P (cache w') ∧ ∃ evs, log w' = log w ++ evs) →
  P (cache w) →
  drain on_reply ex k rs it e w = done w' →
  P (cache w') ∧ ∃ evs, log w' = log w ++ evs ∧ fifo_replies P it e rs evs.
Proof. apply drain_loop_fifo. Qed.

Lemma drain_loop_silent ex k rs0 rs it e w :
  pending_replies_ (cache w) !! k = Some rs0 →
  (∀ r, r ∈ rs → silent on_reply r) →
  drain_loop on_reply ex k rs0 rs it e w =
  done {| cache := cache w; log := log w ++ replies_to rs it e (cache w) |}.
Proof.
  revert w. induction rs as [|r rs IH]; intros w Hp Hs; cbn [drain_loop].
  - cbn. rewrite app_nil_r. by destruct w.
  - unfold invoke_reply. rewrite (Hs r) by by left. cbn [run record cache].
    unfold iterators_valid. rewrite bool_decide_eq_true_2 by done.
    rewrite IH; [|done|intros r' Hr'; apply Hs; by right].
    cbn. by rewrite <- app_assoc.
Qed.

Lemma drain_silent ex k rs it e w :
  pending_replies_ (cache w) !! k = Some rs →
  (∀ r, r ∈ rs → silent on_reply r) →
  drain on_reply ex k rs it e w =
  done {| cache := cache w; log := log w ++ replies_to rs it e (cache w) |}.
Proof. apply drain_loop_silent. Qed.

(** ** The three branches of [get] and the completion lambda, unfolded *)

Lemma get_hit n k r w c1 :
  is_Some (map_ (cache w) !! k) →
  touch (cache w) (entry_of k) = Some c1 →
  exec miss_handler on_reply (S n) (call_get k r) w =
  invoke_reply on_reply (exec miss_handler on_reply n) r (entry_of k) no_error
    (with_cache w c1).
Proof.
  intros [nd Hk] Ht. cbn. unfold get, map_find. by rewrite Hk, Ht.
Qed.

Lemma get_queued n k r w :
  map_ (cache w) !! k = None →
  is_Some (pending_replies_ (cache w) !! k) →
  exec miss_handler on_reply (S n) (call_get k r) w =
  done (with_cache w (push_back k r (cache w))).
Proof.
  intros Hk [rs Hp]. cbn. unfold get, map_find. by rewrite Hk, Hp.
Qed.

Lemma get_fresh n k r w :
  map_ (cache w) !! k = None →
  pending_replies_ (cache w) !! k = None →
  exec miss_handler on_reply (S n) (call_get k r) w =
  invoke_miss_handler miss_handler (exec miss_handler on_reply n) k
    (with_cache w (issue k (push_back k r (pending_emplace k (cache w))))).
Proof.
  intros Hk Hp. cbn. unfold get, map_find. by rewrite Hk, Hp.
Qed.

Lemma complete_unfold n k v e w c1 rs :
  k ∈ completions_ (cache w) →
  store_result (consume k (cache w)) k v = Some (c1, result_cursor k v) →
  pending_replies_ c1 !! k = Some rs →
  exec miss_handler on_reply (S n) (call_complete k v e) w =
  match drain on_reply (exec miss_handler on_reply n) k rs (result_cursor k v) e
          (with_cache w c1) with
  | done w2 => done (with_cache w2 (pending_erase k (cache w2)))
  | o => o
  end.
Proof.
  intros Hk Hs Hp. cbn. unfold complete. rewrite decide_True by done.
  by rewrite Hs, Hp.
Qed.

(** The completion of [k], whatever the waiters do: they are called in
    the order of the wait list, all with the same cursor and error, each on
    a cache where the wait list of [k] is still registered; the fetch
    function is not called for [k]; the wait list is gone at the end. *)
Lemma complete_fifo n k v e w w' rs :
  inv (cache w) →
  pending_replies_ (cache w) !! k = Some rs →
  exec miss_handler on_reply n (call_complete k v e) w = done w' →
  ∃ evs, log w' = log w ++ evs ∧
         fifo_replies (λ seen, inv seen ∧ draining k seen) (result_cursor k v) e rs evs ∧
         fetch_count k evs = 0 ∧
         inv (cache w') ∧
         pending_replies_ (cache w') !! k = None.
Proof.
  intros Hi Hp Hex.
  assert (Hi' : inv (cache w')) by by apply (exec_preserved _ _ _ _ Hex).
  destruct n as [|n]; [done|]. cbn in Hex. unfold complete in Hex.
  case_decide as Hk; [|done].
  destruct Hi as [(l & Hr & Hlen) Hco].
  destruct (store_result_inv _ _ k v Hr Hco Hk) as (c1 & E & Hr1 & _ & F & Hco1).
  rewrite E in Hex. destruct F as (Fl & Fp & Fc). cbn in Fl, Fp, Fc.
  rewrite Fp, Hp in Hex.
  destruct (drain _ _ _ _ _ _ _) as [w2| |] eqn:Hd; try done.
  injection Hex as <-.
  assert (Hi1 : inv c1).
  { split; [|done]. eexists. split; [done|]. rewrite Fl.
    destruct v; [|done]. rewrite length_take. lia. }
  assert (Hd1 : draining k c1).
  { split; [rewrite Fc; set_solver | rewrite Fp; by eauto]. }
  assert (Hstep : ∀ (cl : call Key T) w0 w0',
            exec miss_handler on_reply n cl w0 = done w0' →
            inv (cache w0) ∧ draining k (cache w0) →
            (inv (cache w0') ∧ draining k (cache w0')) ∧
            ∃ evs, log w0' = log w0 ++ evs).
  { intros cl w0 w0' Hcl [Hi0 Hd0].
    destruct (exec_preserved _ _ _ _ Hcl Hi0) as (? & _ & evs0 & ? & Hdr).
    split; [split; [done | by apply Hdr]|]. by exists evs0. }
  destruct (drain_fifo _ (λ seen, inv seen ∧ draining k seen) _ _ _ _
              (with_cache w c1) _ Hstep (conj Hi1 Hd1) Hd)
    as (_ & evs & Hlog & Hfifo).
  destruct (drain_preserved _ _ _ _ _ _ _ Hd Hi1) as (_ & _ & evs' & Hlog' & Hdr).
  assert (evs' = evs) as ->.
  { apply (app_inv_head (log (with_cache w c1))). by rewrite <- Hlog, <- Hlog'. }
  exists evs. cbn in Hlog. split; [done|]. split; [done|].
  split; [by apply Hdr|]. split; [done|]. cbn. apply lookup_delete_eq.
Qed.

(** The same completion when no waiter calls back. *)
Lemma complete_silent k v e w rs :
  inv (cache w) →
  k ∈ completions_ (cache w) →
  pending_replies_ (cache w) !! k = Some rs →
  (∀ r, r ∈ rs → silent on_reply r) →
  ∃ c1, store_result (consume k (cache w)) k v = Some (c1, result_cursor k v) ∧
        ∀ n, exec miss_handler on_reply (S n) (call_complete k v e) w =
             done {| cache := pending_erase k c1;
                     log := log w ++ replies_to rs (result_cursor k v) e c1 |}.
Proof.
  intros [(l & Hr & Hlen) Hco] Hk Hp Hs.
  destruct (store_result_inv _ _ k v Hr Hco Hk) as (c1 & E & _ & _ & F & _).
  assert (Hp1 : pending_replies_ c1 !! k = Some rs).
  { destruct F as (_ & -> & _). done. }
  exists c1. split; [done|]. intros n.
  rewrite (complete_unfold n k v e w c1 rs) by done.
  by rewrite drain_silent.
Qed.

(** Further [get]s of a key that is being fetched only grow its wait
    list. *)
Lemma gets_queued n k rs w rs0 :
  map_ (cache w) !! k = None →
  pending_replies_ (cache w) !! k = Some rs0 →
  run_main miss_handler on_reply (S n) (gets k rs) w =
  done (with_cache w
          (with_pending (cache w) (<[k := rs0 ++ rs]> (pending_replies_ (cache w))))).
Proof.
  revert w rs0. induction rs as [|r rs IH]; intros w rs0 Hk Hp.
  - cbn. rewrite app_nil_r, insert_id by done.
    by rewrite with_pending_id, with_cache_id.
  - unfold run_main in *. cbn [gets run].
    rewrite get_queued by (by eauto).
    rewrite (push_back_insert _ _ _ rs0) by done.
    rewrite (IH _ (rs0 ++ [r])); cbn; [|done|by rewrite lookup_insert_eq].
    unfold with_cache, with_pending. cbn.
    by rewrite insert_insert_eq, <- app_assoc.
Qed.

(** What the completion lambda does, step by step. *)
Lemma complete_sound w k v e rs :
  inv (cache w) →
  k ∈ completions_ (cache w) →
  pending_replies_ (cache w) !! k = Some rs →
  ∃ c1,
    store_result (consume k (cache w)) k v = Some (c1, result_cursor k v) ∧
    (∀ t : T, v = Some t → 0 < limit_ (cache w) →
          cbegin c1 = entry_of k ∧ contents c1 !! k = Some (Some t)) ∧
    pending_replies_ c1 !! k = Some rs ∧
    (∀ n, exec miss_handler on_reply (S n) (call_complete k v e) w =
          match drain on_reply (exec miss_handler on_reply n) k rs (result_cursor k v) e
                  (with_cache w c1) with
          | done w2 => done (with_cache w2 (pending_erase k (cache w2)))
          | o => o
          end) ∧
    (∀ n w',
       exec miss_handler on_reply n (call_complete k v e) w = done w' →
       ∃ evs, log w' = log w ++ evs ∧
              fifo_replies (λ seen, is_Some (pending_replies_ seen !! k))
                (result_cursor k v) e rs evs ∧
              pending_replies_ (cache w') !! k = None).
Proof.
  intros Hi Hk Hp. pose proof Hi as [(l & Hr & Hlen) Hco].
  destruct (store_result_inv _ _ k v Hr Hco Hk) as (c1 & E & Hr1 & C & F & _).
  assert (Hp1 : pending_replies_ c1 !! k = Some rs).
  { destruct F as (_ & -> & _). done. }
  exists c1. split; [done|]. split; [|split; [done|split]].
  - intros t -> Hlim.
    destruct (limit_ (cache w)) as [|m] eqn:Hm; [lia|].
    rewrite firstn_cons in Hr1, C. split.
    + by rewrite (repr_cbegin _ _ Hr1).
    + rewrite C by by left. by rewrite lookup_insert_eq.
  - intros n. by apply complete_unfold.
  - intros n w' Hex.
    destruct (complete_fifo _ _ _ _ _ _ _ Hi Hp Hex) as (evs & Hlog & Hfifo & _ & _ & Hgone).
    exists evs. split; [done|]. split; [|done].
    eapply fifo_replies_mono; [|done]. by intros c [_ [_ ?]].
Qed.

(** The completion of [k] with a value, when no waiter calls back. *)
Lemma complete_value_silent w l k (t : T) e rs :
  repr (cache w) l → coordinated (cache w) →
  k ∈ completions_ (cache w) →
  pending_replies_ (cache w) !! k = Some rs →
  (∀ r, r ∈ rs → silent on_reply r) →
  ∃ c1, (∀ n, exec miss_handler on_reply (S n) (call_complete k (Some t) e) w =
              done {| cache := pending_erase k c1;
                      log := log w ++ replies_to rs (entry_of k) e c1 |}) ∧
        repr c1 (take (limit_ (cache w)) (k :: l)) ∧
        limit_ c1 = limit_ (cache w) ∧
        pending_replies_ c1 = pending_replies_ (cache w) ∧
        completions_ c1 = completions_ (cache w) ∖ {[k]}.
Proof.
  intros Hr Hco Hk Hp Hs.
  destruct (store_result_inv _ _ k (Some t) Hr Hco Hk) as (c1 & E & Hr1 & _ & F & _).
  destruct F as (Fl & Fp & Fc). cbn in Fl, Fp, Fc.
  exists c1. split; [|done]. intros n.
  assert (Hp1 : pending_replies_ c1 !! k = Some rs) by by rewrite Fp.
  rewrite (complete_unfold n k (Some t) e w c1 rs) by done.
  by rewrite drain_silent.
Qed.

Lemma inserts_repr kvs w l :
  repr (cache w) l →
  pending_replies_ (cache w) = ∅ →
  completions_ (cache w) = ∅ →
  NoDup (inserted_keys kvs) →
  (∀ k, k ∈ inserted_keys kvs → k ∉ l) →
  length kvs + length l ≤ limit_ (cache w) →
  (∀ k, k ∈ inserted_keys kvs → deferred miss_handler k) →
  (∀ r, r ∈ inserted_replies kvs → silent on_reply r) →
  ∃ w', (∀ n, run_main miss_handler on_reply (S n) (inserts kvs) w = done w') ∧
        repr (cache w') (reverse (inserted_keys kvs) ++ l) ∧
        pending_replies_ (cache w') = ∅ ∧
        completions_ (cache w') = ∅ ∧
        limit_ (cache w') = limit_ (cache w).
Proof.
  revert w l. induction kvs as [|[[k r] t] kvs IH]; intros w l Hr Hp Hc Hnd Hfresh Hlen Hdef Hsil.
  - exists w. split; [done|]. split; [done|]. split; [done|]. by split.
  - cbn in Hnd. apply NoDup_cons in Hnd as [Hk Hnd].
    assert (Hkl : k ∉ l) by (apply Hfresh; by left).
    assert (Hmk : map_ (cache w) !! k = None).
    { destruct (map_ (cache w) !! k) eqn:E; [|done].
      exfalso. apply Hkl. eapply repr_elem; [done | by eauto]. }
    assert (Hpk : pending_replies_ (cache w) !! k = None) by by rewrite Hp.
    set (c1 := issue k (push_back k r (pending_emplace k (cache w)))).
    set (w0 := record (with_cache w c1) (fetch_called k c1)).
    assert (Hp1 : pending_replies_ c1 = <[k := [r]]> (pending_replies_ (cache w)))
      by by apply miss_pending.
    assert (Hm1 : map_ c1 = map_ (cache w)).
    { unfold c1, pending_emplace. by rewrite Hpk. }
    assert (Hs1 : sentinel_ c1 = sentinel_ (cache w)).
    { unfold c1, pending_emplace. by rewrite Hpk. }
    assert (Hl1 : limit_ c1 = limit_ (cache w)).
    { unfold c1, pending_emplace. by rewrite Hpk. }
    assert (Hc1 : completions_ c1 = {[k]} ∪ completions_ (cache w)).
    { unfold c1, pending_emplace. by rewrite Hpk. }
    assert (Hget : ∀ n, exec miss_handler on_reply (S n) (call_get k r) w = done w0).
    { intros n. rewrite get_fresh by done. unfold invoke_miss_handler.
      fold c1. change (record (with_cache w c1) (fetch_called k (cache (with_cache w c1))))
        with w0. rewrite (Hdef k); [done | by left]. }
    clearbody c1.
    assert (Hi : inv (cache w)).
    { apply (inv_intro _ l); [done | cbn in Hlen; lia |].
      split; intros k'; rewrite Hc; set_solver. }
    assert (Hi0 : inv (cache w0)) by by apply (exec_preserved _ _ _ _ (Hget 0)).
    destruct (complete_value_silent w0 l k t no_error [r]) as (c2 & E & Hr2 & Fl & Fp & Fc).
    { by apply (repr_ext (cache w)). }
    { apply Hi0. }
    { cbn. rewrite Hc1. set_solver. }
    { cbn. by rewrite Hp1, lookup_insert_eq. }
    { intros r' ->%list_elem_of_singleton. apply Hsil. by left. }
    cbn in Hr2, Fl, Fp, Fc.
    rewrite take_ge in Hr2 by (cbn in *; lia).
    set (w2 := {| cache := pending_erase k c2;
                  log := log w0 ++ replies_to [r] (entry_of k) no_error c2 |}) in *.
    destruct (IH w2 (k :: l)) as (w' & Hrun & Hr' & Hp' & Hc' & Hl').
    { by apply (repr_ext c2). }
    { cbn. rewrite Fp, Hp1, Hp. by rewrite delete_insert_eq, delete_empty. }
    { cbn. rewrite Fc, Hc1, Hc. set_solver. }
    { done. }
    { intros k' Hk' [-> | Hin]%elem_of_cons; [done|].
      apply (Hfresh k'); [by right | done]. }
    { cbn in *. lia. }
    { intros k' Hk'. apply Hdef. by right. }
    { intros r' Hr'. apply Hsil. by right. }
    exists w'. split; [|split; [|split; [done|split; [done|]]]].
    + intros n. unfold run_main in *. cbn [inserts run].
      rewrite Hget. rewrite E. apply Hrun.
    + change (inserted_keys ((k, r, t) :: kvs)) with (k :: inserted_keys kvs).
      rewrite reverse_cons, <- app_assoc. done.
    + rewrite Hl'. cbn. congruence.
Qed.

(** ** The claims *)

(** C1. Coalescing.  Let [k] have no entry and no fetch outstanding, and
    let the fetch function return without completing.  Then [get(k, r)]
    followed by any further [get(k, r')] calls invokes the fetch function
    once, for the first call; the later calls only append to the wait list,
    which ends up holding all the replies in call order.  When the
    completion fires, whatever the replies do: the fetch function has been
    called exactly once for [k] in all, and the queued replies are called in
    order, every one with the same cursor and the same error.  When the
    replies do not call back, the completion returns and its log is exactly
    these calls. *)
Theorem coalescing w k r rs v e :
  inv (cache w) →
  map_ (cache w) !! k = None →
  pending_replies_ (cache w) !! k = None →
  deferred miss_handler k →
  ∃ w1 seen,
    (∀ n, run_main miss_handler on_reply (S n) (gets k (r :: rs)) w = done w1) ∧
    log w1 = log w ++ [fetch_called k seen] ∧
    pending_replies_ (cache w1) !! k = Some (r :: rs) ∧
    contents (cache w1) = contents (cache w) ∧
    (∀ n w2,
       exec miss_handler on_reply n (call_complete k v e) w1 = done w2 →
       ∃ evs, log w2 = log w ++ fetch_called k seen :: evs ∧
              fetch_count k (fetch_called k seen :: evs) = 1 ∧
              fifo_replies (λ _, True) (result_cursor k v) e (r :: rs) evs) ∧
    ((∀ r', r' ∈ r :: rs → silent on_reply r') →
     ∃ w2 seen',
       (∀ n, exec miss_handler on_reply (S n) (call_complete k v e) w1 = done w2) ∧
       log w2 = log w ++
                fetch_called k seen :: replies_to (r :: rs) (result_cursor k v) e seen').
Proof.
  intros Hi Hk Hp Hdef.
  set (c1 := issue k (push_back k r (pending_emplace k (cache w)))).
  set (w0 := record (with_cache w c1) (fetch_called k c1)).
  assert (Hp1 : pending_replies_ c1 = <[k := [r]]> (pending_replies_ (cache w)))
    by by apply miss_pending.
  assert (Hm1 : map_ c1 = map_ (cache w)).
  { unfold c1, pending_emplace. by rewrite Hp. }
  assert (Hc1 : completions_ c1 = {[k]} ∪ completions_ (cache w)).
  { unfold c1, pending_emplace. by rewrite Hp. }
  assert (Hfirst : ∀ n, exec miss_handler on_reply (S n) (call_get k r) w = done w0).
  { intros n. rewrite get_fresh by done. unfold invoke_miss_handler.
    fold c1. change (record (with_cache w c1) (fetch_called k (cache (with_cache w c1))))
      with w0. by rewrite Hdef. }
  clearbody c1.
  set (w1 := with_cache w0
               (with_pending (cache w0) (<[k := [r] ++ rs]> (pending_replies_ (cache w0))))).
  assert (Hrun : ∀ n, run_main miss_handler on_reply (S n) (gets k (r :: rs)) w = done w1).
  { intros n. unfold run_main. cbn [gets run]. rewrite Hfirst.
    apply gets_queued; cbn; [by rewrite Hm1 | by rewrite Hp1, lookup_insert_eq]. }
  assert (Hi1 : inv (cache w1)).
  { by apply (run_main_preserved _ _ _ _ (Hrun 0)). }
  assert (Hpk : pending_replies_ (cache w1) !! k = Some (r :: rs)).
  { cbn. by rewrite lookup_insert_eq. }
  assert (Hck : k ∈ completions_ (cache w1)).
  { cbn. rewrite Hc1. set_solver. }
  exists w1, c1. split; [done|]. split; [done|]. split; [done|].
  split; [unfold contents; cbn; by rewrite Hm1|]. split.
  - intros n w2 Hex.
    destruct (complete_fifo _ _ _ _ _ _ _ Hi1 Hpk Hex) as (evs & Hlog & Hfifo & Hcnt & _).
    exists evs. split; [cbn in Hlog; by rewrite Hlog, <- app_assoc|]. split.
    + change (fetch_called k c1 :: evs) with ([fetch_called k c1] ++ evs).
      by rewrite fetch_count_app, fetch_count_fetch, Hcnt.
    + by eapply fifo_replies_mono.
  - intros Hs.
    destruct (complete_silent k v e w1 (r :: rs) Hi1 Hck Hpk Hs) as (c2 & E & Hex).
    eexists _, c2. split; [done|]. cbn. by rewrite <- app_assoc.
Qed.

(** C2, amended.  When the completion for [k] fires, the cache first
    stores the value, if there is one, at the head of the list; it then looks
    the wait list of [k] up and calls every queued reply in FIFO order, all
    with the same cursor and error; every one of them is called while the
    wait list of [k] is still registered, and the wait list is removed only
    after the last reply has returned. *)
Theorem completion_order w k v e rs :
  inv (cache w) →
  k ∈ completions_ (cache w) →
  pending_replies_ (cache w) !! k = Some rs →
  ∃ c1,
    store_result (consume k (cache w)) k v = Some (c1, result_cursor k v) ∧
    (∀ t : T, v = Some t → 0 < limit_ (cache w) →
          cbegin c1 = entry_of k ∧ contents c1 !! k = Some (Some t)) ∧
    pending_replies_ c1 !! k = Some rs ∧
    (∀ n, exec miss_handler on_reply (S n) (call_complete k v e) w =
          match drain on_reply (exec miss_handler on_reply n) k rs (result_cursor k v) e
                  (with_cache w c1) with
          | done w2 => done (with_cache w2 (pending_erase k (cache w2)))
          | o => o
          end) ∧
    (∀ n w',
       exec miss_handler on_reply n (call_complete k v e) w = done w' →
       ∃ evs, log w' = log w ++ evs ∧
              fifo_replies (λ seen, is_Some (pending_replies_ seen !! k))
                (result_cursor k v) e rs evs ∧
              pending_replies_ (cache w') !! k = None).
Proof. apply complete_sound. Qed.

(** C3.  The empty cache has its sentinel linked to itself.  After any
    client program run on it (any sequence of [get], [find], [invalidate],
    [flush] and completions, with whatever the fetch function and the replies
    call back, each completion lambda being called once at most), the walk
    from [cbegin()] to [cend()] visits exactly the entries of the Index, once
    each, and every entry [e] it visits has [e.older.newer == e] and
    [e.newer.older == e]. *)
Theorem list_integrity limit (p : prog Key T) n w' :
  run_main miss_handler on_reply n p (new_world limit) = done w' →
  cbegin (cache (new_world (Key := Key) (T := T) limit)) = sentinel_ptr ∧
  newer_ (sentinel_ (cache (new_world (Key := Key) (T := T) limit))) = sentinel_ptr ∧
  ∃ l, traversal (cache w') = Some (ptrs l) ∧
       size (cache w') = length l ∧
       (∀ k, k ∈ l ↔ is_Some (map_ (cache w') !! k)) ∧
       ∀ it, it ∈ ptrs l → check_linkage (cache w') it = Some true.
Proof.
  intros Hrun. split; [done|]. split; [done|].
  destruct (run_main_preserved _ _ _ _ Hrun (inv_new_cache limit))
    as ([(l & Hr & _) _] & _).
  exists l. split; [by apply traversal_repr|]. split; [by apply repr_size|].
  split; [intros k; by apply repr_elem|].
  intros it Hit. unfold ptrs in Hit. apply list_elem_of_fmap in Hit as (k & -> & Hk).
  destruct Hr as [Hl _]. by eapply check_linkage_linked.
Qed.

(** C4.  [add_entry] links the new entry in at the head and then evicts
    the entry at the tail for as long as the Index holds more than [limit_]
    entries: of the list [k :: l] the first [limit_] keys stay.  So the size
    is at most the limit when it returns, and 0 when the limit is 0.  The
    size is at most the limit whenever a call, with all it calls back,
    returns to its caller. *)
Theorem eviction_bounds_size c l k (t : T) :
  repr c l →
  map_ c !! k = None →
  (∃ c', add_entry c k (Some t) = Some (c', entry_of k) ∧
         repr c' (take (limit_ c) (k :: l)) ∧
         limit_ c' = limit_ c ∧
         size c' ≤ limit_ c' ∧
         (limit_ c = 0 → size c' = 0)) ∧
  (∀ w (cl : call Key T) n w',
     inv (cache w) →
     exec miss_handler on_reply n cl w = done w' →
     size (cache w') ≤ limit (cache w')).
Proof.
  intros Hr Hk. split.
  - destruct (add_entry_repr c l k (Some t) Hr Hk) as (c' & E & Hr' & _ & Fl & _).
    exists c'. split; [done|]. split; [done|]. split; [done|].
    rewrite (repr_size _ _ Hr'), Fl, length_take. split; [lia|].
    intros ->. done.
  - intros w cl n w' Hi Hex.
    destruct (exec_preserved _ _ _ _ Hex Hi) as ([(l' & Hr' & Hlen) _] & _).
    unfold limit. by rewrite (repr_size _ _ Hr').
Qed.

(** C5.  Let the keys [k0 .. k(n-1)] be distinct, [n] at most the limit,
    the fetch function deferring and the replies not calling back.  On the
    empty cache, [get(k)] and then the completion of the fetch with a value,
    for [k0], ..., [k(n-1)] in turn, returns, and the walk from [cbegin()] to
    [cend()] then visits the entries of [k(n-1)], ..., [k0], in this
    order. *)
Theorem recency_order limit (kvs : list (Key * reply_id * T)) :
  NoDup (inserted_keys kvs) →
  length kvs ≤ limit →
  (∀ k, k ∈ inserted_keys kvs → deferred miss_handler k) →
  (∀ r, r ∈ inserted_replies kvs → silent on_reply r) →
  ∃ w', (∀ n, run_main miss_handler on_reply (S n) (inserts kvs) (new_world limit)
              = done w') ∧
        traversal (cache w') = Some (ptrs (reverse (inserted_keys kvs))) ∧
        size (cache w') = length kvs.
Proof.
  intros Hnd Hlen Hdef Hsil.
  destruct (inserts_repr kvs (new_world limit) []) as (w' & Hrun & Hr & _);
    [apply new_cache_repr | done | done | done | | cbn; lia | done | done |].
  { intros k _ Hk. by apply elem_of_nil in Hk. }
  rewrite app_nil_r in Hr. exists w'. split; [done|].
  split; [by apply traversal_repr|].
  rewrite (repr_size _ _ Hr), length_reverse. unfold inserted_keys.
  by rewrite length_fmap.
Qed.

(** C6.  Let [k] have an entry, at any place of the recency list.
    [get(k, r)] moves the entry to the head of the list, the other entries
    keeping their order, and calls [r] once, before it returns, with the
    cursor of the entry and [no_error]; at that moment [cbegin()] is this
    entry, and the Index holds the same keys and values and has the same
    size; the fetch function has not been called and the wait lists are
    the same.  What follows is what [r] does; when [r] does not call back,
    [get] returns this very state. *)
Theorem hit_moves_to_front w l1 k l2 r :
  repr (cache w) (l1 ++ k :: l2) →
  ∃ c1,
    let w1 := record (with_cache w c1) (reply_called r (entry_of k) no_error c1) in
    repr c1 (k :: l1 ++ l2) ∧
    cbegin c1 = entry_of k ∧
    contents c1 = contents (cache w) ∧
    size c1 = size (cache w) ∧
    same_frame (cache w) c1 ∧
    log w1 = log w ++ [reply_called r (entry_of k) no_error c1] ∧
    (∀ n, exec miss_handler on_reply (S n) (call_get k r) w =
          run (exec miss_handler on_reply n) (on_reply r (entry_of k) no_error w1) w1) ∧
    (silent on_reply r →
     ∀ n, exec miss_handler on_reply (S n) (call_get k r) w = done w1).
Proof.
  intros Hr.
  destruct (touch_repr _ _ _ _ Hr) as (c1 & Ht & Hr1 & C & F).
  assert (Hk : is_Some (map_ (cache w) !! k)).
  { eapply repr_elem; [done|]. apply elem_of_app. right. by left. }
  exists c1. cbn zeta.
  split; [done|]. split; [by rewrite (repr_cbegin _ _ Hr1)|]. split; [done|].
  split.
  { rewrite (repr_size _ _ Hr), (repr_size _ _ Hr1), !length_app. cbn.
    rewrite length_app. lia. }
  split; [done|]. split; [done|].
  assert (Hex : ∀ n, exec miss_handler on_reply (S n) (call_get k r) w =
    run (exec miss_handler on_reply n)
      (on_reply r (entry_of k) no_error
         (record (with_cache w c1) (reply_called r (entry_of k) no_error c1)))
      (record (with_cache w c1) (reply_called r (entry_of k) no_error c1))).
  { intros n. by rewrite (get_hit n k r w c1). }
  split; [done|]. intros Hs n. by rewrite Hex, Hs.
Qed.

(** C7.  Let [k] have no entry and no fetch outstanding.  [get(k, r)]
    registers the wait list of [k], holding [r], and only then calls the
    fetch function: the fetch function runs on a cache where this wait list
    is registered.  So when the fetch function completes at once, from
    inside its invocation, the completion finds the wait list and calls
    [r]. *)
Theorem pending_registered_before_fetch w k r :
  map_ (cache w) !! k = None →
  pending_replies_ (cache w) !! k = None →
  let c1 := issue k (push_back k r (pending_emplace k (cache w))) in
  let w1 := record (with_cache w c1) (fetch_called k c1) in
  pending_replies_ c1 !! k = Some [r] ∧
  k ∈ completions_ c1 ∧
  log w1 = log w ++ [fetch_called k c1] ∧
  (∀ n, exec miss_handler on_reply (S n) (call_get k r) w =
        run (exec miss_handler on_reply n) (miss_handler k w1) w1) ∧
  (∀ v e,
     inv (cache w) →
     miss_handler k w1 = bind_call (call_complete k v e) (λ _, ret) →
     silent on_reply r →
     ∃ c2, store_result (consume k c1) k v = Some (c2, result_cursor k v) ∧
           ∀ n, exec miss_handler on_reply (S (S n)) (call_get k r) w =
                done {| cache := pending_erase k c2;
                        log := log w ++ [fetch_called k c1;
                                         reply_called r (result_cursor k v) e c2] |}).
Proof.
  intros Hk Hp c1 w1.
  assert (Hp1 : pending_replies_ c1 = <[k := [r]]> (pending_replies_ (cache w)))
    by by apply miss_pending.
  assert (Hc1 : completions_ c1 = {[k]} ∪ completions_ (cache w)).
  { unfold c1, pending_emplace. by rewrite Hp. }
  assert (Hex : ∀ n, exec miss_handler on_reply (S n) (call_get k r) w =
                     run (exec miss_handler on_reply n) (miss_handler k w1) w1).
  { intros n. by rewrite get_fresh. }
  assert (Hpre : preserved w w1) by by apply preserved_miss.
  clearbody c1.
  split; [by rewrite Hp1, lookup_insert_eq|]. split; [rewrite Hc1; set_solver|].
  split; [done|]. split; [done|].
  intros v e Hi Hsync Hs.
  destruct (Hpre Hi) as (Hi1 & _).
  destruct (complete_silent k v e w1 [r] Hi1) as (c2 & E & Hcomp).
  { cbn. rewrite Hc1. set_solver. }
  { cbn. by rewrite Hp1, lookup_insert_eq. }
  { by intros r' ->%list_elem_of_singleton. }
  exists c2. split; [done|]. intros n.
  rewrite Hex, Hsync. cbn [run]. rewrite Hcomp. cbn. by rewrite <- app_assoc.
Qed.

(** C8.  Let the fetch of [k] complete with no value and the error [e].
    The loop over the waiters starts on a cache whose Index and list are
    what they were: no entry is created.  Every queued reply is called, in
    order, with the end cursor and [e] as it was given, and the wait list
    of [k] is removed afterwards, as it is after a completion with a value.
    When no reply calls back, the completion returns and nothing but the
    wait list of [k] has changed. *)
Theorem fetch_failure w k e rs :
  inv (cache w) →
  k ∈ completions_ (cache w) →
  pending_replies_ (cache w) !! k = Some rs →
  let c0 := consume k (cache w) in
  (map_ c0 = map_ (cache w) ∧ sentinel_ c0 = sentinel_ (cache w) ∧
   size c0 = size (cache w)) ∧
  (∀ n, exec miss_handler on_reply (S n) (call_complete k None e) w =
        match drain on_reply (exec miss_handler on_reply n) k rs (cend c0) e
                (with_cache w c0) with
        | done w2 => done (with_cache w2 (pending_erase k (cache w2)))
        | o => o
        end) ∧
  (∀ n w',
     exec miss_handler on_reply n (call_complete k None e) w = done w' →
     ∃ evs, log w' = log w ++ evs ∧
            fifo_replies (λ _, True) (cend c0) e rs evs ∧
            pending_replies_ (cache w') !! k = None) ∧
  ((∀ r, r ∈ rs → silent on_reply r) →
   ∀ n, exec miss_handler on_reply (S n) (call_complete k None e) w =
        done {| cache := pending_erase k c0;
                log := log w ++ replies_to rs (cend c0) e c0 |}) ∧
  (∀ v n w',
     exec miss_handler on_reply n (call_complete k v e) w = done w' →
     pending_replies_ (cache w') !! k = None).
Proof.
  intros Hi Hk Hp c0. split; [done|]. split; [|split; [|split]].
  - intros n. by apply (complete_unfold n k None e w c0 rs).
  - intros n w' Hex.
    destruct (complete_fifo _ _ _ _ _ _ _ Hi Hp Hex) as (evs & Hlog & Hfifo & _ & _ & Hgone).
    exists evs. split; [done|]. split; [|done]. by eapply fifo_replies_mono.
  - intros Hs n.
    destruct (complete_silent k None e w rs Hi Hk Hp Hs) as (c1 & E & Hex).
    cbn in E. injection E as <-. apply Hex.
  - intros v n w' Hex.
    by destruct (complete_fifo _ _ _ _ _ _ _ Hi Hp Hex) as (_ & _ & _ & _ & _ & ?).
Qed.

(** C9.  [flush()] empties the Index and links the sentinel to itself:
    the list is empty.  Neither [flush()] nor [invalidate(k')] touches a
    wait list or a completion that is still to come.  So a fetch of [k] that
    is in flight when either is called completes as usual afterwards: its
    value is stored in a new entry at the head of the list (to stay there
    when the limit is not 0) and its waiters are called, in order, with the
    cursor of that entry. *)
Theorem flush_keeps_pending w k (t : T) e rs :
  inv (cache w) →
  k ∈ completions_ (cache w) →
  pending_replies_ (cache w) !! k = Some rs →
  (map_ (flush (cache w)) = ∅ ∧
   cbegin (flush (cache w)) = cend (flush (cache w)) ∧
   newer_ (sentinel_ (flush (cache w))) = sentinel_ptr ∧
   traversal (flush (cache w)) = Some [] ∧
   size (flush (cache w)) = 0) ∧
  (∀ k', ∃ c', invalidate (cache w) k' = Some c') ∧
  (∀ c',
     flushed_or_invalidated (cache w) c' →
     pending_replies_ c' = pending_replies_ (cache w) ∧
     completions_ c' = completions_ (cache w) ∧
     (∃ c1,
        store_result (consume k c') k (Some t) = Some (c1, entry_of k) ∧
        (0 < limit_ (cache w) →
         cbegin c1 = entry_of k ∧ contents c1 !! k = Some (Some t)) ∧
        (∀ n, exec miss_handler on_reply (S n) (call_complete k (Some t) e)
                (with_cache w c') =
              match drain on_reply (exec miss_handler on_reply n) k rs (entry_of k) e
                      (with_cache w c1) with
              | done w2 => done (with_cache w2 (pending_erase k (cache w2)))
              | o => o
              end) ∧
        ((∀ r, r ∈ rs → silent on_reply r) →
         ∀ n, exec miss_handler on_reply (S n) (call_complete k (Some t) e)
                (with_cache w c') =
              done {| cache := pending_erase k c1;
                      log := log w ++ replies_to rs (entry_of k) e c1 |})) ∧
     (∀ n w',
        exec miss_handler on_reply n (call_complete k (Some t) e) (with_cache w c')
        = done w' →
        ∃ evs, log w' = log w ++ evs ∧
               fifo_replies (λ _, True) (entry_of k) e rs evs ∧
               pending_replies_ (cache w') !! k = None)).
Proof.
  intros Hi Hk Hp. split; [|split].
  - split; [done|]. split; [done|]. split; [done|]. split.
    + by rewrite (traversal_repr (flush (cache w)) []) by apply flush_repr.
    + by rewrite (repr_size (flush (cache w)) []) by apply flush_repr.
  - intros k'. destruct Hi as [(l & Hr & _) _].
    destruct (invalidate_repr _ _ k' Hr) as (c' & _ & E & _). by exists c'.
  - intros c' Hc'.
    destruct (flushed_or_invalidated_inv _ _ Hi Hc') as (Hi' & Fl & Fp & Fc).
    split; [done|]. split; [done|].
    assert (Hk' : k ∈ completions_ (cache (with_cache w c'))) by (cbn; by rewrite Fc).
    assert (Hp' : pending_replies_ (cache (with_cache w c')) !! k = Some rs)
      by (cbn; by rewrite Fp).
    split.
    + destruct (complete_sound (with_cache w c') k (Some t) e rs Hi' Hk' Hp')
        as (c1 & E & Hhead & _ & Hunf & _).
      exists c1. split; [done|]. split; [|split; [done|]].
      * intros Hlim. apply Hhead; [done|]. cbn. by rewrite Fl.
      * intros Hs n.
        destruct (complete_silent k (Some t) e (with_cache w c') rs Hi' Hk' Hp' Hs)
          as (c1' & E' & Hex).
        cbn in E, E'. rewrite E in E'. injection E' as <-. apply Hex.
    + intros n w' Hex.
      destruct (complete_fifo _ _ _ _ (with_cache w c') _ _ Hi' Hp' Hex)
        as (evs & Hlog & Hfifo & _ & _ & Hgone).
      exists evs. split; [done|]. split; [|done]. by eapply fifo_replies_mono.
Qed.

(** C10, amended.  The waiters of [k] are called on caches in which the
    lambda of [k] is used up and the wait list of [k] is still registered
    (it is erased only after the loop over the waiters), and every call
    made from there keeps it so.  On such a cache [get(k, r)] never calls
    the fetch function for [k].  When [k] has an entry there, [get(k, r)] is
    a hit: it moves the entry to the head and calls [r] at once with the
    cursor of the entry and [no_error], and the wait lists are what they
    were, nothing being appended.  When the loop over the waiters is over,
    the wait list of [k] is erased. *)
Theorem reentrant_get w k r :
  inv (cache w) →
  draining k (cache w) →
  is_Some (pending_replies_ (cache w) !! k) ∧
  (is_Some (map_ (cache w) !! k) →
   ∃ c1,
     let w1 := record (with_cache w c1) (reply_called r (entry_of k) no_error c1) in
     touch (cache w) (entry_of k) = Some c1 ∧
     cbegin c1 = entry_of k ∧
     contents c1 = contents (cache w) ∧
     pending_replies_ c1 = pending_replies_ (cache w) ∧
     (∀ n, exec miss_handler on_reply (S n) (call_get k r) w =
           run (exec miss_handler on_reply n) (on_reply r (entry_of k) no_error w1) w1) ∧
     (silent on_reply r →
      ∀ n, exec miss_handler on_reply (S n) (call_get k r) w = done w1)) ∧
  (∀ n w',
     exec miss_handler on_reply n (call_get k r) w = done w' →
     ∃ evs, log w' = log w ++ evs ∧ fetch_count k evs = 0 ∧
            inv (cache w') ∧ draining k (cache w')) ∧
  (∀ w0 v e rs n w',
     inv (cache w0) →
     pending_replies_ (cache w0) !! k = Some rs →
     exec miss_handler on_reply n (call_complete k v e) w0 = done w' →
     ∃ evs, log w' = log w0 ++ evs ∧
            fifo_replies (λ seen, inv seen ∧ draining k seen)
              (result_cursor k v) e rs evs ∧
            fetch_count k evs = 0 ∧
            pending_replies_ (cache w') !! k = None).
Proof.
  intros Hi [Hk Hp]. split; [done|]. split; [|split].
  - intros Hm. pose proof Hi as [(l & Hr & _) _].
    destruct (list_elem_of_split l k) as (l1 & l2 & ->);
      [by apply (repr_elem _ _ _ Hr)|].
    destruct (touch_repr _ _ _ _ Hr) as (c1 & Ht & Hr1 & C & _ & Fp & _).
    exists c1. cbn zeta.
    split; [done|]. split; [by rewrite (repr_cbegin _ _ Hr1)|].
    split; [done|]. split; [done|].
    assert (Hex : ∀ n, exec miss_handler on_reply (S n) (call_get k r) w =
      run (exec miss_handler on_reply n)
        (on_reply r (entry_of k) no_error
           (record (with_cache w c1) (reply_called r (entry_of k) no_error c1)))
        (record (with_cache w c1) (reply_called r (entry_of k) no_error c1))).
    { intros n. by rewrite (get_hit n k r w c1). }
    split; [done|]. intros Hs n. by rewrite Hex, Hs.
  - intros n w' Hex.
    destruct (exec_preserved _ _ _ _ Hex Hi) as (Hi' & _ & evs & Hlog & Hd).
    destruct (Hd k) as [Hd' Hcnt]; [done|]. by exists evs.
  - intros w0 v e rs n w' Hi0 Hp0 Hex.
    destruct (complete_fifo _ _ _ _ _ _ _ Hi0 Hp0 Hex)
      as (evs & Hlog & Hfifo & Hcnt & _ & Hgone).
    by exists evs.
Qed.

End callbacks.

(** * More of the code *)

(** ** What the list operations leave alone, whatever the cache *)

Section frames.

Implicit Types (w : world Key T) (r : reply_id) (v : option T) (e : error_code)
  (it : entry_ptr Key) (rs : list reply_id).

Lemma set_link_frame d c p q c' :
  set_link d c p q = Some c' → contents c' = contents c ∧ same_frame c c'.
Proof.
  intros E. destruct (deref c p) as [n|] eqn:Hn.
  - destruct (set_link_Some d c p q) as (c'' & E' & _ & C & F); [by eauto|].
    assert (c'' = c') as -> by congruence. done.
  - unfold set_link in E. by rewrite Hn in E.
Qed.

Lemma extract_frame c p c' :
  extract c p = Some c' → contents c' = contents c ∧ same_frame c c'.
Proof.
  unfold extract. destruct (deref c p) as [nd|]; [|done]. cbn.
  destruct (set_older c (newer_ nd) (older_ nd)) as [c1|] eqn:E1; [|done]. cbn.
  intros E2. apply set_link_frame in E1 as [C1 F1]. apply set_link_frame in E2 as [C2 F2].
  split; [congruence | eauto using same_frame_trans].
Qed.

Lemma insert_at_head_frame c p c' :
  insert_at_head c p = Some c' → contents c' = contents c ∧ same_frame c c'.
Proof.
  unfold insert_at_head.
  destruct (set_older c p (older_ (sentinel_ c))) as [c1|] eqn:E1; [|done]. cbn.
  destruct (set_newer c1 p sentinel_ptr) as [c2|] eqn:E2; [|done]. cbn.
  destruct (set_newer c2 (older_ (sentinel_ c)) p) as [c3|] eqn:E3; [|done]. cbn.
  intros E4.
  apply set_link_frame in E1 as [C1 F1]. apply set_link_frame in E2 as [C2 F2].
  apply set_link_frame in E3 as [C3 F3]. apply set_link_frame in E4 as [C4 F4].
  split; [congruence | eauto using same_frame_trans].
Qed.

Lemma touch_frame c p c' :
  touch c p = Some c' → contents c' = contents c ∧ same_frame c c'.
Proof.
  unfold touch. destruct (extract c p) as [c1|] eqn:E1; [|done]. cbn.
  intros E2. apply extract_frame in E1 as [C1 F1].
  apply insert_at_head_frame in E2 as [C2 F2].
  split; [congruence | eauto using same_frame_trans].
Qed.

Lemma remove_frame c k c' :
  remove c (Some k) = Some c' →
  contents c' = delete k (contents c) ∧ same_frame c c'.
Proof.
  unfold remove. destruct (extract c (entry_of k)) as [c1|] eqn:E1; [|done]. cbn.
  intros [= <-]. apply extract_frame in E1 as [C1 (Fl & Fp & Fc)].
  split; [|by repeat split].
  unfold contents in *. cbn. by rewrite fmap_delete, C1.
Qed.

Lemma invalidate_frame c k c' :
  invalidate c k = Some c' →
  contents c' = delete k (contents c) ∧ same_frame c c'.
Proof.
  unfold invalidate, map_find. destruct (map_ c !! k) as [n|] eqn:Hk.
  - apply remove_frame.
  - intros [= <-]. split; [|apply same_frame_refl].
    symmetry. apply delete_id. by apply contents_None.
Qed.

Lemma evict_lru_frame c c' :
  evict_lru c = Some c' →
  ∃ k, contents c' = delete k (contents c) ∧ same_frame c c'.
Proof.
  unfold evict_lru. destruct (first c (newer_ (sentinel_ c))) as [key|]; [|done]. cbn.
  unfold map_find. destruct (map_ c !! key); [|done].
  intros E. exists key. by apply remove_frame.
Qed.

Lemma enforce_limit_loop_frame n c c' :
  enforce_limit_loop n c = Some c' →
  contents c' ⊆ contents c ∧ same_frame c c'.
Proof.
  revert c. induction n as [|n IH]; intros c; cbn; case_decide; try done.
  - intros [= <-]. split; [done | apply same_frame_refl].
  - destruct (evict_lru c) as [c1|] eqn:E1; [|done]. cbn. intros E2.
    apply evict_lru_frame in E1 as (k & C1 & F1). apply IH in E2 as [C2 F2].
    split; [|eauto using same_frame_trans].
    etrans; [done|]. rewrite C1. apply delete_subseteq.
  - intros [= <-]. split; [done | apply same_frame_refl].
Qed.

Lemma add_entry_frame c k v c' it :
  add_entry c k v = Some (c', it) →
  it = entry_of k ∧
  contents c' ⊆ contents (map_emplace c k v) ∧
  same_frame c c'.
Proof.
  unfold add_entry.
  destruct (insert_at_head (map_emplace c k v) (entry_of k)) as [c2|] eqn:E2; [|done].
  cbn. unfold enforce_limit.
  destruct (enforce_limit_loop (size c2) c2) as [c3|] eqn:E3; [|done]. cbn.
  intros [= <- <-]. apply insert_at_head_frame in E2 as [C2 F2].
  apply enforce_limit_loop_frame in E3 as [C3 F3].
  split; [done|]. split; [by rewrite <- C2|].
  apply (same_frame_trans _ (map_emplace c k v)); [|eauto using same_frame_trans].
  unfold map_emplace. destruct (map_ c !! k); by repeat split.
Qed.

Lemma store_result_frame c k v c' it :
  store_result c k v = Some (c', it) →
  it = result_cursor k v ∧
  contents c' ⊆ contents (if v is Some _ then map_emplace c k v else c) ∧
  same_frame c c'.
Proof.
  destruct v as [t|]; cbn.
  - apply add_entry_frame.
  - intros [= <- <-]. split; [done|]. split; [done | apply same_frame_refl].
Qed.

Lemma valued_subseteq c c' : contents c' ⊆ contents c → valued c → valued c'.
Proof.
  intros Hsub Hv k v Hk. apply (Hv k).
  by eapply lookup_weaken.
Qed.

Lemma valued_emplace c k (t : T) : valued c → valued (map_emplace c k (Some t)).
Proof.
  intros Hv. unfold map_emplace. destruct (map_ c !! k) eqn:Hk; [done|].
  intros k' v'. unfold contents. cbn. rewrite fmap_insert.
  destruct (decide (k' = k)) as [-> | Hne].
  - rewrite lookup_insert_eq. intros [= <-]. by eauto.
  - rewrite lookup_insert_ne by done. apply Hv.
Qed.

Lemma iterator_value_contents c k v :
  contents c !! k = Some v → iterator_value c (entry_of k) = v.
Proof.
  rewrite contents_lookup. unfold iterator_value. cbn.
  destruct (map_ c !! k) as [nd|]; [|done]. cbn. by intros [= <-].
Qed.

Lemma iterator_value_absent c k :
  map_ c !! k = None → iterator_value c (entry_of k) = None.
Proof. intros Hk. unfold iterator_value. cbn. by rewrite Hk. Qed.

(** ** [kept], piece by piece *)

Lemma kept_refl w : kept w w.
Proof.
  split; [done|]. split; [done|]. split; [done|].
  exists []. split; [by rewrite app_nil_r | constructor].
Qed.

Lemma kept_trans w1 w2 w3 : kept w1 w2 → kept w2 w3 → kept w1 w3.
Proof.
  intros (V12 & N12 & D12 & evs2 & L12 & F12) (V23 & N23 & D23 & evs3 & L23 & F23).
  split; [by eauto|]. split; [by eauto|]. split.
  - intros k Hp Hc. destruct (D23 k Hp Hc) as [Hp2 Hc2]. by apply D12.
  - exists (evs2 ++ evs3). split; [by rewrite L23, L12, app_assoc|].
    by apply Forall_app.
Qed.

(** A step that logs nothing and leaves the wait lists and the completions
    to come as they are. *)
Lemma kept_quiet w c1 :
  same_frame (cache w) c1 → contents c1 ⊆ contents (cache w) →
  kept w (with_cache w c1).
Proof.
  intros (Fl & Fp & Fc) Hsub.
  split; [by apply valued_subseteq|]. split; [|split].
  - intros Hn k rs. cbn. rewrite Fp. apply Hn.
  - intros k. cbn. by rewrite Fp, Fc.
  - exists []. split; [cbn; by rewrite app_nil_r | constructor].
Qed.

Lemma kept_reply w r it e : kept w (record w (reply_called r it e (cache w))).
Proof.
  split; [done|]. split; [done|]. split; [done|].
  eexists. split; [reflexivity|]. by repeat constructor.
Qed.

Lemma kept_hit w k c1 :
  is_Some (map_ (cache w) !! k) →
  touch (cache w) (entry_of k) = Some c1 →
  kept w (with_cache w c1).
Proof.
  intros _ Ht. apply touch_frame in Ht as [C F].
  apply kept_quiet; [done | by rewrite C].
Qed.

Lemma kept_queue w k r :
  map_ (cache w) !! k = None →
  is_Some (pending_replies_ (cache w) !! k) →
  kept w (with_cache w (push_back k r (cache w))).
Proof.
  intros _ Hp. split; [done|]. split; [|split].
  - intros Hn k' rs'. cbn. intros Hk'.
    apply lookup_alter_Some in Hk' as [(-> & rs0 & Hrs0 & ->) | [_ Hk']].
    + by destruct rs0.
    + by eapply Hn.
  - intros k'. cbn. intros Hk' Hc. split; [|done]. by apply lookup_alter_is_Some in Hk'.
  - exists []. split; [cbn; by rewrite app_nil_r | constructor].
Qed.

Lemma kept_miss w k r :
  map_ (cache w) !! k = None →
  pending_replies_ (cache w) !! k = None →
  let w1 := with_cache w (issue k (push_back k r (pending_emplace k (cache w)))) in
  kept w (record w1 (fetch_called k (cache w1))).
Proof.
  intros Hk Hp w1.
  assert (Hpend : pending_replies_ (cache w1) = <[k := [r]]> (pending_replies_ (cache w)))
    by by apply miss_pending.
  assert (Hmap : map_ (cache w1) = map_ (cache w)).
  { unfold w1, pending_emplace. by rewrite Hp. }
  assert (Hcom : completions_ (cache w1) = {[k]} ∪ completions_ (cache w)).
  { unfold w1, pending_emplace. by rewrite Hp. }
  assert (Hlog : log w1 = log w) by done.
  clearbody w1. unfold kept. cbn [record cache log]. rewrite Hlog.
  split; [|split; [|split]].
  - intros Hv k' v'. unfold contents. rewrite Hmap. apply Hv.
  - intros Hn k' rs'. rewrite Hpend.
    destruct (decide (k' = k)) as [-> | Hne].
    + rewrite lookup_insert_eq. by intros [= <-].
    + rewrite lookup_insert_ne by done. apply Hn.
  - intros k'. rewrite Hpend, Hcom. intros Hk' Hc.
    assert (Hne : k ≠ k') by set_solver.
    rewrite lookup_insert_ne in Hk' by done. split; [done | set_solver].
  - eexists. split; [reflexivity|]. constructor; [|constructor].
    cbn. rewrite Hmap, Hpend, Hcom, lookup_insert_eq.
    split; [done|]. split; [by eauto | set_solver].
Qed.

Lemma kept_invalidate w k c1 :
  invalidate (cache w) k = Some c1 → kept w (with_cache w c1).
Proof.
  intros Hi. apply invalidate_frame in Hi as [C F].
  apply kept_quiet; [done|]. rewrite C. apply delete_subseteq.
Qed.

Lemma kept_flush w : kept w (with_cache w (flush (cache w))).
Proof.
  apply kept_quiet; [by repeat split|].
  unfold contents. cbn. rewrite fmap_empty. apply map_empty_subseteq.
Qed.

Lemma kept_complete w k v c1 it w2 :
  k ∈ completions_ (cache w) →
  store_result (consume k (cache w)) k v = Some (c1, it) →
  is_Some (pending_replies_ c1 !! k) →
  kept (with_cache w c1) w2 →
  kept w (with_cache w2 (pending_erase k (cache w2))).
Proof.
  intros Hk Hs Hp (V & N & D & evs & L & F).
  apply store_result_frame in Hs as (_ & C & Fl & Fp & Fc). cbn in Fl, Fp, Fc, V, N, D, L.
  split; [|split; [|split]].
  - intros Hv. cbn. apply V. eapply valued_subseteq; [done|].
    destruct v; [|done]. by apply (valued_emplace (consume k (cache w))).
  - intros Hn k' rs'. cbn. intros Hk'.
    apply lookup_delete_Some in Hk' as [_ Hk'].
    eapply N; [|done]. intros k'' rs''. rewrite Fp. apply Hn.
  - intros k'. cbn. intros Hk' Hc.
    apply lookup_delete_is_Some in Hk' as [Hne Hk'].
    destruct (D k' Hk' Hc) as [Hp1 Hc1]. rewrite Fp in Hp1. rewrite Fc in Hc1.
    split; [done | set_solver].
  - by exists evs.
Qed.

(** The null [unique_ptr] of the sentinel stays. *)

Lemma set_link_sentinel_value d c p q c' :
  set_link d c p q = Some c' → value_ (sentinel_ c') = value_ (sentinel_ c).
Proof.
  unfold set_link. destruct (deref c p) as [n|] eqn:Hn; [|done]. cbn.
  destruct p as [| |k]; cbn in *; [done| |].
  - injection Hn as <-. intros [= <-]. by destruct d.
  - rewrite Hn. by intros [= <-].
Qed.

Lemma extract_sentinel_value c p c' :
  extract c p = Some c' → value_ (sentinel_ c') = value_ (sentinel_ c).
Proof.
  unfold extract. destruct (deref c p) as [nd|]; [|done]. cbn.
  destruct (set_older c (newer_ nd) (older_ nd)) as [c1|] eqn:E1; [|done]. cbn.
  intros E2. apply set_link_sentinel_value in E1, E2. congruence.
Qed.

Lemma insert_at_head_sentinel_value c p c' :
  insert_at_head c p = Some c' → value_ (sentinel_ c') = value_ (sentinel_ c).
Proof.
  unfold insert_at_head.
  destruct (set_older c p (older_ (sentinel_ c))) as [c1|] eqn:E1; [|done]. cbn.
  destruct (set_newer c1 p sentinel_ptr) as [c2|] eqn:E2; [|done]. cbn.
  destruct (set_newer c2 (older_ (sentinel_ c)) p) as [c3|] eqn:E3; [|done]. cbn.
  intros E4. apply set_link_sentinel_value in E1, E2, E3, E4. congruence.
Qed.

Lemma remove_sentinel_value c k c' :
  remove c (Some k) = Some c' → value_ (sentinel_ c') = value_ (sentinel_ c).
Proof.
  unfold remove. destruct (extract c (entry_of k)) as [c1|] eqn:E1; [|done]. cbn.
  intros [= <-]. by apply extract_sentinel_value in E1.
Qed.

Lemma enforce_limit_loop_sentinel_value n c c' :
  enforce_limit_loop n c = Some c' → value_ (sentinel_ c') = value_ (sentinel_ c).
Proof.
  revert c. induction n as [|n IH]; intros c; cbn; case_decide; try done.
  - by intros [= <-].
  - destruct (evict_lru c) as [c1|] eqn:E1; [|done]. cbn. intros E2.
    apply IH in E2. rewrite E2. unfold evict_lru in E1.
    destruct (first c (newer_ (sentinel_ c))) as [key|]; [|done]. cbn in E1.
    unfold map_find in E1. destruct (map_ c !! key); [|done].
    by apply remove_sentinel_value in E1.
  - by intros [= <-].
Qed.

Lemma store_result_sentinel_value c k v c' it :
  store_result c k v = Some (c', it) → value_ (sentinel_ c') = value_ (sentinel_ c).
Proof.
  destruct v as [t|]; cbn; [|by intros [= <- _]].
  unfold add_entry.
  destruct (insert_at_head (map_emplace c k (Some t)) (entry_of k)) as [c2|] eqn:E2;
    [|done].
  cbn. unfold enforce_limit.
  destruct (enforce_limit_loop (size c2) c2) as [c3|] eqn:E3; [|done]. cbn.
  intros [= <- _]. apply insert_at_head_sentinel_value in E2.
  apply enforce_limit_loop_sentinel_value in E3. rewrite E3, E2.
  unfold map_emplace. by destruct (map_ c !! k).
Qed.

(** ** The loops over the list *)

(** The values of the entries of [l], in order. *)
Lemma values_exist c l :
  repr c l → valued c →
  ∃ vs, Forall2 (λ k t, contents c !! k = Some (Some t)) l vs.
Proof.
  intros Hr Hv.
  assert (Hall : ∀ k, k ∈ l → ∃ t, contents c !! k = Some (Some t)).
  { intros k Hk. eapply repr_elem in Hk; [|done].
    apply contents_is_Some in Hk as [v Hk]. destruct (Hv k v Hk) as [t ->].
    by exists t. }
  clear Hr. induction l as [|k l IH].
  - exists []. constructor.
  - destruct (Hall k) as [t Ht]; [by left|].
    destruct IH as [vs Hvs]; [intros k' Hk'; apply Hall; by right|].
    exists (t :: vs). by constructor.
Qed.

Lemma next_apath c k l q :
  apath (links Older c) (entry_of k) l q →
  next c (entry_of k) = Some (head_ptr l q).
Proof.
  intros Hp. apply apath_head in Hp. unfold links in Hp. unfold next.
  destruct (deref c (entry_of k)) as [nd|]; [|done]. cbn in *. by injection Hp as ->.
Qed.

Lemma dump_cache_apath c n p l vs :
  apath (links Older c) p l sentinel_ptr →
  Forall2 (λ k t, contents c !! k = Some (Some t)) l vs →
  length l ≤ n →
  dump_cache n c (head_ptr l sentinel_ptr) sentinel_ptr = Some vs.
Proof.
  revert n p vs. induction l as [|k l IH]; intros n p vs Hp Hvs Hlen.
  - apply Forall2_nil_inv_l in Hvs as ->. destruct n; cbn; by rewrite decide_True.
  - apply Forall2_cons_inv_l in Hvs as (t & vs' & Ht & Hvs' & ->).
    destruct n as [|n]; [cbn in Hlen; lia|].
    destruct Hp as [_ Hl]. cbn [dump_cache head_ptr].
    rewrite decide_False by done.
    rewrite (iterator_value_contents _ _ _ Ht). cbn [mbind option_bind].
    rewrite (next_apath _ _ _ _ Hl). cbn [mbind option_bind].
    rewrite (IH n (entry_of k) vs'); [done | done | done | cbn in Hlen; lia].
Qed.

Lemma list_integrity_loop_apath c n p l count :
  apath (links Older c) p l sentinel_ptr →
  (∀ k, k ∈ l → check_linkage c (entry_of k) = Some true) →
  count + length l = size c →
  length l < n →
  list_integrity_loop n c count (head_ptr l sentinel_ptr) = Some (true, size c).
Proof.
  revert n p count. induction l as [|k l IH]; intros n p count Hp Hlink Hcount Hn.
  - destruct n; cbn in *; rewrite decide_True by done; do 2 f_equal; lia.
  - destruct n as [|n]; [cbn in Hn; lia|].
    destruct Hp as [_ Hl]. cbn [list_integrity_loop head_ptr].
    rewrite decide_False by done.
    rewrite Hlink by by left. cbn [mbind option_bind negb].
    rewrite bool_decide_eq_true_2 by (cbn in Hcount; lia). cbn [negb].
    rewrite (next_apath _ _ _ _ Hl). cbn [mbind option_bind].
    apply (IH n (entry_of k)); [done | | cbn in *; lia | cbn in *; lia].
    intros k' Hk'. apply Hlink. by right.
Qed.

Lemma list_integrity_check_repr c l : repr c l → list_integrity_check c = Some true.
Proof.
  intros Hr. unfold list_integrity_check.
  rewrite (repr_cbegin _ _ Hr).
  pose proof Hr as [(Hnd & Hin & HO & HN) _].
  rewrite (list_integrity_loop_apath c _ sentinel_ptr l 0); [| done | | |].
  - by rewrite bool_decide_eq_true_2.
  - intros k Hk. eapply check_linkage_linked; [apply Hr | done].
  - by rewrite (repr_size _ _ Hr).
  - rewrite (repr_size _ _ Hr). lia.
Qed.

Lemma list_integrity_loop_sound c n count iter cnt :
  list_integrity_loop n c count iter = Some (true, cnt) →
  ∀ m, size c - count ≤ m →
  ∃ ps, walk m c iter = Some ps ∧ cnt = count + length ps ∧
        ∀ it, it ∈ ps → check_linkage c it = Some true.
Proof.
  revert count iter. induction n as [|n IH]; intros count iter; cbn.
  - case_decide as Hend; [|done]. intros [= <-] m _.
    exists []. split; [|split; [cbn; lia | by intros it Hit%elem_of_nil]].
    destruct m; cbn; by rewrite decide_True.
  - case_decide as Hend.
    + intros [= <-] m _.
      exists []. split; [|split; [cbn; lia | by intros it Hit%elem_of_nil]].
      destruct m; cbn; by rewrite decide_True.
    + destruct (check_linkage c iter) as [[|]|] eqn:Hlink; cbn; [|done|done].
      case_bool_decide as Hcount; cbn; [|done].
      destruct (next c iter) as [iter'|] eqn:Hnext; cbn; [|done].
      intros Hloop m Hm. destruct m as [|m]; [lia|].
      destruct (IH _ _ Hloop m) as (ps & Hwalk & Hcnt & Hall); [lia|].
      exists (iter :: ps). split; [|split].
      * cbn [walk]. rewrite decide_False by done. by rewrite Hnext; cbn [mbind option_bind]; rewrite Hwalk.
      * cbn. lia.
      * intros it [-> | Hit]%elem_of_cons; [done | by apply Hall].
Qed.

Lemma list_integrity_loop_fuel c n m count iter :
  size c - count < n → size c - count < m →
  list_integrity_loop n c count iter = list_integrity_loop m c count iter.
Proof.
  revert m count iter. induction n as [|n IH]; intros m count iter Hn Hm; [lia|].
  destruct m as [|m]; [lia|]. cbn [list_integrity_loop].
  case_decide; [done|].
  destruct (check_linkage c iter) as [[|]|]; cbn [mbind option_bind negb]; [|done|done].
  case_bool_decide as Hcount; cbn [negb]; [|done].
  destruct (next c iter) as [iter'|]; cbn [mbind option_bind]; [|done].
  apply IH; lia.
Qed.

(** ** [invalidate] and [add_entry] on their own *)

Lemma filter_ne_id (l : list Key) k : k ∉ l → base.filter (λ k', k' ≠ k) l = l.
Proof.
  induction l as [|a l IH]; [done|].
  intros [Hne Hk]%not_elem_of_cons.
  rewrite filter_cons_True by done. by rewrite IH.
Qed.

Lemma filter_ne_middle (l1 l2 : list Key) k :
  NoDup (l1 ++ k :: l2) → base.filter (λ k', k' ≠ k) (l1 ++ k :: l2) = l1 ++ l2.
Proof.
  intros Hnd. apply NoDup_middle in Hnd as [_ Hk].
  rewrite filter_app, filter_cons_False by (intros Hne; by apply Hne).
  rewrite !filter_ne_id; [done | |]; intros Hin; apply Hk, elem_of_app; [by right | by left].
Qed.

Lemma find_contents c c' k :
  contents c' !! k = contents c !! k → find c' k = find c k.
Proof.
  rewrite !contents_lookup. unfold find, map_find.
  destruct (map_ c' !! k), (map_ c !! k); by cbn.
Qed.

Lemma find_absent c k : map_ c !! k = None → find c k = cend c.
Proof. intros Hk. unfold find, map_find. by rewrite Hk. Qed.

Lemma find_present c k : is_Some (map_ c !! k) → find c k = entry_of k.
Proof. intros [nd Hk]. unfold find, map_find. by rewrite Hk. Qed.

(** X6.  [invalidate(k)] on a well-formed cache removes the entry of [k]
    and nothing else: the other entries keep their order in the list and
    their values, [find(k)] is the end cursor afterwards and [find] of any
    other key is what it was, the size goes down by one, and the wait lists
    are the same.  When [k] has no entry the cache is left as it is. *)
Theorem invalidate_removes c l k :
  repr c l →
  ∃ c', invalidate c k = Some c' ∧
        repr c' (base.filter (λ k', k' ≠ k) l) ∧
        contents c' = delete k (contents c) ∧
        find c' k = cend c' ∧
        (∀ k', k' ≠ k → find c' k' = find c k') ∧
        size c' = size c - (if decide (k ∈ l) then 1 else 0) ∧
        same_frame c c' ∧
        (k ∉ l → c' = c).
Proof.
  intros Hr.
  assert (Hpost : ∀ c' l', invalidate c k = Some c' → repr c' l' →
            length l' = length l - (if decide (k ∈ l) then 1 else 0) →
            (k ∉ l → c' = c) →
            ∃ c'', invalidate c k = Some c'' ∧ repr c'' l' ∧
              contents c'' = delete k (contents c) ∧ find c'' k = cend c'' ∧
              (∀ k', k' ≠ k → find c'' k' = find c k') ∧
              size c'' = size c - (if decide (k ∈ l) then 1 else 0) ∧
              same_frame c c'' ∧ (k ∉ l → c'' = c)).
  { intros c' l' E Hr' Hlen Hid. destruct (invalidate_frame _ _ _ E) as [C F].
    exists c'. split; [done|]. split; [done|]. split; [done|]. split.
    { apply find_absent, contents_None. rewrite C. apply lookup_delete_eq. }
    split.
    { intros k' Hne. apply find_contents. rewrite C. by apply lookup_delete_ne. }
    split; [|done].
    by rewrite (repr_size _ _ Hr'), (repr_size _ _ Hr). }
  destruct (decide (k ∈ l)) as [Hin | Hnin].
  - pose proof Hin as Hin'. apply list_elem_of_split in Hin' as (l1 & l2 & ->).
    destruct (remove_repr c l1 k l2 Hr) as (c' & E & Hr' & _).
    rewrite filter_ne_middle by by eapply repr_NoDup.
    apply (Hpost c'); [| done | | done].
    + assert (Hk : is_Some (map_ c !! k)) by by eapply repr_elem.
      destruct Hk as [nd Hk]. unfold invalidate, map_find. by rewrite Hk.
    + rewrite !length_app. cbn. lia.
  - rewrite filter_ne_id by done.
    assert (Hk : map_ c !! k = None).
    { destruct (map_ c !! k) eqn:E; [|done]. exfalso. apply Hnin.
      eapply repr_elem; [done | by eauto]. }
    apply (Hpost c); [| done | lia | done].
    unfold invalidate, map_find. by rewrite Hk.
Qed.

Lemma next_links c x : next c x = links Older c x.
Proof. unfold next, links. by destruct (deref c x). Qed.

Lemma apath_successor f p l1 k l2 q a :
  apath f p (l1 ++ k :: l2) q → a ∈ l1 →
  ∃ y, f (entry_of a) = Some y ∧ y ∈ ptrs (l1 ++ [k]).
Proof.
  revert p. induction l1 as [|a1 l1 IH]; intros p Hp Ha; [by apply elem_of_nil in Ha|].
  rewrite <- app_comm_cons in Hp. destruct Hp as [_ Hp].
  apply elem_of_cons in Ha as [-> | Ha].
  - exists (head_ptr (l1 ++ k :: l2) q). split; [by apply apath_head|].
    rewrite <- app_comm_cons, ptrs_cons. right.
    destruct l1 as [|a2 l1]; cbn; rewrite ?ptrs_cons; by left.
  - destruct (IH _ Hp Ha) as (y & Hy & Hin). exists y. split; [done|].
    rewrite <- app_comm_cons, ptrs_cons. by right.
Qed.

Lemma enforce_limit_within c : size c ≤ limit_ c → enforce_limit c = Some c.
Proof.
  intros Hle. unfold enforce_limit.
  destruct (size c) eqn:E; cbn; rewrite E; by rewrite decide_False by lia.
Qed.

(** X7.  [add_entry] for a key that has an entry already (what a second
    call of the completion lambda of a key does while the key is in the
    Index) stores nothing, the value it is given is dropped, and it links the
    entry in at the head without unlinking it first: the [older_] links then
    run in a circle that does not pass through the sentinel, and the walk
    from [cbegin()] never reaches [cend()]. *)
Theorem add_entry_present_key c l1 k l2 v :
  repr c (l1 ++ k :: l2) →
  length (l1 ++ k :: l2) ≤ limit_ c →
  ∃ c', add_entry c k v = Some (c', entry_of k) ∧
        contents c' = contents c ∧
        cbegin c' = entry_of k ∧
        ∀ n, walk n c' (cbegin c') = None.
Proof.
  intros Hr Hlen. pose proof Hr as [(Hnd & Hin & HO & HN) _].
  assert (Hk : is_Some (map_ c !! k)).
  { apply Hin, elem_of_app. right. by left. }
  set (front := head_ptr (l1 ++ k :: l2) sentinel_ptr).
  assert (Hfront : older_ (sentinel_ c) = front).
  { apply apath_head in HO. by injection HO. }
  assert (Hfront_in : front ∈ ptrs (k :: l1)).
  { unfold front. rewrite ptrs_cons. destruct l1 as [|a l1]; cbn; [by left|].
    right. rewrite ptrs_cons. by left. }
  destruct (set_link_Some Older c (entry_of k) front) as (c1 & E1 & R1 & C1 & F1); [done|].
  destruct (set_link_Some Newer c1 (entry_of k) sentinel_ptr)
    as (c2 & E2 & R2 & C2 & F2); [by apply (same_contents_deref c)|].
  destruct (set_link_Some Newer c2 front (entry_of k)) as (c3 & E3 & R3 & C3 & F3).
  { apply (same_contents_deref c); [congruence|]. by apply head_ptr_deref. }
  destruct (set_link_Some Older c3 sentinel_ptr (entry_of k))
    as (c4 & E4 & R4 & C4 & F4); [by cbn; eauto|].
  assert (HC : contents c4 = contents c) by congruence.
  assert (Hins : insert_at_head c (entry_of k) = Some c4).
  { unfold insert_at_head, set_older, set_newer. rewrite Hfront, E1. cbn.
    rewrite E2. cbn. by rewrite E3. }
  assert (Hlimit : limit_ c4 = limit_ c).
  { destruct F1 as [L1 _], F2 as [L2 _], F3 as [L3 _], F4 as [L4 _]. congruence. }
  assert (Hsize : size c4 = size c).
  { unfold size. rewrite <- !(size_dom (D := gset Key)). f_equal.
    apply set_eq. intros k'. rewrite !elem_of_dom, <- !contents_is_Some. by rewrite HC. }
  exists c4. split; [|split; [done|split]].
  - destruct Hk as [nd Hk]. unfold add_entry, map_emplace. rewrite Hk, Hins. cbn.
    rewrite enforce_limit_within; [done|].
    rewrite Hsize, Hlimit, (repr_size _ _ Hr). done.
  - unfold cbegin. specialize (R4 Older sentinel_ptr). unfold links in R4. cbn in R4.
    rewrite decide_True in R4 by done. by injection R4.
  - assert (Hstep : ∀ x, x ∈ ptrs (k :: l1) → ∃ y, next c4 x = Some y ∧ y ∈ ptrs (k :: l1)).
    { intros x Hx. rewrite next_links, R4, R3, R2, R1.
      assert (Hxs : x ≠ sentinel_ptr).
      { intros ->. by apply sentinel_not_in_ptrs in Hx. }
      rewrite ptrs_cons in Hx. apply elem_of_cons in Hx as [-> | Hx].
      - exists front. split; [link_cases | done].
      - unfold ptrs in Hx. apply list_elem_of_fmap in Hx as (a & -> & Ha).
        destruct (apath_successor _ _ _ _ _ _ a HO Ha) as (y & Hy & Hyin).
        exists y. split.
        + assert (Hne : a ≠ k).
          { intros ->. apply NoDup_app in Hnd as (_ & Hd & _).
            apply (Hd k Ha). by left. }
          rewrite Hy. link_cases.
        + rewrite ptrs_app in Hyin. rewrite ptrs_cons.
          apply elem_of_app in Hyin as [Hyin | Hyin]; [by right|].
          apply list_elem_of_singleton in Hyin as ->. by left. }
    assert (Hloop : ∀ n x, x ∈ ptrs (k :: l1) → walk n c4 x = None).
    { induction n as [|n IH]; intros x Hx.
      - cbn. rewrite decide_False; [done|]. intros ->.
        by apply sentinel_not_in_ptrs in Hx.
      - cbn [walk]. rewrite decide_False.
        + destruct (Hstep x Hx) as (y & -> & Hy). cbn [mbind option_bind].
          by rewrite IH.
        + intros ->. by apply sentinel_not_in_ptrs in Hx. }
    intros n. apply Hloop.
    assert (Hb : cbegin c4 = entry_of k).
    { unfold cbegin. specialize (R4 Older sentinel_ptr). unfold links in R4. cbn in R4.
      rewrite decide_True in R4 by done. by injection R4. }
    rewrite Hb, ptrs_cons. by left.
Qed.

End frames.

Section more_callbacks.

Context (miss_handler : Key → world Key T → prog Key T).
Context (on_reply : reply_id → entry_ptr Key → error_code → world Key T → prog Key T).

Implicit Types (w : world Key T) (r : reply_id) (v : option T) (e : error_code)
  (it : entry_ptr Key) (rs : list reply_id).

Lemma exec_kept n (cl : call Key T) w w' :
  exec miss_handler on_reply n cl w = done w' → kept w w'.
Proof.
  apply exec_rule.
  - apply kept_refl.
  - apply kept_trans.
  - apply kept_reply.
  - apply kept_hit.
  - apply kept_queue.
  - apply kept_miss.
  - apply kept_invalidate.
  - apply kept_flush.
  - apply kept_complete.
Qed.

Lemma run_main_kept n (p : prog Key T) w w' :
  run_main miss_handler on_reply n p w = done w' → kept w w'.
Proof.
  apply run_rule; [apply kept_refl | apply kept_trans |].
  intros cl. apply exec_kept.
Qed.

Lemma run_main_sentinel_value n (p : prog Key T) w w' :
  run_main miss_handler on_reply n p w = done w' →
  value_ (sentinel_ (cache w')) = value_ (sentinel_ (cache w)).
Proof.
  apply (run_main_rule miss_handler on_reply
           (λ w w', value_ (sentinel_ (cache w')) = value_ (sentinel_ (cache w)))).
  - done.
  - intros w1 w2 w3 H12 H23. congruence.
  - done.
  - intros w0 k c1 _ Ht. cbn. unfold touch in Ht.
    destruct (extract (cache w0) (entry_of k)) as [c0|] eqn:E1; [|done]. cbn in Ht.
    apply extract_sentinel_value in E1. apply insert_at_head_sentinel_value in Ht.
    congruence.
  - done.
  - intros w0 k r _ Hp. cbn. unfold pending_emplace. by rewrite Hp.
  - intros w0 k c1 Hi. cbn. unfold invalidate, map_find in Hi.
    destruct (map_ (cache w0) !! k).
    + by apply remove_sentinel_value in Hi.
    + by injection Hi as <-.
  - done.
  - intros w0 k v c1 it w2 _ Hs _ H12. cbn in *.
    apply store_result_sentinel_value in Hs. rewrite H12, Hs. done.
Qed.

(** What holds of the cache once a client program run on the empty cache
    has returned. *)
Lemma run_main_new_world limit n (p : prog Key T) w' :
  run_main miss_handler on_reply n p (new_world limit) = done w' →
  inv (cache w') ∧ valued (cache w') ∧ wait_lists_nonempty (cache w') ∧
  value_ (sentinel_ (cache w')) = None ∧
  (∀ k, is_Some (pending_replies_ (cache w') !! k) → k ∈ completions_ (cache w')).
Proof.
  intros Hrun.
  destruct (run_main_preserved _ _ _ _ _ _ Hrun (inv_new_cache limit)) as (Hi & _).
  destruct (run_main_kept _ _ _ _ Hrun) as (V & N & D & _).
  split; [done|]. split; [|split; [|split]].
  - apply V. intros k v. unfold contents. cbn. by rewrite fmap_empty, lookup_empty.
  - apply N. intros k rs. cbn. by rewrite lookup_empty.
  - by rewrite (run_main_sentinel_value _ _ _ _ Hrun).
  - intros k Hk. destruct (decide (k ∈ completions_ (cache w'))) as [|Hc]; [done|].
    destruct (D k Hk Hc) as [Hp _]. cbn in Hp. rewrite lookup_empty in Hp.
    by destruct Hp.
Qed.

(** X1.  The fetch function is only ever called for a key that has no
    entry and no fetch outstanding: at each of its calls, in any client
    program run on any cache, the key is not in the Index and its wait list
    has just been created, holding the one reply of the [get] that misses. *)
Theorem fetches_are_fresh n (p : prog Key T) w w' :
  run_main miss_handler on_reply n p w = done w' →
  ∃ evs, log w' = log w ++ evs ∧
         ∀ k seen, fetch_called k seen ∈ evs →
                   map_ seen !! k = None ∧
                   (∃ r, pending_replies_ seen !! k = Some [r]) ∧
                   k ∈ completions_ seen.
Proof.
  intros Hrun. destruct (run_main_kept _ _ _ _ Hrun) as (_ & _ & _ & evs & Hlog & Hf).
  exists evs. split; [done|]. intros k seen Hin.
  rewrite Forall_forall in Hf. apply (Hf _ Hin).
Qed.

(** X2.  Once a client program run on the empty cache has returned, a
    key has a wait list exactly when its fetch is outstanding; such a key has
    no entry; and no wait list is empty. *)
Theorem wait_lists_match_fetches limit n (p : prog Key T) w' k :
  run_main miss_handler on_reply n p (new_world limit) = done w' →
  (is_Some (pending_replies_ (cache w') !! k) ↔ k ∈ completions_ (cache w')) ∧
  (k ∈ completions_ (cache w') → map_ (cache w') !! k = None) ∧
  (∀ rs, pending_replies_ (cache w') !! k = Some rs → rs ≠ []).
Proof.
  intros Hrun.
  destruct (run_main_new_world _ _ _ _ Hrun) as ([_ [Hcp Hcm]] & _ & Hn & _ & Hs).
  split; [split; [apply Hs | apply Hcp]|]. split; [apply Hcm | apply Hn].
Qed.

(** X3.  Once a client program run on the empty cache has returned,
    every entry holds a value and the end cursor holds none: [dump_cache]
    from [cbegin()] to [cend()] prints, most recently used first, the value
    of each entry of the Index, [size()] lines in all, and dereferencing
    [cend()] is undefined. *)
Theorem dump_cache_prints limit n (p : prog Key T) w' :
  run_main miss_handler on_reply n p (new_world limit) = done w' →
  ∃ l vs,
    traversal (cache w') = Some (ptrs l) ∧
    Forall2 (λ k t, contents (cache w') !! k = Some (Some t)) l vs ∧
    length vs = size (cache w') ∧
    (∀ m, size (cache w') ≤ m →
          dump_cache m (cache w') (cbegin (cache w')) (cend (cache w')) = Some vs) ∧
    iterator_value (cache w') (cend (cache w')) = None.
Proof.
  intros Hrun.
  destruct (run_main_new_world _ _ _ _ Hrun) as ([(l & Hr & _) _] & Hv & _ & Hs & _).
  destruct (values_exist _ _ Hr Hv) as [vs Hvs].
  exists l, vs. split; [by apply traversal_repr|]. split; [done|].
  split; [by rewrite (repr_size _ _ Hr), (Forall2_length _ _ _ Hvs)|]. split.
  - intros m Hm. rewrite (repr_cbegin _ _ Hr).
    rewrite (repr_size _ _ Hr) in Hm.
    destruct Hr as [(_ & _ & HO & _) _].
    by apply (dump_cache_apath _ _ sentinel_ptr).
  - unfold iterator_value. cbn. by rewrite Hs.
Qed.

(** X4.  [list_integrity_check] of the tests returns true on every cache
    a client program run on the empty cache has returned with. *)
Theorem list_integrity_check_passes limit n (p : prog Key T) w' :
  run_main miss_handler on_reply n p (new_world limit) = done w' →
  list_integrity_check (cache w') = Some true.
Proof.
  intros Hrun.
  destruct (run_main_new_world _ _ _ _ Hrun) as ([(l & Hr & _) _] & _).
  by eapply list_integrity_check_repr.
Qed.

Lemma calls_cons n (cl : call Key T) cs w w1 :
  exec miss_handler on_reply n cl w = done w1 →
  run_main miss_handler on_reply n (calls (cl :: cs)) w =
  run_main miss_handler on_reply n (calls cs) w1.
Proof. intros E. unfold run_main. cbn [calls run]. by rewrite E. Qed.

Lemma get_deferred n k r w :
  map_ (cache w) !! k = None →
  pending_replies_ (cache w) !! k = None →
  deferred miss_handler k →
  let c1 := issue k (push_back k r (pending_emplace k (cache w))) in
  exec miss_handler on_reply (S n) (call_get k r) w =
    done (record (with_cache w c1) (fetch_called k c1)) ∧
  map_ c1 = map_ (cache w) ∧
  sentinel_ c1 = sentinel_ (cache w) ∧
  limit_ c1 = limit_ (cache w) ∧
  pending_replies_ c1 = <[k := [r]]> (pending_replies_ (cache w)) ∧
  completions_ c1 = {[k]} ∪ completions_ (cache w).
Proof.
  intros Hk Hp Hdef c1.
  assert (Hp1 : pending_replies_ c1 = <[k := [r]]> (pending_replies_ (cache w)))
    by by apply miss_pending.
  split.
  { rewrite get_fresh by done. unfold invoke_miss_handler. by rewrite Hdef. }
  unfold c1, pending_emplace in *. rewrite Hp in *. by repeat split.
Qed.

(** X8.  Invalidate, or flush, and then fetch again: after
    [invalidate(k)] or [flush()], [get(k, r)] of a key with no fetch
    outstanding is a miss and calls the fetch function for [k], whether or
    not [k] had an entry before; [r] waits for this new fetch. *)
Theorem refetch_after_removal w k r (cl : call Key T) :
  inv (cache w) →
  pending_replies_ (cache w) !! k = None →
  cl = call_invalidate k ∨ cl = call_flush →
  deferred miss_handler k →
  ∃ w' seen,
    (∀ n, run_main miss_handler on_reply (S n) (calls [cl; call_get k r]) w = done w') ∧
    log w' = log w ++ [fetch_called k seen] ∧
    map_ seen !! k = None ∧
    pending_replies_ (cache w') !! k = Some [r] ∧
    k ∈ completions_ (cache w').
Proof.
  intros Hi Hp Hcl Hdef.
  assert (Hfirst : ∃ c', flushed_or_invalidated (cache w) c' ∧ map_ c' !! k = None ∧
            ∀ n, exec miss_handler on_reply (S n) cl w = done (with_cache w c')).
  { destruct Hcl as [-> | ->].
    - pose proof Hi as [(l & Hr & _) _].
      destruct (invalidate_repr _ _ k Hr) as (c' & l' & E & _ & _ & C & _).
      exists c'. split; [right; by exists k|]. split.
      + apply contents_None. rewrite C. apply lookup_delete_eq.
      + intros n. cbn. by rewrite E.
    - exists (flush (cache w)). split; [by left|]. split; [done|]. by intros n. }
  destruct Hfirst as (c' & Hc' & Hk & Hex).
  destruct (flushed_or_invalidated_inv _ _ Hi Hc') as (_ & _ & Fp & _).
  destruct (get_deferred 0 k r (with_cache w c')) as (_ & Hm & _ & _ & Hp1 & Hc1);
    [done | cbn; by rewrite Fp | done |].
  set (c1 := issue k (push_back k r (pending_emplace k (cache (with_cache w c'))))) in *.
  exists (record (with_cache (with_cache w c') c1) (fetch_called k c1)), c1.
  split; [|split; [reflexivity|split; [|split]]].
  - intros n. rewrite (calls_cons _ _ _ _ _ (Hex n)).
    rewrite (calls_cons _ (call_get k r) [] (with_cache w c')
               (record (with_cache (with_cache w c') c1) (fetch_called k c1)));
      [reflexivity|].
    apply get_deferred; [done | cbn; by rewrite Fp | done].
  - cbn in *. by rewrite Hm.
  - cbn in *. by rewrite Hp1, lookup_insert_eq.
  - cbn in *. rewrite Hc1. set_solver.
Qed.

(** X9.  A failed fetch is not remembered: when the fetch of [k]
    completes with no value and an error (a non-zero code, as
    [expect_error] checks), the waiters get the end cursor and the error,
    the Index is as before, and the next [get(k, r)] is a miss that calls the
    fetch function again. *)
Theorem failure_not_cached w k e rs r :
  inv (cache w) →
  k ∈ completions_ (cache w) →
  pending_replies_ (cache w) !! k = Some rs →
  (∀ r', r' ∈ rs → silent on_reply r') →
  deferred miss_handler k →
  ec_value e ≠ 0%Z →
  ∃ w' seen,
    (∀ n, run_main miss_handler on_reply (S n)
            (calls [call_complete k None e; call_get k r]) w = done w') ∧
    log w' = log w ++ replies_to rs (cend (cache w)) e (consume k (cache w))
                   ++ [fetch_called k seen] ∧
    expect_error (consume k (cache w)) (cend (cache w)) e = true ∧
    contents (cache w') = contents (cache w) ∧
    pending_replies_ (cache w') !! k = Some [r] ∧
    k ∈ completions_ (cache w').
Proof.
  intros Hi Hk Hp Hs Hdef He.
  destruct (complete_silent miss_handler on_reply k None e w rs Hi Hk Hp Hs)
    as (c0 & E & Hex).
  cbn in E. injection E as <-.
  set (w1 := {| cache := pending_erase k (consume k (cache w));
                log := log w ++ replies_to rs sentinel_ptr e (consume k (cache w)) |}) in *.
  assert (Hm1 : map_ (cache w1) !! k = None).
  { cbn. destruct Hi as [_ [_ Hcm]]. by apply Hcm. }
  assert (Hp1 : pending_replies_ (cache w1) !! k = None) by (cbn; apply lookup_delete_eq).
  destruct (get_deferred 0 k r w1 Hm1 Hp1 Hdef) as (_ & Hm & _ & _ & Hpp & Hc).
  set (c2 := issue k (push_back k r (pending_emplace k (cache w1)))) in *.
  exists (record (with_cache w1 c2) (fetch_called k c2)), c2.
  split; [|split; [|split; [|split; [|split]]]].
  - intros n. rewrite (calls_cons _ _ _ _ _ (Hex n)).
    rewrite (calls_cons _ (call_get k r) [] w1
               (record (with_cache w1 c2) (fetch_called k c2))); [reflexivity|].
    by apply get_deferred.
  - cbn. by rewrite <- app_assoc.
  - unfold expect_error. cbn. by rewrite decide_False.
  - unfold contents. cbn in *. by rewrite Hm.
  - cbn in *. by rewrite Hpp, lookup_insert_eq.
  - cbn in *. rewrite Hc. set_solver.
Qed.

(** X10.  The cursor the waiters of a successful fetch are called with.
    When the limit is not 0 it is the cursor of the new entry: it
    dereferences to the fetched value and [find(k)] returns it.  When the
    limit is 0 the entry has been evicted before any waiter is called: the
    cursor is not the end cursor, yet it has no entry behind it, so that
    dereferencing it is undefined, and [find(k)] is the end cursor. *)
Theorem cursor_after_completion w k (t : T) e rs :
  inv (cache w) →
  k ∈ completions_ (cache w) →
  pending_replies_ (cache w) !! k = Some rs →
  (∀ r, r ∈ rs → silent on_reply r) →
  ∃ c1,
    (∀ n, exec miss_handler on_reply (S n) (call_complete k (Some t) e) w =
          done {| cache := pending_erase k c1;
                  log := log w ++ replies_to rs (entry_of k) e c1 |}) ∧
    (0 < limit_ (cache w) →
     iterator_value c1 (entry_of k) = Some t ∧ find c1 k = entry_of k) ∧
    (limit_ (cache w) = 0 →
     iterator_value c1 (entry_of k) = None ∧ find c1 k = cend c1 ∧
     entry_of k ≠ cend c1 ∧ size c1 = 0).
Proof.
  intros Hi Hk Hp Hs. pose proof Hi as [(l & Hr & Hlen) Hco].
  destruct (store_result_inv _ _ k (Some t) Hr Hco Hk) as (c1 & E & Hr1 & C & F & _).
  assert (Hp1 : pending_replies_ c1 !! k = Some rs).
  { destruct F as (_ & -> & _). done. }
  exists c1. split; [|split].
  - intros n.
    rewrite (complete_unfold miss_handler on_reply n k (Some t) e w c1 rs) by done.
    by rewrite drain_silent.
  - intros Hlim. destruct (limit_ (cache w)) as [|m]; [lia|].
    rewrite firstn_cons in Hr1, C.
    assert (Hc1 : contents c1 !! k = Some (Some t)).
    { rewrite C by by left. by rewrite lookup_insert_eq. }
    split; [by apply iterator_value_contents|].
    apply find_present, contents_is_Some. by eauto.
  - intros Hlim. rewrite Hlim in Hr1. cbn in Hr1.
    assert (Hk1 : map_ c1 !! k = None).
    { destruct (map_ c1 !! k) eqn:Ek; [|done]. exfalso.
      assert (Hin : k ∈ @nil Key) by (eapply repr_elem; [done | by eauto]).
      by apply elem_of_nil in Hin. }
    split; [by apply iterator_value_absent|]. split; [by apply find_absent|].
    split; [done|]. by rewrite (repr_size _ _ Hr1).
Qed.

(** X11.  An entry that has just been used is not the one evicted: on a
    cache of limit 2 or more, after a hit on [k], the fetch of a new key
    [k'] puts [k'] at the head, [k] right behind it, and evicts from the
    tail of the other entries; [k] is still found. *)
Theorem touched_entry_survives w l1 k l2 k' r r' (t : T) e :
  inv (cache w) →
  repr (cache w) (l1 ++ k :: l2) →
  2 ≤ limit_ (cache w) →
  map_ (cache w) !! k' = None →
  pending_replies_ (cache w) !! k' = None →
  deferred miss_handler k' →
  silent on_reply r → silent on_reply r' →
  ∃ w',
    (∀ n, run_main miss_handler on_reply (S n)
            (calls [call_get k r; call_get k' r'; call_complete k' (Some t) e]) w
          = done w') ∧
    repr (cache w') (take (limit_ (cache w)) (k' :: k :: l1 ++ l2)) ∧
    cbegin (cache w') = entry_of k' ∧
    find (cache w') k = entry_of k.
Proof.
  intros Hi Hr Hlim Hk' Hp' Hdef Hs Hs'.
  destruct (touch_repr _ _ _ _ Hr) as (c1 & Ht & Hr1 & C1 & F1 & Fp1 & Fc1).
  assert (Hin : is_Some (map_ (cache w) !! k)).
  { eapply repr_elem; [done|]. apply elem_of_app. right. by left. }
  set (w1 := record (with_cache w c1) (reply_called r (entry_of k) no_error c1)).
  assert (Hex1 : ∀ n, exec miss_handler on_reply (S n) (call_get k r) w = done w1).
  { intros n. rewrite (get_hit _ _ n k r w c1) by done.
    unfold invoke_reply. by rewrite Hs. }
  assert (Hi1 : inv (cache w1)) by by apply (exec_preserved _ _ _ _ _ _ (Hex1 0)).
  assert (Hk1 : map_ (cache w1) !! k' = None) by by apply (same_contents_None (cache w)).
  assert (Hp1 : pending_replies_ (cache w1) !! k' = None) by (cbn; by rewrite Fp1).
  destruct (get_deferred 0 k' r' w1 Hk1 Hp1 Hdef) as (Hex2 & Hm2 & Hs2 & Hl2 & Hp2 & Hc2).
  set (c2 := issue k' (push_back k' r' (pending_emplace k' (cache w1)))) in *.
  set (w2 := record (with_cache w1 c2) (fetch_called k' c2)) in *.
  assert (Hi2 : inv (cache w2)) by by apply (exec_preserved _ _ _ _ _ _ Hex2).
  destruct (complete_value_silent miss_handler on_reply w2 (k :: l1 ++ l2) k' t e [r'])
    as (c3 & Hex3 & Hr3 & Fl3 & _).
  { by apply (repr_ext c1). }
  { apply Hi2. }
  { change (k' ∈ completions_ c2). rewrite Hc2. set_solver. }
  { change (pending_replies_ c2 !! k' = Some [r']). by rewrite Hp2, lookup_insert_eq. }
  { by intros r0 ->%list_elem_of_singleton. }
  change (limit_ (cache w2)) with (limit_ c2) in Hr3.
  rewrite Hl2 in Hr3. change (limit_ (cache w1)) with (limit_ c1) in Hr3.
  rewrite F1 in Hr3.
  assert (Hr4 : repr (pending_erase k' c3)
                  (take (limit_ (cache w)) (k' :: k :: l1 ++ l2)))
    by by apply (repr_ext c3).
  eexists. split; [|split; [|split]].
  - intros n. rewrite (calls_cons _ _ _ _ _ (Hex1 n)).
    rewrite (calls_cons _ (call_get k' r') _ w1 w2);
      [|by apply get_deferred].
    rewrite (calls_cons _ _ [] _ _ (Hex3 n)). reflexivity.
  - exact Hr4.
  - destruct (limit_ (cache w)) as [|[|m]]; [lia | lia |].
    rewrite firstn_cons in Hr4. exact (repr_cbegin _ _ Hr4).
  - apply find_present. eapply (repr_elem (pending_erase k' c3)); [exact Hr4|].
    destruct (limit_ (cache w)) as [|[|m]]; [lia | lia |].
    rewrite !firstn_cons. right. by left.
Qed.

(** X14.  A waiter that calls [get(k, r)] for the key whose waiters are
    being called, while [k] has no entry (the fetch brought no value, or the
    limit is 0 and the new entry has been evicted), appends [r] to the very
    vector the loop is walking: the iterators of the loop are invalid when
    the waiter returns, and the completion is undefined. *)
Theorem reentrant_append_undefined w k v e r0 rs r :
  inv (cache w) →
  k ∈ completions_ (cache w) →
  pending_replies_ (cache w) !! k = Some (r0 :: rs) →
  v = None ∨ limit_ (cache w) = 0 →
  (∀ it err w1, on_reply r0 it err w1 = bind_call (call_get k r) (λ _, ret)) →
  ∃ c1,
    store_result (consume k (cache w)) k v = Some (c1, result_cursor k v) ∧
    map_ c1 !! k = None ∧
    iterators_valid k (r0 :: rs) (push_back k r c1) = false ∧
    ∀ n, exec miss_handler on_reply (S (S n)) (call_complete k v e) w = undefined.
Proof.
  intros Hi Hk Hp Hv Hre. pose proof Hi as [(l & Hr & Hlen) Hco].
  destruct (store_result_inv _ _ k v Hr Hco Hk) as (c1 & E & Hr1 & _ & F & _).
  assert (Hp1 : pending_replies_ c1 !! k = Some (r0 :: rs)).
  { destruct F as (_ & -> & _). done. }
  assert (Hm1 : map_ c1 !! k = None).
  { destruct v as [t|].
    - destruct Hv as [Hv|Hv]; [done|]. rewrite Hv in Hr1. cbn in Hr1.
      destruct (map_ c1 !! k) eqn:Ek; [|done]. exfalso.
      assert (Hin : k ∈ @nil Key) by (eapply repr_elem; [done | by eauto]).
      by apply elem_of_nil in Hin.
    - cbn in E. injection E as <-. destruct Hco as [_ Hcm]. by apply Hcm. }
  assert (Hinv : iterators_valid k (r0 :: rs) (push_back k r c1) = false).
  { unfold iterators_valid. apply bool_decide_eq_false_2.
    rewrite (push_back_insert _ _ _ (r0 :: rs)) by done. cbn.
    rewrite lookup_insert_eq. intros [= Heq].
    apply (f_equal length) in Heq. rewrite length_app in Heq. cbn in Heq. lia. }
  exists c1. split; [done|]. split; [done|]. split; [done|]. intros n.
  rewrite (complete_unfold miss_handler on_reply (S n) k v e w c1 (r0 :: rs)) by done.
  unfold drain. cbn [drain_loop]. unfold invoke_reply. rewrite Hre. cbn [run].
  rewrite get_queued; [|done|by exists (r0 :: rs)].
  cbn [run with_cache record cache]. by rewrite Hinv.
Qed.

End more_callbacks.

(** X5.  [list_integrity_check] is a sound check, on any cache: when it
    returns true, the walk from [cbegin()] reaches [cend()] after exactly
    [size()] entries, and [check_linkage] holds on every one of them. *)
Theorem list_integrity_check_sound c :
  list_integrity_check c = Some true →
  ∃ ps, traversal c = Some ps ∧ length ps = size c ∧
        ∀ it, it ∈ ps → check_linkage c it = Some true.
Proof.
  unfold list_integrity_check.
  destruct (list_integrity_loop (S (size c)) c 0 (cbegin c)) as [[[|] cnt]|] eqn:E;
    [|done|done].
  intros [= Hcnt]. apply bool_decide_eq_true_1 in Hcnt.
  destruct (list_integrity_loop_sound _ _ _ _ _ E (size c)) as (ps & Hwalk & Hlen & Hall);
    [lia|].
  exists ps. split; [done|]. split; [lia | done].
Qed.

Section value_check_proofs.

Context `{EqDecision T}.

Lemma list_check_loop_apath c n p l vs (expected : list T) result count :
  apath (links Older c) p l sentinel_ptr →
  Forall2 (λ k t, contents c !! k = Some (Some t)) l vs →
  count + length l ≤ length expected →
  length l ≤ n →
  list_check_loop n c expected result count (head_ptr l sentinel_ptr) =
  Some (result && bool_decide (vs = take (length l) (drop count expected)),
        count + length l).
Proof.
  revert n p vs result count.
  induction l as [|k l IH]; intros n p vs result count Hp Hvs Hcount Hn.
  - apply Forall2_nil_inv_l in Hvs as ->.
    destruct n; cbn; rewrite decide_True by done;
      rewrite bool_decide_eq_true_2 by done; do 2 f_equal;
      [by destruct result | lia | by destruct result | lia].
  - apply Forall2_cons_inv_l in Hvs as (t & vs' & Ht & Hvs' & ->).
    destruct n as [|n]; [cbn in Hn; lia|].
    destruct Hp as [_ Hl]. cbn [list_check_loop head_ptr].
    rewrite decide_False by done.
    rewrite (iterator_value_contents _ _ _ Ht). cbn [mbind option_bind].
    destruct (lookup_lt_is_Some_2 expected count) as [e He]; [cbn in Hcount; lia|].
    rewrite He. cbn [mbind option_bind].
    rewrite (decide_False (P := length expected < S count)) by (cbn in Hcount; lia).
    rewrite (next_apath _ _ _ _ Hl). cbn [mbind option_bind].
    rewrite (IH n (entry_of k) vs'); [| done | done | cbn in *; lia | cbn in *; lia].
    rewrite (drop_S _ _ _ He). cbn [length]. rewrite firstn_cons.
    f_equal. f_equal; [|lia].
    case_decide as Hte.
    + subst e. destruct result; [|done]. cbn.
      apply bool_decide_ext. split; [by intros -> | by intros [= ->]].
    + destruct result; cbn; symmetry; [|done].
      apply bool_decide_eq_false_2. by intros [= ? ?].
Qed.

Lemma list_check_loop_overrun c n p l vs (expected : list T) result count :
  apath (links Older c) p l sentinel_ptr →
  Forall2 (λ k t, contents c !! k = Some (Some t)) l vs →
  count ≤ length expected →
  length expected < count + length l →
  length expected - count < n →
  list_check_loop n c expected result count (head_ptr l sentinel_ptr) = None.
Proof.
  revert n p vs result count.
  induction l as [|k l IH]; intros n p vs result count Hp Hvs Hcount Hlong Hn.
  - cbn in Hlong. lia.
  - apply Forall2_cons_inv_l in Hvs as (t & vs' & Ht & Hvs' & ->).
    destruct n as [|n]; [lia|].
    destruct Hp as [_ Hl]. cbn [list_check_loop head_ptr].
    rewrite decide_False by done.
    rewrite (iterator_value_contents _ _ _ Ht). cbn [mbind option_bind].
    destruct (expected !! count) as [e|] eqn:He; cbn [mbind option_bind]; [|done].
    apply lookup_lt_Some in He.
    rewrite (decide_False (P := length expected < S count)) by lia.
    rewrite (next_apath _ _ _ _ Hl). cbn [mbind option_bind].
    apply (IH n (entry_of k) vs'); [done | done | lia | cbn in Hlong; lia | lia].
Qed.

(** X13.  [list_check(expected)] on a well-formed cache whose entries, from
    the most recently used, hold the values [vs]: when the cache has no
    more entries than [expected] has elements, it returns whether [vs] and
    [expected] are the same sequence; when the cache has more entries, it
    reads [expected[expected.size()]], past the end of the vector, before
    it compares the count with [expected.size()]. *)
Theorem list_check_decides c l vs (expected : list T) :
  repr c l →
  Forall2 (λ k t, contents c !! k = Some (Some t)) l vs →
  (length l ≤ length expected →
   list_check c expected = Some (bool_decide (vs = expected))) ∧
  (length expected < length l → list_check c expected = None).
Proof.
  intros Hr Hvs. pose proof Hr as [(_ & _ & HO & _) _].
  pose proof (Forall2_length _ _ _ Hvs) as Hlen.
  unfold list_check. rewrite (repr_cbegin _ _ Hr). split; intros Hle.
  - rewrite (list_check_loop_apath c _ sentinel_ptr l vs); [|done|done|lia|lia].
    cbn [andb plus]. rewrite drop_0. f_equal.
    case_bool_decide as Hpre.
    + apply bool_decide_ext. split.
      * intros Heq. rewrite Heq, firstn_all in Hpre. done.
      * intros ->. lia.
    + symmetry. apply bool_decide_eq_false_2. intros ->.
      apply Hpre. rewrite Hlen. by rewrite firstn_all.
  - by rewrite (list_check_loop_overrun c _ sentinel_ptr l vs);
      [|done|done|lia|lia|lia].
Qed.

Context (miss_handler : Key → world Key T → prog Key T).
Context (on_reply : reply_id → entry_ptr Key → error_code → world Key T → prog Key T).

(** X12.  A fetched value is served from the cache: on a cache whose limit
    is not 0, after the fetch of [k] has completed with the value [t],
    [get(k, r)] calls no fetch function; it calls [r] at once with a cursor
    on which [expect_value(cursor, t)] holds, as it held for the waiters of
    the fetch. *)
Theorem fetched_value_is_served w k (t : T) e rs r :
  inv (cache w) →
  0 < limit_ (cache w) →
  k ∈ completions_ (cache w) →
  pending_replies_ (cache w) !! k = Some rs →
  (∀ r', r' ∈ rs → silent on_reply r') →
  silent on_reply r →
  ∃ w' c1 c2,
    (∀ n, run_main miss_handler on_reply (S n)
            (calls [call_complete k (Some t) e; call_get k r]) w = done w') ∧
    log w' = log w ++ replies_to rs (entry_of k) e c1
                   ++ [reply_called r (entry_of k) no_error c2] ∧
    cache w' = c2 ∧
    expect_value c1 (entry_of k) t = Some true ∧
    expect_value c2 (entry_of k) t = Some true.
Proof.
  intros Hi Hlim Hk Hp Hs Hsr. pose proof Hi as [(l & Hr & Hlen) Hco].
  destruct (store_result_inv _ _ k (Some t) Hr Hco Hk) as (c1 & E & Hr1 & C & F & _).
  destruct (limit_ (cache w)) as [|m] eqn:Hm; [lia|].
  rewrite firstn_cons in Hr1, C.
  assert (Hc1 : contents c1 !! k = Some (Some t)).
  { rewrite C by by left. by rewrite lookup_insert_eq. }
  set (w1 := {| cache := pending_erase k c1;
                log := log w ++ replies_to rs (entry_of k) e c1 |}).
  assert (Hex1 : ∀ n, exec miss_handler on_reply (S n) (call_complete k (Some t) e) w
                      = done w1).
  { assert (Hp1 : pending_replies_ c1 !! k = Some rs).
    { destruct F as (_ & -> & _). done. }
    intros n.
    rewrite (complete_unfold miss_handler on_reply n k (Some t) e w c1 rs) by done.
    by rewrite drain_silent. }
  assert (Hr1' : repr (cache w1) ([] ++ k :: take m l)) by by apply (repr_ext c1).
  destruct (touch_repr _ _ _ _ Hr1') as (c2 & Ht & Hr2 & C2 & F2).
  assert (Hc2 : contents c2 !! k = Some (Some t)) by by rewrite C2.
  assert (Hin : is_Some (map_ (cache w1) !! k)).
  { apply (repr_elem _ _ _ Hr1'). by left. }
  exists (record (with_cache w1 c2) (reply_called r (entry_of k) no_error c2)), c1, c2.
  split; [|split; [|split; [|split]]].
  - intros n. rewrite (calls_cons _ _ _ _ _ _ _ (Hex1 n)).
    rewrite (calls_cons miss_handler on_reply _ (call_get k r) [] w1
               (record (with_cache w1 c2) (reply_called r (entry_of k) no_error c2)));
      [reflexivity|].
    rewrite (get_hit _ _ n k r w1 c2) by done.
    unfold invoke_reply. by rewrite Hsr.
  - cbn. by rewrite <- app_assoc.
  - done.
  - unfold expect_value. rewrite decide_False by done.
    rewrite (iterator_value_contents _ _ _ Hc1). cbn.
    by rewrite bool_decide_eq_true_2.
  - unfold expect_value. rewrite decide_False by done.
    rewrite (iterator_value_contents _ _ _ Hc2). cbn.
    by rewrite bool_decide_eq_true_2.
Qed.

End value_check_proofs.

End proofs.

(** * The claims on the cache of the tests *)

Lemma filled_world_run :
  run_main deferred_miss_handler silent_reply 1 (inserts fill_0_3) (new_world 5)
  = done filled_world.
Proof. vm_compute. reflexivity. Qed.

Lemma busy_world_run :
  run_main deferred_miss_handler silent_reply 1 (gets 7 [1; 2]) filled_world
  = done busy_world.
Proof. vm_compute. reflexivity. Qed.

Lemma lru_order_run :
  run_main test_miss_handler silent_reply 3 lru_order_test (new_world 5)
  = done lru_order_world.
Proof. vm_compute. reflexivity. Qed.

Lemma completed_world_run :
  exec deferred_miss_handler silent_reply 1 (call_complete 7 (Some 42) no_error)
    busy_world = done completed_world.
Proof. vm_compute. reflexivity. Qed.

Lemma hit_world_run :
  exec deferred_miss_handler silent_reply 1 (call_get 7 8) stored_world = done hit_world.
Proof. vm_compute. reflexivity. Qed.

Lemma fill_0_3_NoDup : NoDup (inserted_keys fill_0_3).
Proof. apply (bool_decide_unpack _). vm_compute. exact I. Qed.

Lemma all_deferred (k : nat) : deferred deferred_miss_handler k.
Proof. intros w. reflexivity. Qed.

Lemma all_silent (r : reply_id) : silent silent_reply r.
Proof. intros it e w. reflexivity. Qed.

Lemma all_silent_in (rs : list reply_id) (r : reply_id) : r ∈ rs → silent silent_reply r.
Proof. intros _. apply all_silent. Qed.

Lemma filled_world_absent : map_ (cache filled_world) !! 7 = None.
Proof. vm_compute. reflexivity. Qed.

Lemma filled_world_idle : pending_replies_ (cache filled_world) !! 7 = None.
Proof. vm_compute. reflexivity. Qed.

Lemma filled_world_repr : repr (cache filled_world) [2; 1; 0].
Proof.
  destruct (inserts_repr deferred_miss_handler silent_reply fill_0_3 (new_world 5) [])
    as (w' & Hrun & Hr & _).
  - apply new_cache_repr.
  - reflexivity.
  - reflexivity.
  - apply fill_0_3_NoDup.
  - intros k _ Hk. by apply elem_of_nil in Hk.
  - cbn. lia.
  - intros k _. apply all_deferred.
  - intros r _. apply all_silent.
  - pose proof (eq_trans (eq_sym (Hrun 0)) filled_world_run) as Heq.
    apply done_inj in Heq. subst w'. exact Hr.
Qed.

Lemma full_world_run :
  run_main deferred_miss_handler silent_reply 1 (inserts fill_0_3) (new_world 3)
  = done full_world.
Proof. vm_compute. reflexivity. Qed.

Lemma full_world_repr : repr (cache full_world) [2; 1; 0].
Proof.
  destruct (inserts_repr deferred_miss_handler silent_reply fill_0_3 (new_world 3) [])
    as (w' & Hrun & Hr & _).
  - apply new_cache_repr.
  - reflexivity.
  - reflexivity.
  - apply fill_0_3_NoDup.
  - intros k _ Hk. by apply elem_of_nil in Hk.
  - cbn. lia.
  - intros k _. apply all_deferred.
  - intros r _. apply all_silent.
  - pose proof (eq_trans (eq_sym (Hrun 0)) full_world_run) as Heq.
    apply done_inj in Heq. subst w'. exact Hr.
Qed.

Lemma full_world_absent : map_ (cache full_world) !! 7 = None.
Proof. vm_compute. reflexivity. Qed.

Lemma full_world_limit : limit_ (cache full_world) = 3.
Proof. vm_compute. reflexivity. Qed.

Lemma filled_world_inv : inv (cache filled_world).
Proof.
  apply (run_main_preserved _ _ _ _ _ _ filled_world_run). apply inv_new_cache.
Qed.

Lemma busy_world_inv : inv (cache busy_world).
Proof.
  apply (run_main_preserved _ _ _ _ _ _ busy_world_run). apply filled_world_inv.
Qed.

Lemma busy_world_fetching : 7 ∈ completions_ (cache busy_world).
Proof. apply (bool_decide_unpack _). vm_compute. exact I. Qed.

Lemma busy_world_waiting : pending_replies_ (cache busy_world) !! 7 = Some [1; 2].
Proof. vm_compute. reflexivity. Qed.

Lemma stored_world_store :
  store_result (consume 7 (cache busy_world)) 7 (Some 42)
  = Some (cache stored_world, entry_of 7).
Proof. vm_compute. reflexivity. Qed.

Lemma stored_world_draining : inv (cache stored_world) ∧ draining 7 (cache stored_world).
Proof.
  destruct (store_result_draining _ _ _ _ _ busy_world_inv busy_world_fetching
              stored_world_store) as (Hi & Hd & _).
  by split.
Qed.

Lemma stored_world_present : is_Some (map_ (cache stored_world) !! 7).
Proof. apply (bool_decide_unpack _). vm_compute. exact I. Qed.

Lemma reply_8_silent : silent reentrant_reply 8.
Proof. intros it e w. reflexivity. Qed.

Lemma reentered_world_run :
  exec deferred_miss_handler reentrant_reply 2 (call_complete 7 (Some 42) no_error)
    busy_world = done reentered_world.
Proof. vm_compute. reflexivity. Qed.

(** C1 on the cache of the tests: two [get(7)] and then the completion
    make one call of the fetch function. *)
Lemma coalescing_witness :
  inv (cache filled_world) ∧
  map_ (cache filled_world) !! 7 = None ∧
  pending_replies_ (cache filled_world) !! 7 = None ∧
  deferred deferred_miss_handler 7 ∧
  ∃ w2, exec deferred_miss_handler silent_reply 1 (call_complete 7 (Some 42) no_error)
          busy_world = done w2 ∧
        fetch_count 7 (drop (length (log filled_world)) (log w2)) = 1 ∧
        pending_replies_ (cache busy_world) !! 7 = Some [1; 2].
Proof.
  split; [apply filled_world_inv|]. split; [apply filled_world_absent|].
  split; [apply filled_world_idle|]. split; [apply all_deferred|].
  destruct (coalescing deferred_miss_handler silent_reply filled_world 7 1 [2]
              (Some 42) no_error filled_world_inv filled_world_absent
              filled_world_idle (all_deferred 7))
    as (w1 & seen & Hrun & Hlog & Hp & _ & Hany & Hsil).
  pose proof (eq_trans (eq_sym (Hrun 0)) busy_world_run) as Heq.
  apply done_inj in Heq. subst w1.
  destruct (Hsil (all_silent_in _)) as (w2 & seen' & Hex & _).
  exists w2. split; [apply Hex|].
  destruct (Hany 1 w2 (Hex 0)) as (evs & Hlog2 & Hcnt & _).
  split; [|exact Hp]. rewrite Hlog2, drop_app_length. exact Hcnt.
Defined.

(** C2, amended, on the cache of the tests: the two waiters of key 7 are
    called before the wait list is removed. *)
Lemma completion_order_witness :
  inv (cache busy_world) ∧
  7 ∈ completions_ (cache busy_world) ∧
  pending_replies_ (cache busy_world) !! 7 = Some [1; 2] ∧
  ∃ evs,
    log completed_world = log busy_world ++ evs ∧
    fifo_replies (λ seen, is_Some (pending_replies_ seen !! 7)) (entry_of 7) no_error
      [1; 2] evs ∧
    pending_replies_ (cache completed_world) !! 7 = None.
Proof.
  split; [apply busy_world_inv|]. split; [apply busy_world_fetching|].
  split; [apply busy_world_waiting|].
  destruct (completion_order deferred_miss_handler silent_reply busy_world 7 (Some 42)
              no_error [1; 2] busy_world_inv busy_world_fetching busy_world_waiting)
    as (c1 & _ & _ & _ & _ & Hany).
  exact (Hany 1 completed_world completed_world_run).
Defined.

(** C3 on [lru_order_test]: the list is 2, 4, 3, 1, 0 and its links
    are consistent. *)
Lemma list_integrity_witness :
  run_main test_miss_handler silent_reply 3 lru_order_test (new_world 5)
  = done lru_order_world ∧
  traversal (cache lru_order_world) =
    Some [entry_of 2; entry_of 4; entry_of 3; entry_of 1; entry_of 0] ∧
  ∃ l, traversal (cache lru_order_world) = Some (ptrs l) ∧
       ∀ it, it ∈ ptrs l → check_linkage (cache lru_order_world) it = Some true.
Proof.
  split; [apply lru_order_run|]. split; [vm_compute; reflexivity|].
  destruct (list_integrity test_miss_handler silent_reply 5 lru_order_test 3
              lru_order_world lru_order_run)
    as (_ & _ & l & Htr & _ & _ & Hlink).
  exists l. split; [exact Htr | exact Hlink].
Defined.

(** C4 on the full cache of the tests, as in [evict_lru_test]: a fourth
    entry goes to the head and the tail, key 0, is evicted. *)
Lemma eviction_bounds_size_witness :
  repr (cache full_world) [2; 1; 0] ∧
  map_ (cache full_world) !! 7 = None ∧
  ∃ c', add_entry (cache full_world) 7 (Some 42) = Some (c', entry_of 7) ∧
        repr c' [7; 2; 1] ∧
        size c' ≤ limit_ c'.
Proof.
  split; [apply full_world_repr|]. split; [apply full_world_absent|].
  destruct (eviction_bounds_size deferred_miss_handler silent_reply
              (cache full_world) [2; 1; 0] 7 42 full_world_repr full_world_absent)
    as [(c' & E & Hr & _ & Hsize & _) _].
  rewrite full_world_limit in Hr.
  exists c'. split; [exact E|]. split; [exact Hr | exact Hsize].
Defined.

(** C5 on [fill(0, 3)]: the list is 2, 1, 0. *)
Lemma recency_order_witness :
  NoDup (inserted_keys fill_0_3) ∧
  length fill_0_3 ≤ 5 ∧
  ∃ w', run_main deferred_miss_handler silent_reply 1 (inserts fill_0_3) (new_world 5)
        = done w' ∧
        traversal (cache w') = Some (ptrs (reverse (inserted_keys fill_0_3))).
Proof.
  split; [apply fill_0_3_NoDup|].
  assert (Hlen : length fill_0_3 ≤ 5) by (cbn; lia).
  split; [exact Hlen|].
  destruct (recency_order deferred_miss_handler silent_reply 5 fill_0_3
              fill_0_3_NoDup Hlen (λ k _, all_deferred k) (all_silent_in _))
    as (w' & Hrun & Htr & _).
  exists w'. split; [apply Hrun | exact Htr].
Defined.

(** C6 on the cache of the tests: [get(1)] makes the list 1, 2, 0. *)
Lemma hit_moves_to_front_witness :
  repr (cache filled_world) ([2] ++ 1 :: [0]) ∧
  ∃ w1, exec deferred_miss_handler silent_reply 1 (call_get 1 9) filled_world = done w1 ∧
        repr (cache w1) (1 :: [2] ++ [0]) ∧
        cbegin (cache w1) = entry_of 1 ∧
        log w1 = log filled_world ++ [reply_called 9 (entry_of 1) no_error (cache w1)].
Proof.
  split; [apply filled_world_repr|].
  destruct (hit_moves_to_front deferred_miss_handler silent_reply filled_world
              [2] 1 [0] 9 filled_world_repr)
    as (c1 & Hr & Hb & _ & _ & _ & Hlog & _ & Hsil).
  eexists. split; [apply (Hsil (all_silent 9) 0)|].
  split; [exact Hr|]. split; [exact Hb | exact Hlog].
Defined.

(** C7 on the empty cache with the fetch function of the tests, which
    completes from inside its invocation: the reply is called. *)
Lemma pending_registered_before_fetch_witness :
  map_ (cache (new_world (Key := nat) (T := nat) 5)) !! 3 = None ∧
  pending_replies_ (cache (new_world (Key := nat) (T := nat) 5)) !! 3 = None ∧
  ∃ w' c1 c2,
    exec test_miss_handler silent_reply 2 (call_get 3 1) (new_world 5) = done w' ∧
    log w' = [fetch_called 3 c1; reply_called 1 (entry_of 3) no_error c2] ∧
    pending_replies_ c1 !! 3 = Some [1].
Proof.
  assert (Hm : map_ (cache (new_world (Key := nat) (T := nat) 5)) !! 3 = None)
    by (vm_compute; reflexivity).
  assert (Hq : pending_replies_ (cache (new_world (Key := nat) (T := nat) 5)) !! 3 = None)
    by (vm_compute; reflexivity).
  split; [exact Hm|]. split; [exact Hq|].
  destruct (pending_registered_before_fetch test_miss_handler silent_reply
              (new_world 5) 3 1 Hm Hq)
    as (Hp & _ & _ & _ & Hsync).
  destruct (Hsync (Some 3) no_error (inv_new_cache 5) eq_refl (all_silent 1))
    as (c2 & _ & Hex).
  eexists _, _, c2. split; [apply (Hex 0)|]. split; [reflexivity | exact Hp].
Defined.

(** C8 on the cache of the tests: the fetch of key 7 fails. *)
Lemma fetch_failure_witness :
  inv (cache busy_world) ∧
  7 ∈ completions_ (cache busy_world) ∧
  pending_replies_ (cache busy_world) !! 7 = Some [1; 2] ∧
  ∃ w',
    exec deferred_miss_handler silent_reply 1 (call_complete 7 None invalid_argument)
      busy_world = done w' ∧
    log w' = log busy_world ++
             replies_to [1; 2] sentinel_ptr invalid_argument (cache failed_world) ∧
    pending_replies_ (cache w') !! 7 = None.
Proof.
  split; [apply busy_world_inv|]. split; [apply busy_world_fetching|].
  split; [apply busy_world_waiting|].
  destruct (fetch_failure deferred_miss_handler silent_reply busy_world 7
              invalid_argument [1; 2]
              busy_world_inv busy_world_fetching busy_world_waiting)
    as (_ & _ & _ & Hsil & Hgone).
  pose proof (Hsil (all_silent_in _) 0) as Hex.
  eexists. split; [exact Hex|]. split; [reflexivity|].
  exact (Hgone None 1 _ Hex).
Defined.

(** C9 on the cache of the tests: after [flush()] the fetch of key 7
    completes and its entry is at the head. *)
Lemma flush_keeps_pending_witness :
  inv (cache busy_world) ∧
  7 ∈ completions_ (cache busy_world) ∧
  pending_replies_ (cache busy_world) !! 7 = Some [1; 2] ∧
  traversal (flush (cache busy_world)) = Some [] ∧
  pending_replies_ (flush (cache busy_world)) !! 7 = Some [1; 2] ∧
  ∃ w' c1,
    exec deferred_miss_handler silent_reply 1 (call_complete 7 (Some 42) no_error)
      (with_cache busy_world (flush (cache busy_world))) = done w' ∧
    log w' = log busy_world ++ replies_to [1; 2] (entry_of 7) no_error c1 ∧
    cbegin c1 = entry_of 7 ∧
    contents c1 !! 7 = Some (Some 42).
Proof.
  split; [apply busy_world_inv|]. split; [apply busy_world_fetching|].
  split; [apply busy_world_waiting|].
  destruct (flush_keeps_pending deferred_miss_handler silent_reply busy_world 7 42
              no_error [1; 2] busy_world_inv busy_world_fetching busy_world_waiting)
    as ((_ & _ & _ & Htr & _) & _ & Hafter).
  split; [exact Htr|].
  destruct (Hafter (flush (cache busy_world)) (or_introl eq_refl))
    as (Hp & _ & (c1 & _ & Hhead & _ & Hsil) & _).
  split; [rewrite Hp; apply busy_world_waiting|].
  assert (Hlim : 0 < limit_ (cache busy_world)) by (vm_compute; lia).
  destruct (Hhead Hlim) as [Hb Hc].
  eexists _, c1. split; [apply (Hsil (all_silent_in _) 0)|].
  split; [reflexivity|]. split; [exact Hb | exact Hc].
Defined.

(** C10, amended, on the cache of the tests: while the waiters of key 7
    are called with its new entry, [get(7, 8)] is a hit; and when the first
    waiter makes this call, the completion returns, both waiters and the
    reply 8 have been called and the wait list is erased. *)
Lemma reentrant_get_witness :
  inv (cache stored_world) ∧
  draining 7 (cache stored_world) ∧
  is_Some (map_ (cache stored_world) !! 7) ∧
  silent reentrant_reply 8 ∧
  (∃ c1,
     exec deferred_miss_handler reentrant_reply 1 (call_get 7 8) stored_world =
     done (record (with_cache stored_world c1) (reply_called 8 (entry_of 7) no_error c1)) ∧
     pending_replies_ c1 = pending_replies_ (cache stored_world)) ∧
  exec deferred_miss_handler reentrant_reply 2 (call_complete 7 (Some 42) no_error)
    busy_world = done reentered_world ∧
  ∃ evs, log reentered_world = log busy_world ++ evs ∧
         fifo_replies (λ seen, inv seen ∧ draining 7 seen) (entry_of 7) no_error
           [1; 2] evs ∧
         fetch_count 7 evs = 0 ∧
         pending_replies_ (cache reentered_world) !! 7 = None.
Proof.
  split; [apply stored_world_draining|]. split; [apply stored_world_draining|].
  split; [apply stored_world_present|]. split; [apply reply_8_silent|].
  destruct (reentrant_get deferred_miss_handler reentrant_reply stored_world 7 8
              (proj1 stored_world_draining) (proj2 stored_world_draining))
    as (_ & Hhit & _ & Hdrain).
  destruct (Hhit stored_world_present) as (c1 & _ & _ & _ & Hp & _ & Hsil).
  split; [exists c1; split; [exact (Hsil reply_8_silent 0) | exact Hp]|].
  split; [apply reentered_world_run|].
  exact (Hdrain busy_world (Some 42) no_error [1; 2] 2 reentered_world
           busy_world_inv busy_world_waiting reentered_world_run).
Defined.

(** C2 as the specification words it fails on the cache of the tests:
    when the fetch of key 7 fails, the first waiter is called on a cache in
    which the wait list of key 7 is still [1; 2]. *)
Lemma erases_before_replies_counterexample :
  ¬ spec_erases_before_replies deferred_miss_handler silent_reply.
Proof.
  intros Hspec.
  destruct (complete_silent deferred_miss_handler silent_reply 7 None invalid_argument
              busy_world [1; 2] busy_world_inv busy_world_fetching busy_world_waiting
              (all_silent_in _)) as (c1 & E & Hex).
  unfold store_result in E. injection E as <-.
  destruct (Hspec busy_world 7 None invalid_argument [1; 2] 1 _
              busy_world_inv busy_world_waiting (Hex 0))
    as (evs & Hlog & Hfifo).
  cbn [log] in Hlog. apply app_inv_head in Hlog. subst evs.
  destruct Hfifo as (seen & nested & evs' & Heq & Hnone & _).
  unfold replies_to in Heq. rewrite fmap_cons in Heq.
  injection Heq as <- _. vm_compute in Hnone. discriminate.
Qed.

(** C10 as it is worded fails on the cache of the tests: while the
    waiters of key 7 are called with its new entry, [get(7, 8)] is a hit, and
    calls the reply 8 at once instead of appending it. *)
Lemma reentrant_get_appends_counterexample :
  ¬ spec_reentrant_get_appends deferred_miss_handler silent_reply.
Proof.
  intros Hspec.
  pose proof (Hspec stored_world 7 8 1 hit_world
                (proj1 stored_world_draining) (proj2 stored_world_draining)
                hit_world_run) as Heq.
  apply (f_equal (λ w, length (log w))) in Heq. vm_compute in Heq. discriminate.
Qed.

(** * The further properties on the cache of the tests *)

Lemma zero_world_run :
  run_main deferred_miss_handler silent_reply 1 (gets 7 [1]) (new_world 0)
  = done zero_world.
Proof. vm_compute. reflexivity. Qed.

Lemma zero_world_inv : inv (cache zero_world).
Proof.
  apply (run_main_preserved _ _ _ _ _ _ zero_world_run). apply inv_new_cache.
Qed.

Lemma zero_world_fetching : 7 ∈ completions_ (cache zero_world).
Proof. apply (bool_decide_unpack _). vm_compute. exact I. Qed.

Lemma zero_world_waiting : pending_replies_ (cache zero_world) !! 7 = Some [1].
Proof. vm_compute. reflexivity. Qed.

Lemma zero_world_limit : limit_ (cache zero_world) = 0.
Proof. vm_compute. reflexivity. Qed.

Lemma full_world_inv : inv (cache full_world).
Proof.
  apply (run_main_preserved _ _ _ _ _ _ full_world_run). apply inv_new_cache.
Qed.

Lemma full_world_idle : pending_replies_ (cache full_world) !! 7 = None.
Proof. vm_compute. reflexivity. Qed.

Lemma filled_world_limit : limit_ (cache filled_world) = 5.
Proof. vm_compute. reflexivity. Qed.

Lemma filled_world_idle_1 : pending_replies_ (cache filled_world) !! 1 = None.
Proof. vm_compute. reflexivity. Qed.

Lemma busy_world_limit : limit_ (cache busy_world) = 5.
Proof. vm_compute. reflexivity. Qed.

Lemma filled_world_values :
  Forall2 (λ k t, contents (cache filled_world) !! k = Some (Some t)) [2; 1; 0] [2; 1; 0].
Proof. repeat constructor; vm_compute; reflexivity. Qed.

Lemma lru_order_world_size : size (cache lru_order_world) ≤ 5.
Proof. apply (bool_decide_unpack _). vm_compute. exact I. Qed.

Lemma lru_order_world_checked : list_integrity_check (cache lru_order_world) = Some true.
Proof. vm_compute. reflexivity. Qed.

(** X1 on the cache of the tests: the two [get(7)] call the fetch function
    for a key that has no entry. *)
Lemma fetches_are_fresh_witness :
  run_main deferred_miss_handler silent_reply 1 (gets 7 [1; 2]) filled_world
  = done busy_world ∧
  ∃ evs, log busy_world = log filled_world ++ evs ∧
         ∀ k seen, fetch_called k seen ∈ evs →
                   map_ seen !! k = None ∧
                   (∃ r, pending_replies_ seen !! k = Some [r]) ∧
                   k ∈ completions_ seen.
Proof.
  split; [apply busy_world_run|].
  exact (fetches_are_fresh deferred_miss_handler silent_reply 1 (gets 7 [1; 2])
           filled_world busy_world busy_world_run).
Defined.

(** X2 on the cache of limit 0 with the fetch of key 7 in flight. *)
Lemma wait_lists_match_fetches_witness :
  run_main deferred_miss_handler silent_reply 1 (gets 7 [1]) (new_world 0)
  = done zero_world ∧
  (is_Some (pending_replies_ (cache zero_world) !! 7) ↔
   7 ∈ completions_ (cache zero_world)) ∧
  (7 ∈ completions_ (cache zero_world) → map_ (cache zero_world) !! 7 = None) ∧
  (∀ rs, pending_replies_ (cache zero_world) !! 7 = Some rs → rs ≠ []).
Proof.
  split; [apply zero_world_run|].
  exact (wait_lists_match_fetches deferred_miss_handler silent_reply 0 1 (gets 7 [1])
           zero_world 7 zero_world_run).
Defined.

(** X3 on [lru_order_test]: [dump_cache] prints as many values as the
    cache has entries. *)
Lemma dump_cache_prints_witness :
  run_main test_miss_handler silent_reply 3 lru_order_test (new_world 5)
  = done lru_order_world ∧
  ∃ vs, length vs = size (cache lru_order_world) ∧
        dump_cache 5 (cache lru_order_world) (cbegin (cache lru_order_world))
          (cend (cache lru_order_world)) = Some vs ∧
        iterator_value (cache lru_order_world) (cend (cache lru_order_world)) = None.
Proof.
  split; [apply lru_order_run|].
  destruct (dump_cache_prints test_miss_handler silent_reply 5 3 lru_order_test
              lru_order_world lru_order_run)
    as (l & vs & _ & _ & Hlen & Hdump & Hend).
  exists vs. split; [exact Hlen|]. split; [|exact Hend].
  exact (Hdump 5 lru_order_world_size).
Defined.

(** X4 on [lru_order_test]. *)
Lemma list_integrity_check_passes_witness :
  run_main test_miss_handler silent_reply 3 lru_order_test (new_world 5)
  = done lru_order_world ∧
  list_integrity_check (cache lru_order_world) = Some true.
Proof.
  split; [apply lru_order_run|].
  exact (list_integrity_check_passes test_miss_handler silent_reply 5 3 lru_order_test
           lru_order_world lru_order_run).
Defined.

(** X5 on the cache after [lru_order_test]. *)
Lemma list_integrity_check_sound_witness :
  list_integrity_check (cache lru_order_world) = Some true ∧
  ∃ ps, traversal (cache lru_order_world) = Some ps ∧
        length ps = size (cache lru_order_world) ∧
        ∀ it, it ∈ ps → check_linkage (cache lru_order_world) it = Some true.
Proof.
  split; [apply lru_order_world_checked|].
  exact (list_integrity_check_sound (cache lru_order_world) lru_order_world_checked).
Defined.

(** X6 on the cache of the tests: [invalidate(1)] leaves the list 2, 0. *)
Lemma invalidate_removes_witness :
  repr (cache filled_world) [2; 1; 0] ∧
  ∃ c', invalidate (cache filled_world) 1 = Some c' ∧
        repr c' (base.filter (λ k', k' ≠ 1) [2; 1; 0]) ∧
        find c' 1 = cend c' ∧
        size c' = size (cache filled_world) - 1.
Proof.
  split; [apply filled_world_repr|].
  destruct (invalidate_removes (cache filled_world) [2; 1; 0] 1 filled_world_repr)
    as (c' & E & Hr & _ & Hfind & _ & Hsize & _).
  exists c'. split; [exact E|]. split; [exact Hr|]. split; [exact Hfind|].
  rewrite Hsize. rewrite decide_True; [reflexivity|].
  apply (bool_decide_unpack _). vm_compute. exact I.
Defined.

(** X7 on the cache of the tests: [add_entry] for the key 1, which has an
    entry. *)
Lemma add_entry_present_key_witness :
  repr (cache filled_world) ([2] ++ 1 :: [0]) ∧
  length ([2] ++ 1 :: [0]) ≤ limit_ (cache filled_world) ∧
  ∃ c', add_entry (cache filled_world) 1 (Some 42) = Some (c', entry_of 1) ∧
        contents c' = contents (cache filled_world) ∧
        ∀ n, walk n c' (cbegin c') = None.
Proof.
  split; [apply filled_world_repr|].
  assert (Hlen : length ([2] ++ 1 :: [0]) ≤ limit_ (cache filled_world)).
  { rewrite filled_world_limit. cbn. lia. }
  split; [exact Hlen|].
  destruct (add_entry_present_key (cache filled_world) [2] 1 [0] (Some 42)
              filled_world_repr Hlen) as (c' & E & C & _ & Hwalk).
  exists c'. split; [exact E|]. split; [exact C | exact Hwalk].
Defined.

(** X8 on the cache of the tests: [invalidate(1)] and then [get(1, 9)]. *)
Lemma refetch_after_removal_witness :
  inv (cache filled_world) ∧
  pending_replies_ (cache filled_world) !! 1 = None ∧
  deferred deferred_miss_handler 1 ∧
  ∃ w' seen,
    run_main deferred_miss_handler silent_reply 1
      (calls [call_invalidate 1; call_get 1 9]) filled_world = done w' ∧
    log w' = log filled_world ++ [fetch_called 1 seen] ∧
    pending_replies_ (cache w') !! 1 = Some [9].
Proof.
  split; [apply filled_world_inv|]. split; [apply filled_world_idle_1|].
  split; [apply all_deferred|].
  destruct (refetch_after_removal deferred_miss_handler silent_reply filled_world 1 9
              (call_invalidate 1) filled_world_inv filled_world_idle_1
              (or_introl eq_refl) (all_deferred 1))
    as (w' & seen & Hrun & Hlog & _ & Hp & _).
  exists w', seen. split; [exact (Hrun 0)|]. split; [exact Hlog | exact Hp].
Defined.

(** X9 on the cache of the tests: the fetch of key 7 fails and [get(7, 8)]
    fetches again. *)
Lemma failure_not_cached_witness :
  inv (cache busy_world) ∧
  7 ∈ completions_ (cache busy_world) ∧
  pending_replies_ (cache busy_world) !! 7 = Some [1; 2] ∧
  ec_value invalid_argument ≠ 0%Z ∧
  ∃ w' seen,
    run_main deferred_miss_handler silent_reply 1
      (calls [call_complete 7 None invalid_argument; call_get 7 8]) busy_world
    = done w' ∧
    log w' = log busy_world
             ++ replies_to [1; 2] (cend (cache busy_world)) invalid_argument
                  (consume 7 (cache busy_world))
             ++ [fetch_called 7 seen] ∧
    contents (cache w') = contents (cache busy_world) ∧
    pending_replies_ (cache w') !! 7 = Some [8].
Proof.
  split; [apply busy_world_inv|]. split; [apply busy_world_fetching|].
  split; [apply busy_world_waiting|].
  assert (He : ec_value invalid_argument ≠ 0%Z) by discriminate.
  split; [exact He|].
  destruct (failure_not_cached deferred_miss_handler silent_reply busy_world 7
              invalid_argument [1; 2] 8 busy_world_inv busy_world_fetching
              busy_world_waiting (all_silent_in _) (all_deferred 7) He)
    as (w' & seen & Hrun & Hlog & _ & C & Hp & _).
  exists w', seen. split; [exact (Hrun 0)|]. split; [exact Hlog|].
  split; [exact C | exact Hp].
Defined.

(** X10 on the caches of the tests: with the limit 5 the waiters of key 7
    get a cursor to the value 42; with the limit 0 they get a cursor that
    has no entry behind it. *)
Lemma cursor_after_completion_witness :
  (inv (cache busy_world) ∧
   7 ∈ completions_ (cache busy_world) ∧
   pending_replies_ (cache busy_world) !! 7 = Some [1; 2] ∧
   ∃ c1, exec deferred_miss_handler silent_reply 1
           (call_complete 7 (Some 42) no_error) busy_world =
         done {| cache := pending_erase 7 c1;
                 log := log busy_world ++ replies_to [1; 2] (entry_of 7) no_error c1 |} ∧
         iterator_value c1 (entry_of 7) = Some 42 ∧
         find c1 7 = entry_of 7) ∧
  (inv (cache zero_world) ∧
   7 ∈ completions_ (cache zero_world) ∧
   pending_replies_ (cache zero_world) !! 7 = Some [1] ∧
   ∃ c1, exec deferred_miss_handler silent_reply 1
           (call_complete 7 (Some 42) no_error) zero_world =
         done {| cache := pending_erase 7 c1;
                 log := log zero_world ++ replies_to [1] (entry_of 7) no_error c1 |} ∧
         iterator_value c1 (entry_of 7) = None ∧
         find c1 7 = cend c1 ∧
         entry_of 7 ≠ cend c1).
Proof.
  split.
  - split; [apply busy_world_inv|]. split; [apply busy_world_fetching|].
    split; [apply busy_world_waiting|].
    destruct (cursor_after_completion deferred_miss_handler silent_reply busy_world 7
                42 no_error [1; 2] busy_world_inv busy_world_fetching
                busy_world_waiting (all_silent_in _))
      as (c1 & Hex & Hpos & _).
    assert (Hlim : 0 < limit_ (cache busy_world)) by (rewrite busy_world_limit; lia).
    destruct (Hpos Hlim) as [Hv Hf].
    exists c1. split; [exact (Hex 0)|]. split; [exact Hv | exact Hf].
  - split; [apply zero_world_inv|]. split; [apply zero_world_fetching|].
    split; [apply zero_world_waiting|].
    destruct (cursor_after_completion deferred_miss_handler silent_reply zero_world 7
                42 no_error [1] zero_world_inv zero_world_fetching
                zero_world_waiting (all_silent_in _))
      as (c1 & Hex & _ & Hzero).
    destruct (Hzero zero_world_limit) as (Hv & Hf & Hne & _).
    exists c1. split; [exact (Hex 0)|]. split; [exact Hv|].
    split; [exact Hf | exact Hne].
Defined.

(** X11 on the full cache of the tests: after a hit on key 0, the tail,
    the fetch of key 7 evicts key 1 and the list is 7, 0, 2. *)
Lemma touched_entry_survives_witness :
  inv (cache full_world) ∧
  repr (cache full_world) ([2; 1] ++ 0 :: []) ∧
  2 ≤ limit_ (cache full_world) ∧
  map_ (cache full_world) !! 7 = None ∧
  pending_replies_ (cache full_world) !! 7 = None ∧
  ∃ w',
    run_main deferred_miss_handler silent_reply 1
      (calls [call_get 0 8; call_get 7 9; call_complete 7 (Some 42) no_error])
      full_world = done w' ∧
    repr (cache w') [7; 0; 2] ∧
    find (cache w') 0 = entry_of 0.
Proof.
  split; [apply full_world_inv|]. split; [apply full_world_repr|].
  assert (Hlim : 2 ≤ limit_ (cache full_world)) by (rewrite full_world_limit; lia).
  split; [exact Hlim|]. split; [apply full_world_absent|].
  split; [apply full_world_idle|].
  destruct (touched_entry_survives deferred_miss_handler silent_reply full_world
              [2; 1] 0 [] 7 8 9 42 no_error full_world_inv full_world_repr Hlim
              full_world_absent full_world_idle (all_deferred 7)
              (all_silent 8) (all_silent 9))
    as (w' & Hrun & Hr & _ & Hf).
  rewrite full_world_limit in Hr.
  exists w'. split; [exact (Hrun 0)|]. split; [exact Hr | exact Hf].
Defined.

(** X12 on the cache of the tests: the fetch of key 7 brings 42 and
    [get(7, 8)] is answered with it. *)
Lemma fetched_value_is_served_witness :
  inv (cache busy_world) ∧
  0 < limit_ (cache busy_world) ∧
  7 ∈ completions_ (cache busy_world) ∧
  pending_replies_ (cache busy_world) !! 7 = Some [1; 2] ∧
  ∃ w' c1 c2,
    run_main deferred_miss_handler silent_reply 1
      (calls [call_complete 7 (Some 42) no_error; call_get 7 8]) busy_world = done w' ∧
    log w' = log busy_world ++ replies_to [1; 2] (entry_of 7) no_error c1
                            ++ [reply_called 8 (entry_of 7) no_error c2] ∧
    expect_value c2 (entry_of 7) 42 = Some true.
Proof.
  split; [apply busy_world_inv|].
  assert (Hlim : 0 < limit_ (cache busy_world)) by (rewrite busy_world_limit; lia).
  split; [exact Hlim|]. split; [apply busy_world_fetching|].
  split; [apply busy_world_waiting|].
  destruct (fetched_value_is_served deferred_miss_handler silent_reply busy_world 7 42
              no_error [1; 2] 8 busy_world_inv Hlim busy_world_fetching
              busy_world_waiting (all_silent_in _) (all_silent 8))
    as (w' & c1 & c2 & Hrun & Hlog & _ & _ & Hv).
  exists w', c1, c2. split; [exact (Hrun 0)|]. split; [exact Hlog | exact Hv].
Defined.

(** X13 on the cache of the tests: [list_check({2, 1, 0})] holds, and
    [list_check({2, 1})] reads past the end of its argument. *)
Lemma list_check_decides_witness :
  repr (cache filled_world) [2; 1; 0] ∧
  Forall2 (λ k t, contents (cache filled_world) !! k = Some (Some t)) [2; 1; 0] [2; 1; 0] ∧
  list_check (cache filled_world) [2; 1; 0] = Some true ∧
  list_check (cache filled_world) [2; 1] = None.
Proof.
  split; [apply filled_world_repr|]. split; [apply filled_world_values|].
  split.
  - destruct (list_check_decides (cache filled_world) [2; 1; 0] [2; 1; 0] [2; 1; 0]
                filled_world_repr filled_world_values) as [Hsame _].
    rewrite Hsame by (cbn; lia). reflexivity.
  - destruct (list_check_decides (cache filled_world) [2; 1; 0] [2; 1; 0] [2; 1]
                filled_world_repr filled_world_values) as [_ Hlong].
    apply Hlong. cbn. lia.
Defined.

(** X14 on the cache of the tests: the fetch of key 7 fails and the first
    waiter calls [get(7, 8)]. *)
Lemma reentrant_append_undefined_witness :
  inv (cache busy_world) ∧
  7 ∈ completions_ (cache busy_world) ∧
  pending_replies_ (cache busy_world) !! 7 = Some [1; 2] ∧
  (∀ it err w1, reentrant_reply 1 it err w1 = bind_call (call_get 7 8) (λ _, ret)) ∧
  exec deferred_miss_handler reentrant_reply 2 (call_complete 7 None invalid_argument)
    busy_world = undefined.
Proof.
  split; [apply busy_world_inv|]. split; [apply busy_world_fetching|].
  split; [apply busy_world_waiting|].
  assert (Hre : ∀ it err w1,
            reentrant_reply 1 it err w1 = bind_call (call_get 7 8) (λ _, ret))
    by (intros it err w1; reflexivity).
  split; [exact Hre|].
  destruct (reentrant_append_undefined deferred_miss_handler reentrant_reply busy_world
              7 None invalid_argument 1 [2] 8 busy_world_inv busy_world_fetching
              busy_world_waiting (or_introl eq_refl) Hre)
    as (c1 & _ & _ & _ & Hundef).
  exact (Hundef 0).
Defined.

End utils.
